(** * GIF picture parser (hachoir_parser/image/gif.py)

    A shallow embedding of the GIF parser of hachoir.  The parser is a set of
    Python generators that yield fields to a field set; here a generator is a
    computation in a small state-and-exception monad whose state is the
    stream cursor together with the fields yielded so far.

    The stream and the field classes (hachoir_core) are not part of the
    parser module; the few primitives the parser uses are modelled below and
    marked as such. *)

From Stdlib Require Import ZArith List String Ascii Lia Bool DecimalString.
From Stdlib.Strings Require Import Byte.
Import ListNotations.
Local Open Scope Z_scope.

(** ** Constants of the module *)

(* Maximum image dimension (in pixel) *)
Definition MAX_WIDTH : Z := 6000.
Definition MAX_HEIGHT : Z := MAX_WIDTH.
Definition MAX_FILE_SIZE : Z := 100 * 1024 * 1024.

(** ** Field tree *)

(** A field name.  [Array "comment"] is the declared name "comment[]";
    when the field is added to its parent it becomes [Item "comment" i],
    that is "comment[i]". *)
Inductive fname : Type :=
| Name (s : string)
| Array (base : string)
| Item (base : string) (index : nat).

Definition fname_eqb (a b : fname) : bool :=
  match a, b with
  | Name s, Name t => String.eqb s t
  | Array s, Array t => String.eqb s t
  | Item s i, Item t j => String.eqb s t && Nat.eqb i j
  | _, _ => false
  end.

Inductive fclass : Type :=
| cUInt8 | cUInt16 | cBit | cBits | cNullBits | cNullBytes
| cString | cPascalString8 | cCharacter | cRawBytes
| cRGB | cPaletteRGB | cImage | cExtension | cScreenDescriptor.

Inductive fvalue : Type :=
| IntV (z : Z)
| BoolV (b : bool)
| StrV (s : list byte)
| NoV.

(** Display handlers attached to a field ([text_handler=...], [Enum]). *)
Inductive handler : Type :=
| hexadecimal
| humanDuration
| EnumOf (table : list (fvalue * string)).

#[warnings="-register-all"]
Inductive field : Type := mkField {
  f_name : fname;
  f_class : fclass;
  f_address : Z;                       (* absolute address, in bits *)
  f_size : Z;                          (* size, in bits *)
  f_value : fvalue;
  f_description : option string;
  f_text_handler : option handler;
  f_fields : list field                (* children of a field set *)
}.

(** ** Cursor, exceptions and the generator monad *)

(** The cursor is a byte position, a bit offset inside the current byte and
    the bytes of the stream from the current byte on. *)
Record pstate : Type := mkState {
  byte_pos : Z;
  bit : Z;
  input : list byte;
  out : list field;                    (* fields yielded so far, in order *)
  log : list string                    (* messages passed to self.error *)
}.

Definition addr (st : pstate) : Z := 8 * byte_pos st + bit st.

Inductive exn : Type :=
| ParserError (msg : string)
| TruncatedInput
| UnalignedRead
| MissingField (n : fname)
| InvalidLength
| OutOfFuel.

Inductive res (A : Type) : Type :=
| Done (a : A) (st : pstate)
| Raise (e : exn) (st : pstate).
Arguments Done {A} a st.
Arguments Raise {A} e st.

Definition M (A : Type) : Type := pstate -> res A.

Definition ret {A} (a : A) : M A := fun st => Done a st.
Definition bind {A B} (m : M A) (k : A -> M B) : M B :=
  fun st => match m st with
            | Done a st' => k a st'
            | Raise e st' => Raise e st'
            end.
Definition raise {A} (e : exn) : M A := fun st => Raise e st.

Declare Scope gen_scope.
Delimit Scope gen_scope with gen.
Notation "x <- m ;; k" := (bind m (fun x => k))
  (at level 61, m at next level, right associativity) : gen_scope.
Notation "m ;; k" := (bind m (fun _ => k))
  (at level 61, right associativity) : gen_scope.
Local Open Scope gen_scope.

(** Result of constructing a field at the cursor: the field and the value
    the generator reads back from it, or the exception raised. *)
Inductive built (A : Type) : Type :=
| Built (f : field) (a : A)
| Failed (e : exn).
Arguments Built {A} f a.
Arguments Failed {A} e.

Definition fieldc (A : Type) : Type := pstate -> built A.

(** ** Stream primitives

    Modelled from the spec: the bit-addressable stream of hachoir_core is
    not part of the parser module.  Reads are little endian (the parser sets
    [endian = LITTLE_ENDIAN]): a value is taken from the bytes that cover
    it, least significant byte first, shifted down to its first bit. *)

Definition byte_val (b : byte) : Z := Z.of_N (Byte.to_N b).

Fixpoint str2long (data : list byte) : Z :=
  match data with
  | [] => 0
  | b :: r => byte_val b + 256 * str2long r
  end.

(** Modelled from the spec: readBits of the stream, little endian.  The
    bytes that cover the bits are read, least significant byte first, and
    the value is shifted down to its first bit. *)
Definition readBits (st : pstate) (nbits : Z) : option Z :=
  let nbytes := Z.to_nat ((bit st + nbits + 7) / 8) in
  let data := firstn nbytes (input st) in
  if (List.length data <? nbytes)%nat then None
  else Some (Z.land (Z.shiftr (str2long data) (bit st)) (Z.ones nbits)).

(** Modelled from the spec: readBytes of the stream, at a byte boundary. *)
Definition readBytes (st : pstate) (n : Z) : exn + list byte :=
  if negb (bit st =? 0) then inl UnalignedRead
  else if n <? 0 then inl InvalidLength
  else
    let data := firstn (Z.to_nat n) (input st) in
    if (List.length data <? Z.to_nat n)%nat then inl TruncatedInput
    else inr data.

(** ** Adding a field to the field set *)

Definition same_array (base : string) (f : field) : bool :=
  match f_name f with
  | Item b _ => String.eqb b base
  | _ => false
  end.

(** Modelled from the spec: a field declared "base[]" gets the next free
    index of its array in the field set. *)
Definition setUniqueFieldName (fs : list field) (f : field) : field :=
  match f_name f with
  | Array base =>
      mkField (Item base (List.length (filter (same_array base) fs)))
              (f_class f) (f_address f) (f_size f) (f_value f)
              (f_description f) (f_text_handler f) (f_fields f)
  | _ => f
  end.

(** Modelled from the spec: the field is appended and the cursor moves by
    the size of the field. *)
Definition addField (st : pstate) (f : field) : pstate :=
  {| byte_pos := byte_pos st + (bit st + f_size f) / 8;
     bit := (bit st + f_size f) mod 8;
     input := skipn (Z.to_nat ((bit st + f_size f) / 8)) (input st);
     out := out st ++ [setUniqueFieldName (out st) f];
     log := log st |}.

Definition yield {A} (c : fieldc A) : M A :=
  fun st =>
    match c st with
    | Built f a => Done a (addField st f)
    | Failed e => Raise e st
    end.

(** Modelled from the spec: self.error(msg) reports the message; the
    generator goes on (createFields breaks out of its loop right after). *)
Definition error (msg : string) : M unit :=
  fun st => Done tt {| byte_pos := byte_pos st; bit := bit st;
                       input := input st; out := out st;
                       log := log st ++ [msg] |}.

(** ** Field classes

    Modelled from the spec: the field classes of hachoir_core.field are not
    part of the parser module.  Each one reads its bits at the cursor. *)

(** Modelled from the spec: a field of [nbits] bits read at the cursor;
    [mk] gives the value of the field and what the generator reads back. *)
Definition bits_field {A} (c : fclass) (n : fname) (nbits : Z)
    (desc : option string) (mk : Z -> fvalue * A) : fieldc A :=
  fun st =>
    match readBits st nbits with
    | None => Failed TruncatedInput
    | Some v =>
        Built (mkField n c (addr st) nbits (fst (mk v)) desc None [])
              (snd (mk v))
    end.

Definition int_field (c : fclass) (n : fname) (nbits : Z)
    (desc : option string) : fieldc Z :=
  bits_field c n nbits desc (fun v => (IntV v, v)).

Definition UInt8 (n : fname) (desc : option string) : fieldc Z :=
  int_field cUInt8 n 8 desc.
Definition UInt16 (n : fname) (desc : option string) : fieldc Z :=
  int_field cUInt16 n 16 desc.
Definition Bits (n : fname) (nbits : Z) (desc : option string) : fieldc Z :=
  int_field cBits n nbits desc.

(** The value of a Bit is a boolean. *)
Definition Bit (n : fname) (desc : option string) : fieldc bool :=
  bits_field cBit n 1 desc (fun v => (BoolV (v =? 1), v =? 1)).

(** Padding bits: the content is not checked. *)
Definition NullBits (n : fname) (nbits : Z) : fieldc unit :=
  bits_field cNullBits n nbits None (fun _ => (NoV, tt)).

(** Modelled from the spec: a field of [len] bytes read at the cursor. *)
Definition bytes_field (c : fclass) (n : fname) (len : Z)
    (desc : option string) : fieldc (list byte) :=
  fun st =>
    match readBytes st len with
    | inl e => Failed e
    | inr data =>
        Built (mkField n c (addr st) (8 * len) (StrV data) desc None []) data
    end.

Definition RawBytes (n : fname) (len : Z) : fieldc (list byte) :=
  bytes_field cRawBytes n len None.
Definition String_ (n : fname) (len : Z) (desc : option string)
  : fieldc (list byte) := bytes_field cString n len desc.

Definition with_handler {A} (h : handler) (c : fieldc A) : fieldc A :=
  fun st =>
    match c st with
    | Built f a =>
        Built (mkField (f_name f) (f_class f) (f_address f) (f_size f)
                       (f_value f) (f_description f) (Some h) (f_fields f)) a
    | Failed e => Failed e
    end.

(** Enum(field, table): the field with the table as display handler. *)
Definition Enum {A} (c : fieldc A) (table : list (fvalue * string))
  : fieldc A := with_handler (EnumOf table) c.

(** Modelled from the spec: a field set.  Its generator runs on a fresh
    list of children; the size of the set is what its children cover.  An
    exception raised by the generator leaves the set unbuilt. *)
Definition children_state (st : pstate) : pstate :=
  {| byte_pos := byte_pos st; bit := bit st; input := input st;
     out := []; log := [] |}.

Definition FieldSet (c : fclass) (n : fname) (desc : option string)
    (createFields : M unit) : fieldc unit :=
  fun st =>
    match createFields (children_state st) with
    | Done _ st' =>
        Built (mkField n c (addr st) (addr st' - addr st) NoV desc None
                 (out st')) tt
    | Raise e _ => Failed e
    end.

(** ** ScreenDescriptor *)

Definition ScreenDescriptor_createFields : M unit :=
  yield (UInt16 (Name "width") (Some "Width"%string)) ;;
  yield (UInt16 (Name "height") (Some "Height"%string)) ;;
  yield (Bits (Name "bpp") 3 (Some "Bits per pixel minus one"%string)) ;;
  yield (Bit (Name "reserved") (Some "(reserved)"%string)) ;;
  yield (Bits (Name "color_res") 3 (Some "Color resolution minus one"%string)) ;;
  yield (Bit (Name "global_map") (Some "Has global map?"%string)) ;;
  yield (UInt8 (Name "background") (Some "Background color"%string)) ;;
  yield (UInt8 (Name "notused") (Some "Not used (zero)"%string)) ;;
  ret tt.

Definition ScreenDescriptor (n : fname) (desc : option string) : fieldc unit :=
  FieldSet cScreenDescriptor n desc ScreenDescriptor_createFields.

(** ** More field classes *)

(** Modelled from the spec: Character, one byte of the stream as a
    character. *)
Definition Character (n : fname) (desc : option string) : fieldc byte :=
  fun st =>
    match readBytes st 1 with
    | inr [ch] =>
        Built (mkField n cCharacter (addr st) 8 (StrV [ch]) desc None []) ch
    | inr _ => Failed TruncatedInput
    | inl e => Failed e
    end.

Fixpoint lstrip (chars s : list byte) : list byte :=
  match s with
  | [] => []
  | ch :: r =>
      if existsb (Byte.eqb ch) chars then lstrip chars r else s
  end.

Definition strip (chars s : list byte) : list byte :=
  rev (lstrip chars (rev (lstrip chars s))).

(** Modelled from the spec: PascalString8, a length byte, then that many
    bytes.  [strip] trims the value only; the length and the size count the raw content.  The
    generator reads back the length and the value. *)
Definition PascalString8 (n : fname) (desc : option string)
    (strip_chars : option (list byte)) : fieldc (Z * list byte) :=
  fun st =>
    if negb (bit st =? 0) then Failed UnalignedRead
    else
      match input st with
      | [] => Failed TruncatedInput
      | b :: r =>
          let len := byte_val b in
          let data := firstn (Z.to_nat len) r in
          if (List.length data <? Z.to_nat len)%nat then Failed TruncatedInput
          else
            let v := match strip_chars with
                     | Some cs => strip cs data
                     | None => data
                     end in
            Built (mkField n cPascalString8 (addr st) (8 * (1 + len))
                     (StrV v) desc None [])
                  (len, v)
      end.

(** Modelled from the spec: NullBytes of hachoir_core is not part of the
    parser module.  The spec makes the terminator byte mandatory ("must be
    0"), a malformed block otherwise. *)
Definition NullBytes (n : fname) (len : Z) (desc : option string)
  : fieldc unit :=
  fun st =>
    match readBytes st len with
    | inl e => Failed e
    | inr data =>
        if forallb (Byte.eqb x00) data
        then Built (mkField n cNullBytes (addr st) (8 * len) NoV desc None []) tt
        else Failed (ParserError "Terminator (0)")
    end.

(** Modelled from the spec: seekBit(address, name), padding from the cursor
    up to [address]. *)
Definition seekBit (address : Z) (n : fname) : fieldc unit :=
  fun st =>
    Built (mkField n cRawBytes (addr st) (address - addr st) NoV None None [])
          tt.

(** Modelled from the spec: PaletteRGB of hachoir_parser.image.common is not
    part of the parser module.  Given an entry count n it reads exactly 3n
    bytes, n ordered triplets of red, green and blue. *)
Definition RGB (n : fname) : fieldc unit :=
  FieldSet cRGB n None
    (yield (UInt8 (Name "red") (Some "Red"%string)) ;;
     yield (UInt8 (Name "green") (Some "Green"%string)) ;;
     yield (UInt8 (Name "blue") (Some "Blue"%string)) ;;
     ret tt).

Fixpoint PaletteRGB_createFields (nb_colors : nat) : M unit :=
  match nb_colors with
  | O => ret tt
  | S k => yield (RGB (Array "color")) ;; PaletteRGB_createFields k
  end.

Definition PaletteRGB (n : fname) (nb_colors : Z) (desc : option string)
  : fieldc unit :=
  FieldSet cPaletteRGB n desc (PaletteRGB_createFields (Z.to_nat nb_colors)).

(** ** Loops of the generators

    [while True: ...] with [break]: the body tells whether the loop goes on.
    Every iteration that goes on consumes input, so the loop is given one
    unit of fuel per byte left, plus one; [parse_terminates] below shows
    that this is enough. *)
Fixpoint loop (fuel : nat) (body : M bool) : M unit :=
  match fuel with
  | O => raise OutOfFuel
  | S n =>
      fun st =>
        match body st with
        | Done true st' => loop n body st'
        | Done false st' => Done tt st'
        | Raise e st' => Raise e st'
        end
  end.

Definition while_true (body : M bool) : M unit :=
  fun st => loop (S (List.length (input st))) body st.

(** ** Image *)

Definition Image_createFields : M unit :=
  yield (UInt16 (Name "left") (Some "Left"%string)) ;;
  yield (UInt16 (Name "top") (Some "Top"%string)) ;;
  yield (UInt16 (Name "width") (Some "Width"%string)) ;;
  yield (UInt16 (Name "height") (Some "Height"%string)) ;;
  bpp <- yield (Bits (Name "bpp") 3 (Some "Bits / pixel minus one"%string)) ;;
  yield (NullBits (Name "nul") 3) ;;
  yield (Bit (Name "interlaced") (Some "Interlaced?"%string)) ;;
  has_local_map <-
    yield (Bit (Name "has_local_map") (Some "Use local color map?"%string)) ;;
  if (has_local_map : bool) then
    let nb_color := Z.shiftl 1 (1 + bpp) in
    yield (PaletteRGB (Name "local_map") nb_color
             (Some "Local color map"%string))
  else ret tt.

Definition Image (n : fname) : fieldc unit :=
  FieldSet cImage n None Image_createFields.

(** ** Extensions *)

Definition DISPOSAL_METHOD : list (fvalue * string) :=
  [ (IntV 0, "No disposal specified"%string);
    (IntV 1, "Do not dispose"%string);
    (IntV 2, "Restore to background color"%string);
    (IntV 3, "Restore to previous"%string) ].

Definition NETSCAPE_CODE : list (fvalue * string) :=
  [ (IntV 1, "Loop count"%string) ].

Definition bytes (s : string) : list byte := list_byte_of_string s.

Definition bytes_eqb (a b : list byte) : bool :=
  if list_eq_dec Byte.byte_eq_dec a b then true else false.

(** In the generators below [parent["size"].value] and the like are the
    values of fields the generator has just yielded. *)
Definition parseApplicationExtension : M unit :=
  app_name <- yield (PascalString8 (Name "app_name")
                       (Some "Application name"%string) None) ;;
  size <- yield (UInt8 (Name "size") None) ;;
  (if bytes_eqb (snd app_name) (bytes "NETSCAPE2.0") && (size =? 3) then
     netscape_code <- yield (Enum (UInt8 (Name "netscape_code") None)
                               NETSCAPE_CODE) ;;
     if netscape_code =? 1 then
       yield (UInt16 (Name "loop_count") None) ;; ret tt
     else
       yield (RawBytes (Name "raw") 2) ;; ret tt
   else
     yield (RawBytes (Name "raw") size) ;; ret tt) ;;
  yield (NullBytes (Name "terminator") 1 (Some "Terminator (0)"%string)).

Definition parseGraphicControl : M unit :=
  size <- yield (UInt8 (Name "size") (Some "Block size (4)"%string)) ;;
  yield (Bit (Name "has_transp") (Some "Has transparency"%string)) ;;
  yield (Bit (Name "user_input") (Some "User input"%string)) ;;
  yield (Enum (Bits (Name "disposal_method") 3 None) DISPOSAL_METHOD) ;;
  yield (NullBits (Array "reserved") 3) ;;
  (if negb (size =? 4)
   then raise (ParserError "Invalid graphic control size")
   else ret tt) ;;
  yield (with_handler humanDuration
           (UInt16 (Name "delay") (Some "Delay time in millisecond"%string))) ;;
  yield (UInt8 (Name "transp") (Some "Transparent color index"%string)) ;;
  yield (NullBytes (Name "terminator") 1 (Some "Terminator (0)"%string)).

(* " \0\r\n\t" *)
Definition comment_strip : list byte := [x20; x00; x0d; x0a; x09].

Definition parseComments : M unit :=
  while_true
    (field <- yield (PascalString8 (Array "comment") None
                       (Some comment_strip)) ;;
     if fst field =? 0 then ret false else ret true).

Definition defaultExtensionParser : M unit :=
  while_true
    (size <- yield (UInt8 (Array "size") (Some "Size (in bytes)"%string)) ;;
     if 0 <? size then
       yield (RawBytes (Array "content") size) ;; ret true
     else ret false).

Definition ext_code (code : Z) : option (fname * M unit * string) :=
  if code =? 0xf9 then
    Some (Name "graphic_ctl", parseGraphicControl, "Graphic control"%string)
  else if code =? 0xfe then
    Some (Name "comments", parseComments, "Comments"%string)
  else if code =? 0xff then
    Some (Array "app_ext", parseApplicationExtension,
          "Application extension"%string)
  else None.

Definition Extension_code : fieldc Z :=
  with_handler hexadecimal (UInt8 (Name "code") (Some "Extension code"%string)).

(** Extension.__init__: the name, the parser and the description come
    from the table when the code is known; otherwise the declared name is
    kept, the parser is the default one and no description is set. *)
Definition Extension_init (n : fname) (code : Z)
  : fname * M unit * option string :=
  match ext_code code with
  | Some (name, parser, description) => (name, parser, Some description)
  | None => (n, defaultExtensionParser, None)
  end.

Definition Extension_createFields (parser : M unit) : M unit :=
  yield Extension_code ;; parser.

Definition Extension (n : fname) : fieldc unit :=
  fun st =>
    match Extension_code (children_state st) with
    | Failed e => Failed e
    | Built _ code =>
        let '(name, parser, description) := Extension_init n code in
        FieldSet cExtension name description (Extension_createFields parser) st
    end.

(** Lookup of a child by name. *)
Definition getField (fs : list field) (n : fname) : option field :=
  find (fun f => fname_eqb (f_name f) n) fs.

Section Description.
(** The display string of a field belongs to hachoir_core. *)
Variable display : field -> string.

Definition Extension_createDescription (self : field) : exn + string :=
  match getField (f_fields self) (Name "func") with
  | Some func => inr ("Extension: function " ++ display func)%string
  | None => inl (MissingField (Name "func"))
  end.

End Description.

(** ** GifFile *)

Definition separator_name : list (fvalue * string) :=
  [ (StrV [x21], "Extension"%string);      (* "!" *)
    (StrV [x2c], "Image"%string);          (* "," *)
    (StrV [x3b], "Terminator"%string) ].   (* ";" *)

(** "%02X" % v, for a byte. *)
Definition hex_digit (d : Z) : ascii :=
  if d <? 10 then ascii_of_nat (48 + Z.to_nat d)
  else ascii_of_nat (55 + Z.to_nat d).

Definition format_02X (v : Z) : string :=
  String (hex_digit (v / 16)) (String (hex_digit (v mod 16)) EmptyString).

(** "%u" % v *)
Definition format_u (v : Z) : string :=
  NilZero.string_of_uint (N.to_uint (Z.to_N v)).

Definition ord (ch : byte) : Z := byte_val ch.

(** self["a/b"]: a field the generator has yielded, by path. *)
Fixpoint getPath (fs : list field) (path : list fname) : option field :=
  match path with
  | [] => None
  | [n] => getField fs n
  | n :: rest =>
      match getField fs n with
      | Some f => getPath (f_fields f) rest
      | None => None
      end
  end.

Definition getitem (path : list fname) : M field :=
  fun st =>
    match getPath (out st) path with
    | Some f => Done f st
    | None => Raise (MissingField (last path (Name EmptyString))) st
    end.

Definition value_int (f : field) : Z :=
  match f_value f with
  | IntV z => z
  | BoolV b => Z.b2z b
  | _ => 0
  end.

(** Truth value of a field value in a condition. *)
Definition value_true (f : field) : bool :=
  match f_value f with
  | IntV z => negb (z =? 0)
  | BoolV b => b
  | StrV s => negb (Nat.eqb (List.length s) 0)
  | NoV => false
  end.

Section GifFile.
(** [self._size]: the size of the root field set in bits, when the stream
    knows it. *)
Variable self_size : option Z.

(** One turn of the block loop of createFields. *)
Definition GifFile_block : M bool :=
  code <- yield (Enum (Character (Array "separator")
                         (Some "Separator code"%string)) separator_name) ;;
  if Byte.eqb code x21 then                       (* "!" *)
    yield (Extension (Array "extensions")) ;; ret true
  else if Byte.eqb code x2c then                  (* "," *)
    yield (Image (Array "image")) ;;
    (fun st =>
       match self_size with
       | Some size =>
           if addr st <? size
           then yield (seekBit size (Name "end")) st
           else Done tt st
       | None => Done tt st
       end) ;;
    ret false
  else if Byte.eqb code x3b then                  (* ";" *)
    ret false
  else
    error ("Wrong GIF image separator: ASCII " ++ format_02X (ord code)
           ++ ".")%string ;;
    ret false.

(** The attributes [self.color_map] and [self.images] that createFields
    sets are not read by the parser and are left out. *)
Definition GifFile_createFields : M unit :=
  yield (String_ (Name "header") 6 (Some "File header"%string)) ;;
  yield (ScreenDescriptor (Name "screen") (Some "Screen descriptor"%string)) ;;
  global_map <- getitem [Name "screen"; Name "global_map"] ;;
  (if value_true global_map then
     screen_bpp <- getitem [Name "screen"; Name "bpp"] ;;
     let bpp := value_int screen_bpp + 1 in
     yield (PaletteRGB (Name "color_map") (Z.shiftl 1 bpp)
              (Some "Color map"%string))
   else ret tt) ;;
  while_true GifFile_block.

(** The parser at the start of a stream. *)
Definition start (stream : list byte) : pstate :=
  {| byte_pos := 0; bit := 0; input := stream; out := []; log := [] |}.

Definition parse (stream : list byte) : res unit :=
  GifFile_createFields (start stream).

(** self[path] on the root: fields are fed from the generator until the
    one asked for is there; an exception of the generator surfaces when
    the field was not reached. *)
Definition root_getitem (stream : list byte) (path : list fname)
  : exn + field :=
  match parse stream with
  | Done _ st =>
      match getPath (out st) path with
      | Some f => inr f
      | None => inl (MissingField (last path (Name EmptyString)))
      end
  | Raise e st =>
      match getPath (out st) path with
      | Some f => inr f
      | None => inl e
      end
  end.

Inductive validate_result : Type :=
| Valid                                  (* True *)
| Invalid (msg : string).

Definition validate (stream : list byte) : exn + validate_result :=
  match readBytes (start stream) 6 with
  | inl e => inl e
  | inr sig =>
      if negb (bytes_eqb sig (bytes "GIF87a") || bytes_eqb sig (bytes "GIF89a"))
      then inr (Invalid "Wrong header")
      else
        match root_getitem stream [Name "screen"; Name "width"],
              root_getitem stream [Name "screen"; Name "height"] with
        | inl e, _ => inl e
        | inr _, inl e => inl e
        | inr width, inr height =>
            if (value_int width =? 0) || (value_int height =? 0)
            then inr (Invalid "Invalid image size")
            else if MAX_WIDTH <? value_int width
            then inr (Invalid ("Image width too big ("
                               ++ format_u (value_int width) ++ ")"))
            else if MAX_HEIGHT <? value_int height
            then inr (Invalid ("Image height too big ("
                               ++ format_u (value_int height) ++ ")"))
            else inr Valid
        end
  end.

(** Modelled from the spec: searchBytes of the stream is not part of the
    parser module.  It searches the needle between two absolute bit
    addresses (the window ends with the stream at the latest) and gives
    the bit address of the first match lying inside the window. *)
Fixpoint isPrefix (needle hay : list byte) : bool :=
  match needle, hay with
  | [], _ => true
  | a :: n', b :: h' => Byte.eqb a b && isPrefix n' h'
  | _ :: _, [] => false
  end.

Fixpoint search (needle hay : list byte) (pos : Z) (todo : nat)
    {struct todo} : option Z :=
  match todo with
  | O => None
  | S t =>
      if isPrefix needle hay then Some pos
      else match hay with
           | [] => None
           | _ :: tl => search needle tl (pos + 8) t
           end
  end.

Definition searchBytes (stream needle : list byte) (start_address
    end_address : Z) : exn + option Z :=
  if negb (start_address mod 8 =? 0) then inl UnalignedRead
  else
    let end' := Z.min end_address (8 * Z.of_nat (List.length stream)) in
    let todo := (end' - start_address) / 8
                - Z.of_nat (List.length needle) + 1 in
    inr (search needle (skipn (Z.to_nat (start_address / 8)) stream)
           start_address (Z.to_nat todo)).

Definition createContentSize (stream : list byte) : exn + option Z :=
  match root_getitem stream [Item "image" 0] with
  | inl e => inl e
  | inr field =>
      let start := f_address field + f_size field in
      let end_ := start + MAX_FILE_SIZE * 8 in
      match searchBytes stream [x00; x3b] start end_ with   (* "\0;" *)
      | inl e => inl e
      | inr (Some pos) =>
          if pos =? 0 then inr None else inr (Some (pos + 16))
      | inr None => inr None
      end
  end.
End GifFile.

(** ** Re-serialisation of a field set

    The inverse of the little-endian bit reads: every child writes its value
    at its bit offset inside the field set, and the bits are cut into bytes,
    least significant byte first. *)

Definition byte_of_Z (z : Z) : byte :=
  match Byte.of_N (Z.to_N (z mod 256)) with
  | Some b => b
  | None => x00
  end.

Fixpoint long2str (n : nat) (v : Z) : list byte :=
  match n with
  | O => []
  | S k => byte_of_Z (v mod 256) :: long2str k (v / 256)
  end.

Definition field_bits (f : field) : Z :=
  match f_value f with
  | IntV z => z
  | BoolV b => Z.b2z b
  | _ => 0
  end.

Definition writeFields (base : Z) (fs : list field) : Z :=
  fold_right
    (fun f acc => Z.shiftl (field_bits f) (f_address f - base) + acc)
    0 fs.

Definition serialize (f : field) : list byte :=
  long2str (Z.to_nat (f_size f / 8)) (writeFields (f_address f) (f_fields f)).

(** ** Expected field trees

    The bits [s .. s+n-1] of a byte, and the children of a screen descriptor
    read at bit address [a] from seven bytes. *)

Definition byte_bits (b : byte) (s n : Z) : Z :=
  Z.land (Z.shiftr (byte_val b) s) (Z.ones n).

Definition leaf (n : fname) (c : fclass) (a sz : Z) (v : fvalue)
    (d : option string) : field :=
  mkField n c a sz v d None [].

Definition ScreenDescriptor_fields (a : Z) (b0 b1 b2 b3 b4 b5 b6 : byte)
  : list field :=
  [ leaf (Name "width") cUInt16 a 16
      (IntV (byte_val b0 + 256 * byte_val b1)) (Some "Width"%string);
    leaf (Name "height") cUInt16 (a + 16) 16
      (IntV (byte_val b2 + 256 * byte_val b3)) (Some "Height"%string);
    leaf (Name "bpp") cBits (a + 32) 3
      (IntV (byte_bits b4 0 3)) (Some "Bits per pixel minus one"%string);
    leaf (Name "reserved") cBit (a + 35) 1
      (BoolV (byte_bits b4 3 1 =? 1)) (Some "(reserved)"%string);
    leaf (Name "color_res") cBits (a + 36) 3
      (IntV (byte_bits b4 4 3)) (Some "Color resolution minus one"%string);
    leaf (Name "global_map") cBit (a + 39) 1
      (BoolV (byte_bits b4 7 1 =? 1)) (Some "Has global map?"%string);
    leaf (Name "background") cUInt8 (a + 40) 8
      (IntV (byte_val b5)) (Some "Background color"%string);
    leaf (Name "notused") cUInt8 (a + 48) 8
      (IntV (byte_val b6)) (Some "Not used (zero)"%string) ].

(** The first fields of a graphic control block read at bit address [a]:
    the size byte and the flags up to the disposal method. *)
Definition GraphicControl_head (a : Z) (sz fl : byte) : list field :=
  [ leaf (Name "size") cUInt8 a 8 (IntV (byte_val sz))
      (Some "Block size (4)"%string);
    leaf (Name "has_transp") cBit (a + 8) 1 (BoolV (byte_bits fl 0 1 =? 1))
      (Some "Has transparency"%string);
    leaf (Name "user_input") cBit (a + 9) 1 (BoolV (byte_bits fl 1 1 =? 1))
      (Some "User input"%string);
    mkField (Name "disposal_method") cBits (a + 10) 3
      (IntV (byte_bits fl 2 3)) None (Some (EnumOf DISPOSAL_METHOD)) [] ].

Definition Extension_code_field (a : Z) (code : byte) : field :=
  mkField (Name "code") cUInt8 a 8 (IntV (byte_val code))
    (Some "Extension code"%string) (Some hexadecimal) [].

Definition separator_field (i : nat) (a : Z) (ch : byte) : field :=
  mkField (Item "separator" i) cCharacter a 8 (StrV [ch])
    (Some "Separator code"%string) (Some (EnumOf separator_name)) [].

Definition reserved_field (i : nat) (a : Z) : field :=
  mkField (Item "reserved" i) cNullBits a 3 NoV None None [].

Definition header_field (sig : list byte) : field :=
  leaf (Name "header") cString 0 48 (StrV sig) (Some "File header"%string).

Definition screen_field (b0 b1 b2 b3 b4 b5 b6 : byte) : field :=
  mkField (Name "screen") cScreenDescriptor 48 56 NoV
    (Some "Screen descriptor"%string) None
    (ScreenDescriptor_fields 48 b0 b1 b2 b3 b4 b5 b6).

(** The message logged for a wrong separator, and the value of a
    two-digit upper case hexadecimal string. *)
Definition wrong_separator (ch : byte) : string :=
  ("Wrong GIF image separator: ASCII " ++ format_02X (ord ch) ++ ".")%string.

Definition hex_value (c : ascii) : option Z :=
  let n := Z.of_nat (nat_of_ascii c) in
  if (48 <=? n) && (n <=? 57) then Some (n - 48)
  else if (65 <=? n) && (n <=? 70) then Some (n - 55)
  else None.

Definition read_02X (s : string) : option Z :=
  match s with
  | String hi (String lo EmptyString) =>
      match hex_value hi, hex_value lo with
      | Some h, Some l => Some (16 * h + l)
      | _, _ => None
      end
  | _ => None
  end.

(** The rest of a graphic control block whose size is 4, read at bit
    address [a]: delay, transparent colour index and terminator. *)
Definition delay_field (a : Z) (d0 d1 : byte) : field :=
  mkField (Name "delay") cUInt16 a 16 (IntV (byte_val d0 + 256 * byte_val d1))
    (Some "Delay time in millisecond"%string) (Some humanDuration) [].

Definition GraphicControl_tail (a : Z) (d0 d1 tr : byte) : list field :=
  [ delay_field a d0 d1;
    leaf (Name "transp") cUInt8 (a + 16) 8 (IntV (byte_val tr))
      (Some "Transparent color index"%string);
    leaf (Name "terminator") cNullBytes (a + 24) 8 NoV
      (Some "Terminator (0)"%string) ].

(** Whether [sub] occurs in [s]. *)
Fixpoint mentions (sub s : string) : bool :=
  String.prefix sub s
  || match s with
     | EmptyString => false
     | String _ r => mentions sub r
     end.

(** The fields of a NETSCAPE2.0 application extension with size 3 and
    sub-code 1, read at bit address [a]. *)
Definition NETSCAPE_loop_fields (a : Z) (lo hi : byte) : list field :=
  [ leaf (Name "app_name") cPascalString8 a 96 (StrV (bytes "NETSCAPE2.0"))
      (Some "Application name"%string);
    leaf (Name "size") cUInt8 (a + 96) 8 (IntV 3) None;
    mkField (Name "netscape_code") cUInt8 (a + 104) 8 (IntV 1) None
      (Some (EnumOf NETSCAPE_CODE)) [];
    leaf (Name "loop_count") cUInt16 (a + 112) 16
      (IntV (byte_val lo + 256 * byte_val hi)) None;
    leaf (Name "terminator") cNullBytes (a + 128) 8 NoV
      (Some "Terminator (0)"%string) ].

(** Length-prefixed strings as they lie in the stream, and the comment
    fields read from them: [i] is the index of the first one, [a] its bit
    address. *)
Fixpoint pascal_strings (strs : list (list byte)) : list byte :=
  match strs with
  | [] => []
  | s :: r => byte_of_Z (Z.of_nat (List.length s)) :: s ++ pascal_strings r
  end.

Definition comment_field (i : nat) (a : Z) (s : list byte) : field :=
  mkField (Item "comment" i) cPascalString8 a
    (8 * (1 + Z.of_nat (List.length s))) (StrV (strip comment_strip s))
    None None [].

Fixpoint comment_fields (i : nat) (a : Z) (strs : list (list byte))
  : list field :=
  match strs with
  | [] => []
  | s :: r =>
      comment_field i a s
      :: comment_fields (S i) (a + 8 * (1 + Z.of_nat (List.length s))) r
  end.

(** The state a generator stops in, and the property that a generator only
    adds fields satisfying [P] to the ones yielded before. *)
Definition final {A} (r : res A) : pstate :=
  match r with
  | Done _ st => st
  | Raise _ st => st
  end.

Definition yields {A} (P : field -> Prop) (m : M A) : Prop :=
  forall st, exists more,
    out (final (m st)) = out st ++ more /\ Forall P more.

(** A constructor that builds fields of one declared name. *)
Definition declares {A} (n : fname) (c : fieldc A) : Prop :=
  forall st f a, c st = Built f a -> f_name f = n.

Definition not_func (f : field) : Prop := f_name f <> Name "func".

(** A generator that never moves the cursor back, and a constructor whose
    fields have a size that is not negative. *)
Definition mono {A} (m : M A) : Prop :=
  forall st, addr st <= addr (final (m st)).

Definition nonneg {A} (c : fieldc A) : Prop :=
  forall st f a, c st = Built f a -> 0 <= f_size f.

(** ** Image fields of the container *)

Definition is_image (n : fname) : bool :=
  match n with
  | Item base _ => String.eqb base "image"
  | _ => false
  end.

(** Size of the local colour table of an image field, 0 when it has none. *)
Definition local_map_size (f : field) : Z :=
  match getField (f_fields f) (Name "local_map") with
  | Some m => f_size m
  | None => 0
  end.

(** An image field lies at a positive byte boundary; its size is the 72
    bits of the descriptor plus the local colour table, a whole number of
    bytes. *)
Definition image_ok (f : field) : Prop :=
  0 < f_address f /\ f_address f mod 8 = 0
  /\ f_size f = 72 + local_map_size f
  /\ 0 <= local_map_size f /\ local_map_size f mod 8 = 0.

Definition images_ok (f : field) : Prop :=
  is_image (f_name f) = true -> image_ok f.

(** A generator run from a cursor that is not negative: the cursor stays so
    and the fields added are well-formed images or no images. *)
Definition keeps {A} (m : M A) : Prop :=
  forall st, 0 <= addr st ->
    0 <= addr (final (m st))
    /\ exists more,
         out (final (m st)) = out st ++ more /\ Forall images_ok more.

(** ** Matches of a needle in the stream

    [k] is a byte offset.  A match lies in the window when it starts at or
    after [start_address] and ends at or before [end_address] and the end
    of the stream (bit addresses). *)
Definition matches_at (stream needle : list byte) (k : nat) : Prop :=
  firstn (List.length needle) (skipn k stream) = needle.

Definition in_window (stream needle : list byte) (start_address
    end_address : Z) (k : nat) : Prop :=
  start_address <= 8 * Z.of_nat k
  /\ 8 * (Z.of_nat k + Z.of_nat (List.length needle))
     <= Z.min end_address (8 * Z.of_nat (List.length stream)).

Definition first_match (stream needle : list byte) (start_address
    end_address : Z) (k : nat) : Prop :=
  in_window stream needle start_address end_address k
  /\ matches_at stream needle k
  /\ forall j, in_window stream needle start_address end_address j ->
               matches_at stream needle j -> (k <= j)%nat.


(** ** Fuel

    A generator, or a field constructor, that does not stop for lack of
    fuel. *)
Definition terminates {A} (m : M A) : Prop :=
  forall st st', m st <> Raise OutOfFuel st'.

Definition builds {A} (c : fieldc A) : Prop :=
  forall st, c st <> Failed OutOfFuel.

(** ** Expected trees of images and colour tables

    The colours read from a run of bytes, three bytes a colour, [i] being
    the index of the first one and [a] its bit address; and the eight
    fields of an image descriptor read at bit address [a]. *)
Definition RGB_field (i : nat) (a : Z) (r g b : byte) : field :=
  mkField (Item "color" i) cRGB a 24 NoV None None
    [ leaf (Name "red") cUInt8 a 8 (IntV (byte_val r)) (Some "Red"%string);
      leaf (Name "green") cUInt8 (a + 8) 8 (IntV (byte_val g))
        (Some "Green"%string);
      leaf (Name "blue") cUInt8 (a + 16) 8 (IntV (byte_val b))
        (Some "Blue"%string) ].

Fixpoint palette_colors (i : nat) (a : Z) (data : list byte) : list field :=
  match data with
  | r :: g :: b :: rest =>
      RGB_field i a r g b :: palette_colors (S i) (a + 24) rest
  | _ => []
  end.

Definition palette_field (n : fname) (a : Z) (d : option string)
    (data : list byte) : field :=
  mkField n cPaletteRGB a (8 * Z.of_nat (List.length data)) NoV d None
    (palette_colors 0 a data).

Definition Image_fields (a : Z) (b0 b1 b2 b3 b4 b5 b6 b7 b8 : byte)
  : list field :=
  [ leaf (Name "left") cUInt16 a 16
      (IntV (byte_val b0 + 256 * byte_val b1)) (Some "Left"%string);
    leaf (Name "top") cUInt16 (a + 16) 16
      (IntV (byte_val b2 + 256 * byte_val b3)) (Some "Top"%string);
    leaf (Name "width") cUInt16 (a + 32) 16
      (IntV (byte_val b4 + 256 * byte_val b5)) (Some "Width"%string);
    leaf (Name "height") cUInt16 (a + 48) 16
      (IntV (byte_val b6 + 256 * byte_val b7)) (Some "Height"%string);
    leaf (Name "bpp") cBits (a + 64) 3
      (IntV (byte_bits b8 0 3)) (Some "Bits / pixel minus one"%string);
    leaf (Name "nul") cNullBits (a + 67) 3 NoV None;
    leaf (Name "interlaced") cBit (a + 70) 1
      (BoolV (byte_bits b8 6 1 =? 1)) (Some "Interlaced?"%string);
    leaf (Name "has_local_map") cBit (a + 71) 1
      (BoolV (byte_bits b8 7 1 =? 1)) (Some "Use local color map?"%string) ].

(** The fields read from the sub-blocks of an unknown extension: a size
    byte and the content for each one, [i] and [j] being the indexes of the
    first size and the first content, [a] the bit address. *)
Definition size_field (i : nat) (a v : Z) : field :=
  mkField (Item "size" i) cUInt8 a 8 (IntV v)
    (Some "Size (in bytes)"%string) None [].

Definition content_field (j : nat) (a : Z) (s : list byte) : field :=
  mkField (Item "content" j) cRawBytes a (8 * Z.of_nat (List.length s))
    (StrV s) None None [].

Fixpoint sub_block_fields (i j : nat) (a : Z) (blocks : list (list byte))
  : list field :=
  match blocks with
  | [] => []
  | s :: r =>
      size_field i a (Z.of_nat (List.length s))
      :: content_field j (a + 8) s
      :: sub_block_fields (S i) (S j)
           (a + 8 * (1 + Z.of_nat (List.length s))) r
  end.

(** The fields of an application extension read at bit address [a] whose
    payload is opaque: name, size, raw payload and terminator. *)
Definition application_fields (a : Z) (name data : list byte) : list field :=
  let n := Z.of_nat (List.length name) in
  let m := Z.of_nat (List.length data) in
  [ leaf (Name "app_name") cPascalString8 a (8 * (1 + n)) (StrV name)
      (Some "Application name"%string);
    leaf (Name "size") cUInt8 (a + 8 * (1 + n)) 8 (IntV m) None;
    leaf (Name "raw") cRawBytes (a + 8 * (2 + n)) (8 * m) (StrV data) None;
    leaf (Name "terminator") cNullBytes (a + 8 * (2 + n + m)) 8 NoV
      (Some "Terminator (0)"%string) ].

(** The fields of a NETSCAPE2.0 application extension with size 3 and a
    sub-code other than 1, read at bit address [a]. *)
Definition NETSCAPE_raw_fields (a : Z) (code d0 d1 : byte) : list field :=
  [ leaf (Name "app_name") cPascalString8 a 96 (StrV (bytes "NETSCAPE2.0"))
      (Some "Application name"%string);
    leaf (Name "size") cUInt8 (a + 96) 8 (IntV 3) None;
    mkField (Name "netscape_code") cUInt8 (a + 104) 8 (IntV (byte_val code))
      None (Some (EnumOf NETSCAPE_CODE)) [];
    leaf (Name "raw") cRawBytes (a + 112) 16 (StrV [d0; d1]) None;
    leaf (Name "terminator") cNullBytes (a + 128) 8 NoV
      (Some "Terminator (0)"%string) ].

(** ** Descriptions of the screen descriptor and of an image

    [self[name].value] on a field set: the value of the child of that
    name. *)
Definition getValue (self : field) (n : fname) : exn + Z :=
  match getField (f_fields self) n with
  | Some f => inr (value_int f)
  | None => inl (MissingField n)
  end.

Definition Image_createDescription (self : field) : exn + string :=
  match getValue self (Name "width"), getValue self (Name "height"),
        getValue self (Name "left"), getValue self (Name "top") with
  | inr width, inr height, inr left_, inr top =>
      inr ("Image: " ++ format_u width ++ "x" ++ format_u height
           ++ " pixels at (" ++ format_u left_ ++ "," ++ format_u top ++ ")")%string
  | inl e, _, _, _ => inl e
  | _, inl e, _, _ => inl e
  | _, _, inl e, _ => inl e
  | _, _, _, inl e => inl e
  end.

Definition ScreenDescriptor_createDescription (self : field) : exn + string :=
  match getValue self (Name "bpp") with
  | inl e => inl e
  | inr bpp =>
      let colors := Z.shiftl 1 (bpp + 1) in
      match getValue self (Name "width"), getValue self (Name "height") with
      | inr width, inr height =>
          inr ("Screen descriptor: " ++ format_u width ++ "x"
               ++ format_u height ++ ", " ++ format_u colors ++ " colors")%string
      | inl e, _ => inl e
      | _, inl e => inl e
      end
  end.

(** ** Image fields in a field list *)

Definition no_image (f : field) : Prop := same_array "image" f = false.

(** An image field of the list is image[0]. *)
Definition only_image0 (f : field) : Prop :=
  same_array "image" f = true -> f_name f = Item "image" 0.

Definition count_images (fs : list field) : nat :=
  List.length (filter (same_array "image") fs).

(** A generator run on a field list without image: it adds at most one
    image field, and that one is image[0]. *)
Definition one_image {A} (m : M A) : Prop :=
  forall st, count_images (out st) = 0%nat ->
    exists more,
      out (final (m st)) = out st ++ more
      /\ (count_images more <= 1)%nat
      /\ Forall only_image0 more.

(** ** Layout of the fields in the stream *)

(** tags["min_size"]: signature + screen + separator + image. *)
Definition min_size : Z := (6 + 7 + 1 + 9) * 8.

(** Bits of the stream from the cursor to its end. *)
Definition left_bits (st : pstate) : Z :=
  8 * Z.of_nat (List.length (input st)) - bit st.

(** A cursor inside a stream of [total] bits. *)
Definition cursor_ok (total : Z) (st : pstate) : Prop :=
  0 <= byte_pos st /\ 0 <= bit st < 8 /\ 0 <= left_bits st
  /\ addr st + left_bits st = total.

Definition between (lo hi : Z) (f : field) : Prop :=
  lo <= f_address f /\ 0 <= f_size f /\ f_address f + f_size f <= hi.

(** A generator that keeps the cursor inside the stream and moves it
    forward; its fields lie between the cursor it started at and the end
    of the stream. *)
Definition bounded {A} (total : Z) (m : M A) : Prop :=
  forall st, cursor_ok total st ->
    cursor_ok total (final (m st))
    /\ addr st <= addr (final (m st))
    /\ exists more,
         out (final (m st)) = out st ++ more
         /\ Forall (between (addr st) total) more.

(** A constructor whose field starts at the cursor and ends in the
    stream. *)
Definition fits {A} (total : Z) (c : fieldc A) : Prop :=
  forall st f a, cursor_ok total st -> c st = Built f a ->
    f_address f = addr st /\ 0 <= f_size f <= left_bits st.

(** [self._size], when known, is not beyond the end of the stream. *)
Definition size_in_stream (self_size : option Z) (total : Z) : Prop :=
  match self_size with
  | Some size => size <= total
  | None => True
  end.

(** An image field starts at [lo] or later. *)
Definition image_from (lo : Z) (f : field) : Prop :=
  same_array "image" f = true -> lo <= f_address f.

(** A generator that, when it returns, has moved the cursor by [n] bits,
    and a constructor whose fields have [n] bits. *)
Definition advances {A} (n : Z) (m : M A) : Prop :=
  forall st a st', m st = Done a st' -> addr st' = addr st + n.

Definition sized {A} (n : Z) (c : fieldc A) : Prop :=
  forall st f a, c st = Built f a -> f_size f = n.
(** * Properties of the primitives *)

Lemma byte_val_range (b : byte) : 0 <= byte_val b < 256.
Proof.
  unfold byte_val. pose proof (Byte.to_N_bounded b). lia.
Qed.

Lemma byte_of_Z_val (b : byte) : byte_of_Z (byte_val b) = b.
Proof.
  unfold byte_of_Z, byte_val.
  rewrite Z.mod_small by (apply byte_val_range).
  rewrite N2Z.id, Byte.of_to_N. reflexivity.
Qed.

Lemma bind_eq {A B} (m : M A) (k : A -> M B) (st : pstate) :
  bind m k st = match m st with
                | Done a st' => k a st'
                | Raise e st' => Raise e st'
                end.
Proof. reflexivity. Qed.

Lemma yield_Built {A} (c : fieldc A) st f a :
  c st = Built f a -> yield c st = Done a (addField st f).
Proof. intros H. unfold yield. rewrite H. reflexivity. Qed.

Lemma readBits_in_byte p s x r o l n :
  0 <= s -> 0 < n -> s + n <= 8 ->
  readBits (mkState p s (x :: r) o l) n
  = Some (Z.land (Z.shiftr (byte_val x) s) (Z.ones n)).
Proof.
  intros Hs Hn Hsn. unfold readBits. cbn [bit input].
  replace ((s + n + 7) / 8) with 1
    by (apply Z.div_unique with (r := s + n - 1); lia).
  change (Z.to_nat 1) with 1%nat. cbn [firstn List.length Nat.ltb Nat.leb str2long].
  rewrite Z.mul_0_r, Z.add_0_r. reflexivity.
Qed.

Lemma readBits_u8 p x r o l :
  readBits (mkState p 0 (x :: r) o l) 8 = Some (byte_val x).
Proof.
  rewrite readBits_in_byte by lia.
  rewrite Z.shiftr_0_r, Z.land_ones by lia.
  rewrite Z.mod_small by (apply byte_val_range). reflexivity.
Qed.

Lemma readBits_u16 p x y r o l :
  readBits (mkState p 0 (x :: y :: r) o l) 16
  = Some (byte_val x + 256 * byte_val y).
Proof.
  unfold readBits. cbn [bit input].
  change (Z.to_nat ((0 + 16 + 7) / 8)) with 2%nat.
  cbn [firstn List.length Nat.ltb Nat.leb str2long].
  rewrite Z.mul_0_r, Z.add_0_r, Z.shiftr_0_r, Z.land_ones by lia.
  pose proof (byte_val_range x). pose proof (byte_val_range y).
  rewrite Z.mod_small by (change (2 ^ 16) with 65536; lia). reflexivity.
Qed.

Lemma readBits_nil p s o l n :
  0 <= s -> 0 < n -> readBits (mkState p s [] o l) n = None.
Proof.
  intros Hs Hn. unfold readBits. cbn [bit input].
  assert (H : 1 <= (s + n + 7) / 8)
    by (apply Z.div_le_lower_bound; lia).
  destruct (Z.to_nat ((s + n + 7) / 8)) eqn:E; [lia|]. reflexivity.
Qed.

Lemma addField_mid p s inp o l f n s' :
  f_size f = n -> (0 <=? s) && (0 <=? n) && (s + n <? 8) = true ->
  s' = s + n ->
  addField (mkState p s inp o l) f
  = mkState p s' inp (o ++ [setUniqueFieldName o f]) l.
Proof.
  intros Hf Hc ->. unfold addField. cbn [bit byte_pos input out log].
  rewrite Hf.
  assert (0 <= s /\ 0 <= n /\ s + n < 8) as (H1 & H2 & H3) by lia.
  rewrite Z.div_small, Z.mod_small by lia.
  rewrite Z.add_0_r. reflexivity.
Qed.

Lemma addField_end p s x r o l f n :
  f_size f = n -> s + n = 8 ->
  addField (mkState p s (x :: r) o l) f
  = mkState (p + 1) 0 r (o ++ [setUniqueFieldName o f]) l.
Proof.
  intros Hf Hc. unfold addField. cbn [bit byte_pos input out log].
  rewrite Hf, Hc. reflexivity.
Qed.

Lemma addField_bytes p inp o l f k :
  f_size f = 8 * k -> 0 <= k ->
  addField (mkState p 0 inp o l) f
  = mkState (p + k) 0 (skipn (Z.to_nat k) inp)
            (o ++ [setUniqueFieldName o f]) l.
Proof.
  intros Hf Hk. unfold addField. cbn [bit byte_pos input out log].
  rewrite Hf, Z.add_0_l, Z.mul_comm, Z.div_mul, Z.mod_mul by lia.
  reflexivity.
Qed.

(** Constructors of fields at a cursor whose first bytes are known. *)

Lemma bits_field_byte {A} c nm n d (mk : Z -> fvalue * A) p s x r o l :
  (0 <=? s) && (0 <? n) && (s + n <=? 8) = true ->
  bits_field c nm n d mk (mkState p s (x :: r) o l)
  = Built (mkField nm c (8 * p + s) n
             (fst (mk (Z.land (Z.shiftr (byte_val x) s) (Z.ones n))))
             d None [])
          (snd (mk (Z.land (Z.shiftr (byte_val x) s) (Z.ones n)))).
Proof.
  intros H. unfold bits_field. rewrite readBits_in_byte by lia. reflexivity.
Qed.

Lemma bits_field_u8 {A} c nm d (mk : Z -> fvalue * A) p x r o l :
  bits_field c nm 8 d mk (mkState p 0 (x :: r) o l)
  = Built (mkField nm c (8 * p + 0) 8 (fst (mk (byte_val x))) d None [])
          (snd (mk (byte_val x))).
Proof. unfold bits_field. rewrite readBits_u8. reflexivity. Qed.

Lemma bits_field_u16 {A} c nm d (mk : Z -> fvalue * A) p x y r o l :
  bits_field c nm 16 d mk (mkState p 0 (x :: y :: r) o l)
  = Built (mkField nm c (8 * p + 0) 16
             (fst (mk (byte_val x + 256 * byte_val y))) d None [])
          (snd (mk (byte_val x + 256 * byte_val y))).
Proof. unfold bits_field. rewrite readBits_u16. reflexivity. Qed.

Lemma bits_field_nil {A} c nm n d (mk : Z -> fvalue * A) p s o l :
  (0 <=? s) && (0 <? n) = true ->
  bits_field c nm n d mk (mkState p s [] o l) = Failed TruncatedInput.
Proof.
  intros H. unfold bits_field. rewrite readBits_nil by lia. reflexivity.
Qed.

Lemma bytes_field_app c nm d data r p o l :
  bytes_field c nm (Z.of_nat (List.length data)) d (mkState p 0 (data ++ r) o l)
  = Built (mkField nm c (8 * p + 0) (8 * Z.of_nat (List.length data))
             (StrV data) d None []) data.
Proof.
  unfold bytes_field, readBytes. cbn [bit input negb Z.eqb].
  destruct (Z.ltb_spec (Z.of_nat (List.length data)) 0) as [Hneg|_]; [lia|].
  rewrite Nat2Z.id, firstn_app, Nat.sub_diag, firstn_all.
  cbn [firstn]. rewrite app_nil_r, Nat.ltb_irrefl. reflexivity.
Qed.

Lemma byte_eqb_neq (x y : byte) : x <> y -> Byte.eqb x y = false.
Proof.
  intros H. destruct (Byte.eqb x y) eqn:E; [|reflexivity].
  apply Byte.byte_dec_bl in E. contradiction.
Qed.

Lemma byte_val_inj (x y : byte) : byte_val x = byte_val y -> x = y.
Proof.
  intros H. rewrite <- (byte_of_Z_val x), <- (byte_of_Z_val y), H.
  reflexivity.
Qed.

Lemma Character_run n d p ch r o l :
  Character n d (mkState p 0 (ch :: r) o l)
  = Built (mkField n cCharacter (8 * p + 0) 8 (StrV [ch]) d None []) ch.
Proof. reflexivity. Qed.

Lemma Character_nil n d p o l :
  Character n d (mkState p 0 [] o l) = Failed TruncatedInput.
Proof. reflexivity. Qed.

Lemma NullBytes_run n d p r o l :
  NullBytes n 1 d (mkState p 0 (x00 :: r) o l)
  = Built (mkField n cNullBytes (8 * p + 0) 8 NoV d None []) tt.
Proof. reflexivity. Qed.

Lemma yield_Failed {A} (c : fieldc A) st e :
  c st = Failed e -> yield c st = Raise e st.
Proof. intros H. unfold yield. rewrite H. reflexivity. Qed.

(** One step of a generator whose next field lies in known bytes. *)
Ltac field_norm :=
  unfold UInt8, UInt16, Bits, Bit, NullBits, int_field, Enum, with_handler.

Ltac yield_sub_byte :=
  lazymatch goal with
  | |- context [yield ?c (mkState ?p ?s (?x :: ?r) ?o ?l)] =>
      rewrite (yield_Built c (mkState p s (x :: r) o l) _ _
                 ltac:(field_norm;
                       first [ rewrite Character_run; reflexivity
                             | rewrite NullBytes_run; reflexivity
                             | rewrite bits_field_u8; reflexivity
                             | rewrite bits_field_u16; reflexivity
                             | rewrite bits_field_byte by reflexivity;
                               reflexivity ]))
  end.

Ltac add_field :=
  lazymatch goal with
  | |- context [addField (mkState ?p ?s ?inp ?o ?l) ?f] =>
      let n := eval cbv in (f_size f) in
      let s' := eval cbv in (s + n) in
      let k := eval cbv in (n / 8) in
      let kn := eval cbv in (Z.to_nat k) in
      first
        [ rewrite (addField_mid p s inp o l f n s') by reflexivity
        | rewrite (addField_end p s _ _ o l f n) by reflexivity
        | rewrite (addField_bytes p inp o l f k) by first [reflexivity | lia];
          change (Z.to_nat k) with kn; cbn [skipn] ]
  end.

Ltac yield_step :=
  yield_sub_byte; add_field;
  cbv beta iota;
  cbn [fst snd setUniqueFieldName f_name f_class f_address f_size f_value
       f_description f_text_handler f_fields].

Ltac step := rewrite bind_eq; yield_step.


Ltac tree_eq := repeat first [ reflexivity | lia | f_equal ].

(** ** ScreenDescriptor *)

Lemma ScreenDescriptor_createFields_run p b0 b1 b2 b3 b4 b5 b6 rest o l :
  ScreenDescriptor_createFields
    (mkState p 0 (b0 :: b1 :: b2 :: b3 :: b4 :: b5 :: b6 :: rest) o l)
  = Done tt (mkState (p + 7) 0 rest
               (o ++ ScreenDescriptor_fields (8 * p) b0 b1 b2 b3 b4 b5 b6) l).
Proof.
  unfold ScreenDescriptor_createFields.
  do 8 step. unfold ret, ScreenDescriptor_fields, leaf, byte_bits.
  rewrite <- !app_assoc. cbn [app].
  tree_eq.
Qed.

Lemma ScreenDescriptor_run n d p b0 b1 b2 b3 b4 b5 b6 rest o l :
  ScreenDescriptor n d
    (mkState p 0 (b0 :: b1 :: b2 :: b3 :: b4 :: b5 :: b6 :: rest) o l)
  = Built (mkField n cScreenDescriptor (8 * p) 56 NoV d None
             (ScreenDescriptor_fields (8 * p) b0 b1 b2 b3 b4 b5 b6)) tt.
Proof.
  unfold ScreenDescriptor, FieldSet, children_state.
  cbn [byte_pos bit input].
  rewrite ScreenDescriptor_createFields_run.
  unfold addr. cbn [byte_pos bit out app]. tree_eq.
Qed.

Lemma long2str_cons n v x :
  0 <= v < 256 ->
  long2str (S n) (v + 256 * x) = byte_of_Z v :: long2str n x.
Proof.
  intros Hv. cbn [long2str].
  rewrite (Z.mul_comm 256).
  rewrite Z_mod_plus_full, Z.div_add, Z.mod_small, Z.div_small by lia.
  reflexivity.
Qed.

Lemma pack_screen_byte (b : byte) :
  byte_bits b 0 3 + 8 * Z.b2z (byte_bits b 3 1 =? 1)
  + 16 * byte_bits b 4 3 + 128 * Z.b2z (byte_bits b 7 1 =? 1)
  = byte_val b.
Proof. destruct b; reflexivity. Qed.

Lemma serialize_ScreenDescriptor n d a b0 b1 b2 b3 b4 b5 b6 :
  serialize (mkField n cScreenDescriptor a 56 NoV d None
               (ScreenDescriptor_fields a b0 b1 b2 b3 b4 b5 b6))
  = [b0; b1; b2; b3; b4; b5; b6].
Proof.
  unfold serialize, writeFields, ScreenDescriptor_fields, leaf.
  cbn [f_size f_address f_fields fold_right field_bits f_value].
  change (Z.to_nat (56 / 8)) with 7%nat.
  replace (a - a) with 0 by lia.
  replace (a + 16 - a) with 16 by lia.
  replace (a + 32 - a) with 32 by lia.
  replace (a + 35 - a) with 35 by lia.
  replace (a + 36 - a) with 36 by lia.
  replace (a + 39 - a) with 39 by lia.
  replace (a + 40 - a) with 40 by lia.
  replace (a + 48 - a) with 48 by lia.
  rewrite !Z.shiftl_mul_pow2 by lia.
  pose proof (pack_screen_byte b4) as Hb.
  pose proof (byte_val_range b0). pose proof (byte_val_range b1).
  pose proof (byte_val_range b2). pose proof (byte_val_range b3).
  pose proof (byte_val_range b4). pose proof (byte_val_range b5).
  pose proof (byte_val_range b6).
  match goal with
  | |- long2str 7 ?v = _ =>
      replace v with
        (byte_val b0 + 256 * (byte_val b1 + 256 * (byte_val b2 + 256 *
          (byte_val b3 + 256 * (byte_val b4 + 256 * (byte_val b5 + 256 *
            (byte_val b6 + 256 * 0)))))))
        by (rewrite <- Hb; ring)
  end.
  rewrite !long2str_cons by assumption.
  rewrite !byte_of_Z_val. reflexivity.
Qed.

(** C5.  For every 7-byte input, the screen descriptor parses into the
    fields width (16 bits), height (16), bpp (3), reserved (1), color_res
    (3), global_map (1), background (8) and notused (8), and writing the
    decoded fields back gives the 7 bytes again. *)
Theorem ScreenDescriptor_roundtrip (bs : list byte) (n : fname)
    (d : option string) (p : Z) (o : list field) (l : list string) :
  List.length bs = 7%nat ->
  exists f,
    ScreenDescriptor n d (mkState p 0 bs o l) = Built f tt
    /\ map f_name (f_fields f)
       = [Name "width"; Name "height"; Name "bpp"; Name "reserved";
          Name "color_res"; Name "global_map"; Name "background";
          Name "notused"]
    /\ map f_class (f_fields f)
       = [cUInt16; cUInt16; cBits; cBit; cBits; cBit; cUInt8; cUInt8]
    /\ map f_size (f_fields f) = [16; 16; 3; 1; 3; 1; 8; 8]
    /\ f_size f = 56
    /\ serialize f = bs.
Proof.
  intros Hlen.
  destruct bs as [|b0 [|b1 [|b2 [|b3 [|b4 [|b5 [|b6 [|]]]]]]]];
    try discriminate Hlen.
  eexists. split; [apply ScreenDescriptor_run|].
  repeat split; try reflexivity.
  apply serialize_ScreenDescriptor.
Qed.

Lemma ScreenDescriptor_roundtrip_witness :
  exists f,
    ScreenDescriptor (Name "screen") None
      (mkState 6 0 [x40; x01; xf0; x00; xf7; x05; x00] [] []) = Built f tt
    /\ serialize f = [x40; x01; xf0; x00; xf7; x05; x00].
Proof.
  destruct (ScreenDescriptor_roundtrip [x40; x01; xf0; x00; xf7; x05; x00]
              (Name "screen") None 6 [] [] eq_refl)
    as (f & H1 & _ & _ & _ & _ & H2).
  exists f. split; assumption.
Defined.

(** ** Extension dispatch *)

Lemma Extension_code_run p c r o l :
  Extension_code (mkState p 0 (c :: r) o l)
  = Built (Extension_code_field (8 * p) c) (byte_val c).
Proof.
  unfold Extension_code. field_norm. rewrite bits_field_u8.
  unfold Extension_code_field. cbn [fst snd f_name f_class f_address f_size
    f_value f_description f_fields]. tree_eq.
Qed.

Lemma Extension_createFields_run parser p c r o l :
  Extension_createFields parser (mkState p 0 (c :: r) o l)
  = parser (mkState (p + 1) 0 r (o ++ [Extension_code_field (8 * p) c]) l).
Proof.
  unfold Extension_createFields. rewrite bind_eq.
  rewrite (yield_Built _ _ _ _ (Extension_code_run p c r o l)).
  add_field. reflexivity.
Qed.

Lemma Extension_run n p c r o l :
  Extension n (mkState p 0 (c :: r) o l)
  = FieldSet cExtension (fst (fst (Extension_init n (byte_val c))))
      (snd (Extension_init n (byte_val c)))
      (Extension_createFields (snd (fst (Extension_init n (byte_val c)))))
      (mkState p 0 (c :: r) o l).
Proof.
  unfold Extension, children_state. cbn [byte_pos bit input].
  rewrite Extension_code_run.
  destruct (Extension_init n (byte_val c)) as [[nm parser] d]. reflexivity.
Qed.

(** ** Graphic control extension *)

Lemma parseGraphicControl_bad_size p sz fl rest o l :
  byte_val sz <> 4 ->
  parseGraphicControl (mkState p 0 (sz :: fl :: rest) o l)
  = Raise (ParserError "Invalid graphic control size")
      (mkState (p + 2) 0 rest
         (o ++ GraphicControl_head (8 * p) sz fl
            ++ [reserved_field
                  (List.length (filter (same_array "reserved")
                                  (o ++ GraphicControl_head (8 * p) sz fl)))
                  (8 * p + 13)]) l).
Proof.
  intros Hsz. unfold parseGraphicControl.
  do 5 step.
  rewrite bind_eq.
  rewrite (proj2 (Z.eqb_neq _ _) Hsz). cbn [negb]. unfold raise.
  unfold GraphicControl_head, reserved_field, leaf, byte_bits.
  rewrite <- !app_assoc. cbn [app].
  tree_eq.
Qed.

Lemma parseGraphicControl_no_flags p sz o l :
  parseGraphicControl (mkState p 0 [sz] o l)
  = Raise TruncatedInput
      (mkState (p + 1) 0 []
         (o ++ [leaf (Name "size") cUInt8 (8 * p) 8 (IntV (byte_val sz))
                  (Some "Block size (4)"%string)]) l).
Proof.
  unfold parseGraphicControl. step.
  rewrite bind_eq. rewrite yield_Failed with (e := TruncatedInput)
    by (field_norm; apply bits_field_nil; reflexivity).
  unfold leaf. tree_eq.
Qed.

Lemma Extension_createFields_graphic_bad_size p sz fl rest :
  byte_val sz <> 4 ->
  Extension_createFields parseGraphicControl
    (mkState p 0 (xf9 :: sz :: fl :: rest) [] [])
  = Raise (ParserError "Invalid graphic control size")
      (mkState (p + 3) 0 rest
         (Extension_code_field (8 * p) xf9
          :: GraphicControl_head (8 * p + 8) sz fl
          ++ [reserved_field 0 (8 * p + 21)]) []).
Proof.
  intros Hsz.
  rewrite Extension_createFields_run, parseGraphicControl_bad_size by exact Hsz.
  cbn [app].
  unfold GraphicControl_head, reserved_field, leaf.
  cbn [app filter same_array f_name List.length].
  tree_eq.
Qed.

(** C9.  In a graphic control extension whose size byte is not 4 the size
    is checked after the flags: when the parser error is raised, the fields
    code, size, has_transp, user_input, disposal_method and reserved[0] are
    in the field set and the cursor is past the flag byte.  When the stream
    ends after the size byte, the read of the flags fails and no size
    error is raised. *)
Theorem graphic_control_size_checked_after_flags (p : Z) (sz fl : byte)
    (rest : list byte) :
  byte_val sz <> 4 ->
  Extension_createFields parseGraphicControl
    (mkState p 0 (xf9 :: sz :: fl :: rest) [] [])
  = Raise (ParserError "Invalid graphic control size")
      (mkState (p + 3) 0 rest
         (Extension_code_field (8 * p) xf9
          :: GraphicControl_head (8 * p + 8) sz fl
          ++ [reserved_field 0 (8 * p + 21)]) [])
  /\ Extension_createFields parseGraphicControl
       (mkState p 0 [xf9; sz] [] [])
     = Raise TruncatedInput
         (mkState (p + 2) 0 []
            [Extension_code_field (8 * p) xf9;
             leaf (Name "size") cUInt8 (8 * p + 8) 8 (IntV (byte_val sz))
               (Some "Block size (4)"%string)] []).
Proof.
  intros Hsz. split.
  - apply Extension_createFields_graphic_bad_size. exact Hsz.
  - rewrite Extension_createFields_run, parseGraphicControl_no_flags.
    cbn [app]. unfold leaf. tree_eq.
Qed.

Lemma graphic_control_size_checked_after_flags_witness :
  Extension_createFields parseGraphicControl
    (mkState 14 0 [xf9; x05; x09; x0a; x00; x00; x00] [] [])
  = Raise (ParserError "Invalid graphic control size")
      (mkState 17 0 [x0a; x00; x00; x00]
         (Extension_code_field 112 xf9
          :: GraphicControl_head 120 x05 x09
          ++ [reserved_field 0 133]) []).
Proof.
  apply (graphic_control_size_checked_after_flags 14 x05 x09
           [x0a; x00; x00; x00]).
  vm_compute. discriminate.
Defined.

(** ** The container: header, screen descriptor and block loop *)

Lemma while_true_cons body p s x r o l :
  while_true body (mkState p s (x :: r) o l)
  = match body (mkState p s (x :: r) o l) with
    | Done true st' => loop (S (List.length r)) body st'
    | Done false st' => Done tt st'
    | Raise e st' => Raise e st'
    end.
Proof. reflexivity. Qed.

Lemma String_run n d p o l s0 s1 s2 s3 s4 s5 rest :
  String_ n 6 d (mkState p 0 (s0 :: s1 :: s2 :: s3 :: s4 :: s5 :: rest) o l)
  = Built (leaf n cString (8 * p) 48 (StrV [s0; s1; s2; s3; s4; s5]) d)
          [s0; s1; s2; s3; s4; s5].
Proof.
  unfold String_.
  change (s0 :: s1 :: s2 :: s3 :: s4 :: s5 :: rest)
    with ([s0; s1; s2; s3; s4; s5] ++ rest).
  change 6 with (Z.of_nat (List.length [s0; s1; s2; s3; s4; s5])).
  rewrite bytes_field_app. unfold leaf. tree_eq.
Qed.

Lemma createFields_head self_size s0 s1 s2 s3 s4 s5 b0 b1 b2 b3 b4 b5 b6 rest :
  (byte_bits b4 7 1 =? 1) = false ->
  parse self_size
    (s0 :: s1 :: s2 :: s3 :: s4 :: s5 ::
     b0 :: b1 :: b2 :: b3 :: b4 :: b5 :: b6 :: rest)
  = while_true (GifFile_block self_size)
      (mkState 13 0 rest
         [header_field [s0; s1; s2; s3; s4; s5];
          screen_field b0 b1 b2 b3 b4 b5 b6] []).
Proof.
  intros Hmap. unfold parse, start, GifFile_createFields.
  rewrite bind_eq.
  rewrite (yield_Built _ _ _ _ (String_run _ _ 0 [] [] s0 s1 s2 s3 s4 s5 _)).
  add_field. cbn [app setUniqueFieldName f_name leaf].
  rewrite bind_eq.
  rewrite (yield_Built _ _ _ _ (ScreenDescriptor_run _ _ _ b0 b1 b2 b3 b4 b5 b6 rest _ _)).
  add_field. cbn [app setUniqueFieldName f_name].
  rewrite bind_eq. unfold getitem at 1. cbn [out].
  change (getPath _ [Name "screen"; Name "global_map"])
    with (Some (leaf (Name "global_map") cBit (8 * (0 + 6) + 39) 1
                  (BoolV (byte_bits b4 7 1 =? 1))
                  (Some "Has global map?"%string))).
  cbv beta iota. rewrite bind_eq.
  unfold value_true, leaf. cbn [f_value]. rewrite Hmap. unfold ret.
  reflexivity.
Qed.

Lemma Extension_graphic_bad_size n p sz fl rest o l :
  byte_val sz <> 4 ->
  Extension n (mkState p 0 (xf9 :: sz :: fl :: rest) o l)
  = Failed (ParserError "Invalid graphic control size").
Proof.
  intros Hsz. rewrite Extension_run.
  change (Extension_init n (byte_val xf9))
    with (Name "graphic_ctl", parseGraphicControl,
          Some "Graphic control"%string).
  cbn [fst snd]. unfold FieldSet, children_state. cbn [byte_pos bit input].
  rewrite (Extension_createFields_graphic_bad_size p sz fl rest Hsz).
  reflexivity.
Qed.

Lemma GifFile_block_separator self_size p ch rest o l :
  exists k,
    GifFile_block self_size (mkState p 0 (ch :: rest) o l)
    = k ch (mkState (p + 1) 0 rest
              (o ++ [separator_field
                       (List.length (filter (same_array "separator") o))
                       (8 * p) ch]) l)
    /\ k = fun code =>
        (if Byte.eqb code x21 then
           yield (Extension (Array "extensions")) ;; ret true
         else if Byte.eqb code x2c then
           yield (Image (Array "image")) ;;
           (fun st =>
              match self_size with
              | Some size =>
                  if addr st <? size
                  then yield (seekBit size (Name "end")) st
                  else Done tt st
              | None => Done tt st
              end) ;;
           ret false
         else if Byte.eqb code x3b then ret false
         else error (wrong_separator code) ;; ret false)%gen.
Proof.
  eexists. split; [|reflexivity].
  unfold GifFile_block. step.
  unfold separator_field, wrong_separator. cbv beta.
  replace (8 * p + 0) with (8 * p) by lia. reflexivity.
Qed.

Lemma block_loop_graphic_bad_size self_size p sz fl rest o l :
  byte_val sz <> 4 ->
  while_true (GifFile_block self_size)
    (mkState p 0 (x21 :: xf9 :: sz :: fl :: rest) o l)
  = Raise (ParserError "Invalid graphic control size")
      (mkState (p + 1) 0 (xf9 :: sz :: fl :: rest)
         (o ++ [separator_field
                  (List.length (filter (same_array "separator") o))
                  (8 * p) x21]) l).
Proof.
  intros Hsz. rewrite while_true_cons.
  destruct (GifFile_block_separator self_size p x21
              (xf9 :: sz :: fl :: rest) o l) as (k & -> & ->).
  change (Byte.eqb x21 x21) with true. cbv beta iota.
  rewrite !bind_eq.
  rewrite yield_Failed with (e := ParserError "Invalid graphic control size")
    by (apply Extension_graphic_bad_size; exact Hsz).
  reflexivity.
Qed.

(** A file whose first block is such an extension: the parse stops with the
    error after header, screen descriptor and separator. *)
Lemma parse_graphic_bad_size self_size s0 s1 s2 s3 s4 s5 b0 b1 b2 b3 b4 b5 b6
    sz fl rest :
  (byte_bits b4 7 1 =? 1) = false ->
  byte_val sz <> 4 ->
  parse self_size
    (s0 :: s1 :: s2 :: s3 :: s4 :: s5 ::
     b0 :: b1 :: b2 :: b3 :: b4 :: b5 :: b6 ::
     x21 :: xf9 :: sz :: fl :: rest)
  = Raise (ParserError "Invalid graphic control size")
      (mkState 14 0 (xf9 :: sz :: fl :: rest)
         [header_field [s0; s1; s2; s3; s4; s5];
          screen_field b0 b1 b2 b3 b4 b5 b6;
          separator_field 0 104 x21] []).
Proof.
  intros Hmap Hsz.
  rewrite createFields_head by exact Hmap.
  rewrite block_loop_graphic_bad_size by exact Hsz. reflexivity.
Qed.

(** C2.  A graphic control extension whose size byte is not 4 raises the
    parser error "Invalid graphic control size": the extension field set is
    not built, and the block loop of the container stops with that error
    right after the separator, whatever follows in the stream; no field is
    added for the bytes after the extension. *)
Theorem graphic_control_bad_size_is_fatal (self_size : option Z) (n : fname)
    (p : Z) (sz fl : byte) (rest : list byte) (o : list field)
    (l : list string) :
  byte_val sz <> 4 ->
  Extension n (mkState p 0 (xf9 :: sz :: fl :: rest) o l)
  = Failed (ParserError "Invalid graphic control size")
  /\ while_true (GifFile_block self_size)
       (mkState p 0 (x21 :: xf9 :: sz :: fl :: rest) o l)
     = Raise (ParserError "Invalid graphic control size")
         (mkState (p + 1) 0 (xf9 :: sz :: fl :: rest)
            (o ++ [separator_field
                     (List.length (filter (same_array "separator") o))
                     (8 * p) x21]) l).
Proof.
  intros Hsz. split.
  - apply Extension_graphic_bad_size. exact Hsz.
  - apply block_loop_graphic_bad_size. exact Hsz.
Qed.

Lemma graphic_control_bad_size_is_fatal_witness :
  while_true (GifFile_block None)
    (mkState 13 0 [x21; xf9; x05; x00; x0a; x00; x00; x00; x3b] [] [])
  = Raise (ParserError "Invalid graphic control size")
      (mkState 14 0 [xf9; x05; x00; x0a; x00; x00; x00; x3b]
         [separator_field 0 104 x21] []).
Proof.
  apply (graphic_control_bad_size_is_fatal None (Array "extensions") 13
           x05 x00 [x0a; x00; x00; x00; x3b] [] []).
  vm_compute. discriminate.
Defined.

(** ** Wrong separator *)

Lemma read_format_02X (ch : byte) :
  read_02X (format_02X (ord ch)) = Some (ord ch).
Proof. destruct ch; reflexivity. Qed.

Lemma block_loop_wrong_separator self_size p ch rest o l :
  ch <> x21 -> ch <> x2c -> ch <> x3b ->
  while_true (GifFile_block self_size) (mkState p 0 (ch :: rest) o l)
  = Done tt
      (mkState (p + 1) 0 rest
         (o ++ [separator_field
                  (List.length (filter (same_array "separator") o))
                  (8 * p) ch])
         (l ++ [wrong_separator ch])).
Proof.
  intros H1 H2 H3. rewrite while_true_cons.
  destruct (GifFile_block_separator self_size p ch rest o l) as (k & -> & ->).
  rewrite !byte_eqb_neq by assumption. reflexivity.
Qed.

(** A file whose first separator is wrong: the field tree is header, screen
    descriptor and separator, with the error reported. *)
Lemma parse_wrong_separator self_size s0 s1 s2 s3 s4 s5 b0 b1 b2 b3 b4 b5 b6
    ch rest :
  (byte_bits b4 7 1 =? 1) = false ->
  ch <> x21 -> ch <> x2c -> ch <> x3b ->
  parse self_size
    (s0 :: s1 :: s2 :: s3 :: s4 :: s5 ::
     b0 :: b1 :: b2 :: b3 :: b4 :: b5 :: b6 :: ch :: rest)
  = Done tt
      (mkState 14 0 rest
         [header_field [s0; s1; s2; s3; s4; s5];
          screen_field b0 b1 b2 b3 b4 b5 b6;
          separator_field 0 104 ch] [wrong_separator ch]).
Proof.
  intros Hmap H1 H2 H3.
  rewrite createFields_head by exact Hmap.
  rewrite block_loop_wrong_separator by assumption. reflexivity.
Qed.

(** C4.  When the byte at the separator position of the block loop is none
    of "!" (0x21), "," (0x2C) and ";" (0x3B), the separator field is added,
    the error "Wrong GIF image separator: ASCII XX." is reported with the
    byte in hexadecimal (from which the byte is read back), and the loop
    ends there: the cursor stays right after that byte and nothing else is
    parsed, whatever follows. *)
Theorem wrong_separator_ends_parse (self_size : option Z) (p : Z)
    (ch : byte) (rest : list byte) (o : list field) (l : list string) :
  ch <> x21 -> ch <> x2c -> ch <> x3b ->
  while_true (GifFile_block self_size) (mkState p 0 (ch :: rest) o l)
  = Done tt
      (mkState (p + 1) 0 rest
         (o ++ [separator_field
                  (List.length (filter (same_array "separator") o))
                  (8 * p) ch])
         (l ++ [wrong_separator ch]))
  /\ wrong_separator ch
     = ("Wrong GIF image separator: ASCII " ++ format_02X (ord ch) ++ ".")%string
  /\ read_02X (format_02X (ord ch)) = Some (byte_val ch).
Proof.
  intros H1 H2 H3. split; [|split].
  - apply block_loop_wrong_separator; assumption.
  - reflexivity.
  - apply read_format_02X.
Qed.

Lemma wrong_separator_ends_parse_witness :
  while_true (GifFile_block None) (mkState 13 0 [x41; x21; xf9; x04] [] [])
  = Done tt
      (mkState 14 0 [x21; xf9; x04] [separator_field 0 104 x41]
         ["Wrong GIF image separator: ASCII 41."%string]).
Proof.
  apply (wrong_separator_ends_parse None 13 x41 [x21; xf9; x04] [] []);
    discriminate.
Defined.

(** ** Delay of the graphic control extension *)

Lemma parseGraphicControl_run p fl d0 d1 tr rest o l :
  parseGraphicControl
    (mkState p 0 (x04 :: fl :: d0 :: d1 :: tr :: x00 :: rest) o l)
  = Done tt
      (mkState (p + 6) 0 rest
         (o ++ GraphicControl_head (8 * p) x04 fl
            ++ [reserved_field
                  (List.length (filter (same_array "reserved")
                                  (o ++ GraphicControl_head (8 * p) x04 fl)))
                  (8 * p + 13)]
            ++ GraphicControl_tail (8 * p + 16) d0 d1 tr) l).
Proof.
  unfold parseGraphicControl.
  do 5 step. rewrite bind_eq.
  change (negb (byte_val x04 =? 4)) with false. unfold ret at 1. cbv iota beta.
  do 2 step.
  rewrite (yield_Built _ _ _ _ (NullBytes_run _ _ _ _ _ _)). add_field.
  unfold GraphicControl_head, GraphicControl_tail, delay_field, reserved_field,
    leaf, byte_bits.
  cbn [setUniqueFieldName f_name].
  rewrite <- !app_assoc. cbn [app].
  tree_eq.
Qed.

(** C7 (amended).  The delay of a graphic control extension is a 16-bit
    little-endian integer, taken as it is from the two bytes after the
    flags; the parser describes the field as "Delay time in millisecond" and
    displays it with the humanDuration handler. *)
Theorem graphic_control_delay_field (p : Z) (fl d0 d1 tr : byte)
    (rest : list byte) (o : list field) (l : list string) :
  parseGraphicControl
    (mkState p 0 (x04 :: fl :: d0 :: d1 :: tr :: x00 :: rest) o l)
  = Done tt
      (mkState (p + 6) 0 rest
         (o ++ GraphicControl_head (8 * p) x04 fl
            ++ [reserved_field
                  (List.length (filter (same_array "reserved")
                                  (o ++ GraphicControl_head (8 * p) x04 fl)))
                  (8 * p + 13)]
            ++ GraphicControl_tail (8 * p + 16) d0 d1 tr) l)
  /\ nth_error (GraphicControl_tail (8 * p + 16) d0 d1 tr) 0
     = Some (delay_field (8 * p + 16) d0 d1)
  /\ f_class (delay_field (8 * p + 16) d0 d1) = cUInt16
  /\ f_value (delay_field (8 * p + 16) d0 d1)
     = IntV (byte_val d0 + 256 * byte_val d1)
  /\ 0 <= byte_val d0 + 256 * byte_val d1 < 65536
  /\ f_description (delay_field (8 * p + 16) d0 d1)
     = Some "Delay time in millisecond"%string
  /\ f_text_handler (delay_field (8 * p + 16) d0 d1) = Some humanDuration
  /\ ext_code 0xf9
     = Some (Name "graphic_ctl", parseGraphicControl,
             "Graphic control"%string).
Proof.
  split; [apply parseGraphicControl_run|].
  repeat split; try reflexivity.
  - pose proof (byte_val_range d0). pose proof (byte_val_range d1). lia.
  - pose proof (byte_val_range d0). pose proof (byte_val_range d1). lia.
Qed.

(** C7 as stated fails: for the block F9 04 00 64 00 00 00 the delay field
    has the value 100 and is described in milliseconds; its description
    mentions no 1/100 second. *)
Lemma delay_described_in_millisecond :
  exists st f,
    Extension_createFields parseGraphicControl
      (mkState 14 0 [xf9; x04; x00; x64; x00; x00; x00] [] []) = Done tt st
    /\ getField (out st) (Name "delay") = Some f
    /\ f_value f = IntV 100
    /\ f_text_handler f = Some humanDuration
    /\ f_description f = Some "Delay time in millisecond"%string
    /\ mentions "millisecond" "Delay time in millisecond" = true
    /\ mentions "1/100" "Delay time in millisecond" = false
    /\ mentions "hundredth" "Delay time in millisecond" = false.
Proof.
  eexists. eexists. split; [vm_compute; reflexivity|].
  split; [vm_compute; reflexivity|].
  repeat split; reflexivity.
Qed.

(** ** Application extension *)

Lemma PascalString8_netscape n d p r o l :
  PascalString8 n d None
    (mkState p 0 (x0b :: bytes "NETSCAPE2.0" ++ r) o l)
  = Built (mkField n cPascalString8 (8 * p + 0) 96
             (StrV (bytes "NETSCAPE2.0")) d None [])
          (11, bytes "NETSCAPE2.0").
Proof. reflexivity. Qed.

Lemma parseApplicationExtension_loop_count p lo hi rest o l :
  parseApplicationExtension
    (mkState p 0
       (x0b :: bytes "NETSCAPE2.0" ++ x03 :: x01 :: lo :: hi :: x00 :: rest)
       o l)
  = Done tt
      (mkState (p + 17) 0 rest (o ++ NETSCAPE_loop_fields (8 * p) lo hi) l).
Proof.
  unfold parseApplicationExtension.
  rewrite bind_eq.
  rewrite (yield_Built _ _ _ _ (PascalString8_netscape _ _ _ _ _ _)).
  rewrite (addField_bytes _ _ _ _ _ 12) by first [reflexivity | lia].
  change (skipn (Z.to_nat 12) (x0b :: bytes "NETSCAPE2.0" ++
            x03 :: x01 :: lo :: hi :: x00 :: rest))
    with (x03 :: x01 :: lo :: hi :: x00 :: rest).
  step.
  change (bytes_eqb (bytes "NETSCAPE2.0") (bytes "NETSCAPE2.0")
          && (byte_val x03 =? 3)) with true.
  cbv iota. rewrite !bind_eq. yield_step.
  change (byte_val x01 =? 1) with true. cbv iota.
  rewrite !bind_eq. yield_step. unfold ret at 1. cbv iota beta.
  yield_step.
  unfold NETSCAPE_loop_fields, leaf.
  cbn [setUniqueFieldName f_name fst snd].
  rewrite <- !app_assoc. cbn [app].
  change (byte_val x03) with 3. change (byte_val x01) with 1.
  tree_eq.
Qed.

(** C6 (amended).  In an application extension named "NETSCAPE2.0" with
    size 3 and sub-code 1 the parser reads the next two bytes as the 16-bit
    little-endian loop_count, followed by the terminator: the bytes 2C 01
    give 300, the bytes E8 03 give 1000 and the bytes 01 2C give 11265. *)
Theorem netscape_loop_count (p : Z) (lo hi : byte) (rest : list byte)
    (o : list field) (l : list string) :
  parseApplicationExtension
    (mkState p 0
       (x0b :: bytes "NETSCAPE2.0" ++ x03 :: x01 :: lo :: hi :: x00 :: rest)
       o l)
  = Done tt
      (mkState (p + 17) 0 rest (o ++ NETSCAPE_loop_fields (8 * p) lo hi) l)
  /\ nth_error (NETSCAPE_loop_fields (8 * p) lo hi) 3
     = Some (leaf (Name "loop_count") cUInt16 (8 * p + 112) 16
               (IntV (byte_val lo + 256 * byte_val hi)) None)
  /\ byte_val x2c + 256 * byte_val x01 = 300
  /\ byte_val xe8 + 256 * byte_val x03 = 1000
  /\ byte_val x01 + 256 * byte_val x2c = 11265
  /\ ext_code 0xff
     = Some (Array "app_ext", parseApplicationExtension,
             "Application extension"%string).
Proof.
  split; [apply parseApplicationExtension_loop_count|].
  repeat split; reflexivity.
Qed.

(** C6 as stated fails: with the payload bytes 01 2C the loop count read
    is 11265, not 300. *)
Lemma netscape_loop_count_01_2C :
  exists st f,
    parseApplicationExtension
      (mkState 15 0
         (x0b :: bytes "NETSCAPE2.0" ++ [x03; x01; x01; x2c; x00]) [] [])
    = Done tt st
    /\ getField (out st) (Name "loop_count") = Some f
    /\ f_value f = IntV 11265
    /\ f_value f <> IntV 300.
Proof.
  eexists. eexists. split; [vm_compute; reflexivity|].
  split; [vm_compute; reflexivity|].
  split; [reflexivity|discriminate].
Qed.

(** ** Loops *)

Lemma loop_more_fuel body n :
  forall m st,
    (n <= m)%nat ->
    (forall st', loop n body st <> Raise OutOfFuel st') ->
    loop m body st = loop n body st.
Proof.
  induction n as [|n IH]; intros m st Hle Hok.
  - exfalso. apply (Hok st). reflexivity.
  - destruct m as [|m]; [lia|].
    cbn [loop] in *.
    destruct (body st) as [[|] st1|e st1]; try reflexivity.
    apply IH; [lia|exact Hok].
Qed.

Lemma while_true_continue body st st1 r :
  body st = Done true st1 ->
  (List.length (input st1) < List.length (input st))%nat ->
  while_true body st1 = r ->
  (forall st', r <> Raise OutOfFuel st') ->
  while_true body st = r.
Proof.
  intros Hb Hlt Hr Hok. unfold while_true in *. cbn [loop]. rewrite Hb.
  rewrite <- Hr. apply loop_more_fuel; [lia|].
  rewrite Hr. exact Hok.
Qed.

Lemma while_true_break body st st1 :
  body st = Done false st1 -> while_true body st = Done tt st1.
Proof. intros Hb. unfold while_true. cbn [loop]. rewrite Hb. reflexivity. Qed.

Lemma while_true_raise body st e st1 :
  body st = Raise e st1 -> while_true body st = Raise e st1.
Proof. intros Hb. unfold while_true. cbn [loop]. rewrite Hb. reflexivity. Qed.

(** ** Comments *)

Lemma byte_val_of_Z z : 0 <= z < 256 -> byte_val (byte_of_Z z) = z.
Proof.
  intros Hz. unfold byte_of_Z, byte_val. rewrite Z.mod_small by lia.
  destruct (Byte.of_N (Z.to_N z)) as [b|] eqn:E.
  - apply Byte.to_of_N in E. rewrite E. lia.
  - apply Byte.of_N_None_iff in E. lia.
Qed.

Lemma skipn_S_app {A} (x : A) (s r : list A) :
  skipn (Z.to_nat (1 + Z.of_nat (List.length s))) (x :: s ++ r) = r.
Proof.
  replace (Z.to_nat (1 + Z.of_nat (List.length s)))
    with (S (List.length s)) by lia.
  cbn [skipn]. rewrite skipn_app, skipn_all, Nat.sub_diag. reflexivity.
Qed.

Lemma yield_PascalString8 n d sc p s r o l :
  (List.length s <= 255)%nat ->
  yield (PascalString8 n d sc)
    (mkState p 0 (byte_of_Z (Z.of_nat (List.length s)) :: s ++ r) o l)
  = Done (Z.of_nat (List.length s),
          match sc with Some cs => strip cs s | None => s end)
      (mkState (p + (1 + Z.of_nat (List.length s))) 0 r
         (o ++ [setUniqueFieldName o
                  (mkField n cPascalString8 (8 * p)
                     (8 * (1 + Z.of_nat (List.length s)))
                     (StrV match sc with Some cs => strip cs s | None => s end)
                     d None [])]) l).
Proof.
  intros Hlen. apply eq_trans with (y := Done (Z.of_nat (List.length s),
          match sc with Some cs => strip cs s | None => s end)
      (addField (mkState p 0 (byte_of_Z (Z.of_nat (List.length s)) :: s ++ r) o l)
         (mkField n cPascalString8 (8 * p)
                     (8 * (1 + Z.of_nat (List.length s)))
                     (StrV match sc with Some cs => strip cs s | None => s end)
                     d None []))).
  - apply yield_Built. unfold PascalString8.
    cbn [bit input negb Z.eqb].
    rewrite byte_val_of_Z by lia.
    rewrite Nat2Z.id, firstn_app, Nat.sub_diag, firstn_all.
    cbn [firstn]. rewrite app_nil_r, Nat.ltb_irrefl.
    unfold addr. cbn [byte_pos bit]. rewrite Z.add_0_r. reflexivity.
  - rewrite (addField_bytes _ _ _ _ _ (1 + Z.of_nat (List.length s)))
      by first [reflexivity | lia].
    rewrite skipn_S_app. reflexivity.
Qed.

Lemma count_comment_snoc o f i :
  f_name f = Item "comment" i ->
  List.length (filter (same_array "comment") (o ++ [f]))
  = S (List.length (filter (same_array "comment") o)).
Proof.
  intros Hf. rewrite filter_app, length_app. cbn [filter].
  unfold same_array at 2. rewrite Hf. cbn. lia.
Qed.

Lemma parseComments_run strs :
  Forall (fun s => (0 < List.length s <= 255)%nat) strs ->
  forall p rest o l,
    parseComments
      (mkState p 0 (pascal_strings (strs ++ [[]]) ++ rest) o l)
    = Done tt
        (mkState (p + Z.of_nat (List.length (pascal_strings (strs ++ [[]]))))
           0 rest
           (o ++ comment_fields
                   (List.length (filter (same_array "comment") o))
                   (8 * p) (strs ++ [[]])) l).
Proof.
  unfold parseComments.
  induction 1 as [|s strs Hs Hall IH]; intros p rest o l.
  - cbn [app pascal_strings comment_fields].
    apply while_true_break. rewrite bind_eq.
    rewrite (yield_PascalString8 _ _ _ p [] rest o l) by (cbn; lia).
    cbn [fst List.length Z.of_nat Z.eqb]. unfold ret.
    unfold comment_field. cbn [setUniqueFieldName f_name List.length].
    tree_eq.
  - cbn [app pascal_strings comment_fields]. rewrite <- app_assoc.
    match goal with
    | |- while_true ?body ?st = _ =>
        assert (Hb : body st
                     = Done true
                         (mkState (p + (1 + Z.of_nat (List.length s))) 0
                            (pascal_strings (strs ++ [[]]) ++ rest)
                            (o ++ [comment_field
                                     (List.length
                                        (filter (same_array "comment") o))
                                     (8 * p) s]) l))
    end.
    { rewrite bind_eq, yield_PascalString8 by lia.
      cbn [fst].
      destruct (Z.eqb_spec (Z.of_nat (List.length s)) 0) as [E|E]; [lia|].
      reflexivity. }
    rewrite (while_true_continue _ _ _ _ Hb
               ltac:(cbn [input List.length]; rewrite !length_app; lia)
               (IH _ rest _ l) ltac:(discriminate)).
    rewrite count_comment_snoc
      with (i := List.length (filter (same_array "comment") o))
      by reflexivity.
    rewrite <- app_assoc.
    cbn [app List.length]. rewrite length_app.
    f_equal. f_equal; [lia|]. do 3 f_equal. lia.
Qed.

Lemma comment_fields_app xs ys :
  forall i a,
    comment_fields i a (xs ++ ys)
    = comment_fields i a xs
      ++ comment_fields (i + List.length xs)
           (a + 8 * Z.of_nat (List.length (pascal_strings xs))) ys.
Proof.
  induction xs as [|s xs IH]; intros i a.
  - cbn [app comment_fields pascal_strings List.length].
    rewrite Nat.add_0_r. tree_eq.
  - cbn [app comment_fields pascal_strings List.length]. rewrite IH.
    rewrite length_app. tree_eq.
Qed.

Lemma comment_fields_length strs : forall i a,
  List.length (comment_fields i a strs) = List.length strs.
Proof.
  induction strs as [|s strs IH]; intros i a; cbn [comment_fields List.length].
  - reflexivity.
  - rewrite IH. reflexivity.
Qed.

Lemma comment_fields_sizes strs :
  Forall (fun s => (0 < List.length s <= 255)%nat) strs ->
  forall i a,
    Forall (fun f => f_class f = cPascalString8 /\ 8 < f_size f)
      (comment_fields i a strs).
Proof.
  induction 1 as [|s strs Hs Hall IH]; intros i a; cbn [comment_fields].
  - constructor.
  - constructor; [|apply IH].
    cbn [comment_field f_class f_size]. split; [reflexivity|lia].
Qed.

Lemma pascal_strings_snoc strs rest :
  pascal_strings (strs ++ [[]]) ++ rest = pascal_strings strs ++ x00 :: rest.
Proof.
  induction strs as [|s strs IH]; cbn [app pascal_strings].
  - reflexivity.
  - f_equal. rewrite <- !app_assoc. f_equal. exact IH.
Qed.

Lemma pascal_strings_snoc_length strs :
  List.length (pascal_strings (strs ++ [[]]))
  = S (List.length (pascal_strings strs)).
Proof.
  induction strs as [|s strs IH]; cbn [app pascal_strings List.length].
  - reflexivity.
  - rewrite !length_app, IH. lia.
Qed.

(** C10.  A comment extension made of non-empty length-prefixed strings
    followed by a zero-length string yields one comment field per string,
    in order, then one comment field of length 0 for the terminating
    string, and stops there: the bytes after the zero-length string are left
    unread.  So at least one comment field is yielded and the last one has
    length 0. *)
Theorem comments_end_with_empty_string (strs : list (list byte)) (p : Z)
    (rest : list byte) (o : list field) (l : list string) :
  Forall (fun s => (0 < List.length s <= 255)%nat) strs ->
  let k := List.length (filter (same_array "comment") o) in
  let last_address := 8 * p + 8 * Z.of_nat (List.length (pascal_strings strs)) in
  parseComments (mkState p 0 (pascal_strings strs ++ x00 :: rest) o l)
  = Done tt
      (mkState (p + Z.of_nat (List.length (pascal_strings strs)) + 1) 0 rest
         (o ++ comment_fields k (8 * p) strs
            ++ [comment_field (k + List.length strs) last_address []]) l)
  /\ List.length (comment_fields k (8 * p) strs) = List.length strs
  /\ Forall (fun f => f_class f = cPascalString8 /\ 8 < f_size f)
       (comment_fields k (8 * p) strs)
  /\ f_size (comment_field (k + List.length strs) last_address []) = 8
  /\ f_value (comment_field (k + List.length strs) last_address []) = StrV []
  /\ ext_code 0xfe = Some (Name "comments", parseComments, "Comments"%string).
Proof.
  intros Hall k last_address. split; [|split; [|split; [|split; [|split]]]].
  - pose proof (parseComments_run strs Hall p rest o l) as H.
    rewrite comment_fields_app in H.
    rewrite pascal_strings_snoc, pascal_strings_snoc_length in H.
    rewrite H. unfold last_address. tree_eq.
  - apply comment_fields_length.
  - apply comment_fields_sizes. exact Hall.
  - reflexivity.
  - reflexivity.
  - reflexivity.
Qed.

Lemma comments_end_with_empty_string_witness :
  parseComments
    (mkState 15 0 [x03; x61; x62; x63; x00; x3b]
       [Extension_code_field 112 xfe] [])
  = Done tt
      (mkState 20 0 [x3b]
         [Extension_code_field 112 xfe;
          comment_field 0 120 [x61; x62; x63];
          comment_field 1 152 []] []).
Proof.
  apply (proj1 (comments_end_with_empty_string [[x61; x62; x63]] 15 [x3b]
                  [Extension_code_field 112 xfe] []
                  ltac:(repeat constructor))).
Defined.

(** ** What a generator adds to the field set *)

Lemma yields_ret {A} P (a : A) : yields P (ret a).
Proof. intros st. exists []. rewrite app_nil_r. split; [reflexivity|constructor]. Qed.

Lemma yields_raise {A} P e : yields P (@raise A e).
Proof. intros st. exists []. rewrite app_nil_r. split; [reflexivity|constructor]. Qed.

Lemma yields_error P msg : yields P (error msg).
Proof. intros st. exists []. cbn. rewrite app_nil_r. split; [reflexivity|constructor]. Qed.

Lemma yields_bind {A B} P (m : M A) (k : A -> M B) :
  yields P m -> (forall a, yields P (k a)) -> yields P (bind m k).
Proof.
  intros Hm Hk st. unfold bind.
  destruct (Hm st) as (m1 & E1 & F1).
  destruct (m st) as [a st1|e st1]; cbn [final] in *.
  - destruct (Hk a st1) as (m2 & E2 & F2).
    exists (m1 ++ m2). rewrite E2, E1, app_assoc.
    split; [reflexivity|apply Forall_app; split; assumption].
  - exists m1. split; assumption.
Qed.

Lemma yields_loop P body : yields P body -> forall n, yields P (loop n body).
Proof.
  intros Hb n. induction n as [|n IH]; intros st; cbn [loop].
  - apply (yields_raise P OutOfFuel st).
  - destruct (Hb st) as (m1 & E1 & F1).
    destruct (body st) as [[|] st1|e st1]; cbn [final] in *.
    + destruct (IH st1) as (m2 & E2 & F2).
      exists (m1 ++ m2). rewrite E2, E1, app_assoc.
      split; [reflexivity|apply Forall_app; split; assumption].
    + exists m1. split; assumption.
    + exists m1. split; assumption.
Qed.

Lemma yields_while_true P body : yields P body -> yields P (while_true body).
Proof. intros Hb st. unfold while_true. apply yields_loop. exact Hb. Qed.

Lemma yields_yield {A} (P : field -> Prop) (c : fieldc A) :
  (forall st f a, c st = Built f a -> P (setUniqueFieldName (out st) f)) ->
  yields P (yield c).
Proof.
  intros Hc st. unfold yield.
  destruct (c st) as [f a|e] eqn:E; cbn [final].
  - exists [setUniqueFieldName (out st) f]. split; [reflexivity|].
    constructor; [eapply Hc; exact E|constructor].
  - exists []. rewrite app_nil_r. split; [reflexivity|constructor].
Qed.

Lemma yields_any {A} (c : fieldc A) : yields (fun _ => True) (yield c).
Proof. apply yields_yield. intros. exact I. Qed.

Lemma setUniqueFieldName_not_func fs f :
  f_name f <> Name "func" -> not_func (setUniqueFieldName fs f).
Proof.
  unfold not_func, setUniqueFieldName. intros H.
  destruct (f_name f) eqn:E; cbn [f_name]; rewrite ?E; congruence.
Qed.

Lemma yields_declared {A} n (c : fieldc A) :
  declares n c -> n <> Name "func" -> yields not_func (yield c).
Proof.
  intros Hd Hn. apply yields_yield. intros st f a E.
  apply setUniqueFieldName_not_func. rewrite (Hd st f a E). exact Hn.
Qed.

Lemma declares_bits_field {A} c n nbits d (mk : Z -> fvalue * A) :
  declares n (bits_field c n nbits d mk).
Proof.
  intros st f a. unfold bits_field.
  destruct (readBits st nbits); intros E; inversion E. reflexivity.
Qed.

Lemma declares_bytes_field c n len d : declares n (bytes_field c n len d).
Proof.
  intros st f a. unfold bytes_field.
  destruct (readBytes st len); intros E; inversion E. reflexivity.
Qed.

Lemma declares_NullBytes n len d : declares n (NullBytes n len d).
Proof.
  intros st f a. unfold NullBytes.
  destruct (readBytes st len) as [e|data]; [discriminate|].
  destruct (forallb _ data); intros E; inversion E. reflexivity.
Qed.

Lemma declares_PascalString8 n d sc : declares n (PascalString8 n d sc).
Proof.
  intros st f a. unfold PascalString8.
  destruct (negb _); [discriminate|].
  destruct (input st) as [|b r]; [discriminate|].
  destruct (_ <? _)%nat; intros E; inversion E. reflexivity.
Qed.

Lemma declares_with_handler {A} n h (c : fieldc A) :
  declares n c -> declares n (with_handler h c).
Proof.
  intros Hc st f a. unfold with_handler.
  destruct (c st) as [f0 a0|e] eqn:E0; intros E; inversion E.
  cbn [f_name]. eapply Hc. exact E0.
Qed.

Ltac declared :=
  unfold Extension_code, Enum, UInt8, UInt16, Bits, Bit, NullBits, int_field,
    RawBytes, String_;
  repeat apply declares_with_handler;
  first [ apply declares_bits_field | apply declares_bytes_field
        | apply declares_NullBytes | apply declares_PascalString8 ].

Ltac yields_not_func :=
  repeat first
    [ apply yields_ret
    | apply yields_raise
    | apply yields_while_true
    | apply yields_bind; [|intros ?]
    | eapply yields_declared; [declared|discriminate]
    | match goal with
      | |- yields _ (if ?b then _ else _) => destruct b
      end ].

Lemma parseGraphicControl_not_func : yields not_func parseGraphicControl.
Proof. unfold parseGraphicControl. yields_not_func. Qed.

Lemma parseComments_not_func : yields not_func parseComments.
Proof. unfold parseComments. yields_not_func. Qed.

Lemma parseApplicationExtension_not_func :
  yields not_func parseApplicationExtension.
Proof. unfold parseApplicationExtension. yields_not_func. Qed.

Lemma defaultExtensionParser_not_func : yields not_func defaultExtensionParser.
Proof. unfold defaultExtensionParser. yields_not_func. Qed.

(** ** Description of an extension *)

Lemma fname_eqb_eq a b : fname_eqb a b = true -> a = b.
Proof.
  destruct a, b; cbn [fname_eqb]; try discriminate.
  - intros H. apply String.eqb_eq in H. congruence.
  - intros H. apply String.eqb_eq in H. congruence.
  - intros H. apply andb_true_iff in H as [H1 H2].
    apply String.eqb_eq in H1. apply Nat.eqb_eq in H2. congruence.
Qed.

Lemma getField_func_none fs :
  Forall not_func fs -> getField fs (Name "func") = None.
Proof.
  induction 1 as [|f fs Hf Hfs IH]; cbn [getField find]; [reflexivity|].
  destruct (fname_eqb (f_name f) (Name "func")) eqn:E.
  - apply fname_eqb_eq in E. contradiction.
  - exact IH.
Qed.

Lemma Extension_init_not_func n code :
  yields not_func (snd (fst (Extension_init n code))).
Proof.
  unfold Extension_init, ext_code.
  destruct (code =? 249); [apply parseGraphicControl_not_func|].
  destruct (code =? 254); [apply parseComments_not_func|].
  destruct (code =? 255); [apply parseApplicationExtension_not_func|].
  apply defaultExtensionParser_not_func.
Qed.

Lemma Extension_built n p code rest o l f :
  Extension n (mkState p 0 (code :: rest) o l) = Built f tt ->
  f_description f = snd (Extension_init n (byte_val code))
  /\ f_name f = fst (fst (Extension_init n (byte_val code)))
  /\ Forall not_func (f_fields f).
Proof.
  rewrite Extension_run. unfold FieldSet.
  pose proof (Extension_init_not_func n (byte_val code)) as Hp.
  destruct (Extension_init n (byte_val code)) as [[nm parser] d].
  cbn [fst snd] in *.
  assert (Hy : yields not_func (Extension_createFields parser)).
  { unfold Extension_createFields. apply yields_bind; [|intros _; exact Hp].
    eapply yields_declared; [declared|discriminate]. }
  specialize (Hy (children_state (mkState p 0 (code :: rest) o l))).
  destruct Hy as (more & E & F).
  destruct (Extension_createFields parser _) as [[] st'|e st'];
    [|discriminate].
  intros H. inversion H. cbn [f_description f_name f_fields].
  cbn [final children_state out app] in E. rewrite E.
  repeat split. exact F.
Qed.

(** C8.  No parser of an extension yields a child named "func", so
    createDescription fails on the lookup of "func" for every extension that
    is built.  For an extension whose code is none of 0xF9, 0xFE and 0xFF
    no description is set by __init__, and createDescription is what is
    left to compute one; for the three known codes the description is the
    one set from the table, and createDescription is not needed. *)
Theorem unknown_extension_description_fails (display : field -> string)
    (n : fname) (p : Z) (code : byte) (rest : list byte) (o : list field)
    (l : list string) (f : field) :
  Extension n (mkState p 0 (code :: rest) o l) = Built f tt ->
  getField (f_fields f) (Name "func") = None
  /\ Extension_createDescription display f = inl (MissingField (Name "func"))
  /\ (byte_val code <> 0xf9 -> byte_val code <> 0xfe ->
      byte_val code <> 0xff -> f_description f = None)
  /\ (code = xf9 -> f_description f = Some "Graphic control"%string)
  /\ (code = xfe -> f_description f = Some "Comments"%string)
  /\ (code = xff -> f_description f = Some "Application extension"%string).
Proof.
  intros H. apply Extension_built in H as (Hd & _ & Hf).
  pose proof (getField_func_none _ Hf) as Hnone.
  split; [exact Hnone|].
  split; [unfold Extension_createDescription; rewrite Hnone; reflexivity|].
  rewrite Hd. split; [|split; [|split]].
  - intros H1 H2 H3. unfold Extension_init, ext_code.
    rewrite (proj2 (Z.eqb_neq _ _) H1), (proj2 (Z.eqb_neq _ _) H2),
      (proj2 (Z.eqb_neq _ _) H3).
    reflexivity.
  - intros ->. reflexivity.
  - intros ->. reflexivity.
  - intros ->. reflexivity.
Qed.

Lemma unknown_extension_description_fails_witness :
  exists f,
    Extension (Array "extensions")
      (mkState 14 0 [x01; x02; x61; x62; x00; x3b] [] []) = Built f tt
    /\ List.length (f_fields f) = 4%nat
    /\ f_description f = None
    /\ Extension_createDescription (fun _ => EmptyString) f
       = inl (MissingField (Name "func")).
Proof.
  eexists. split; [vm_compute; reflexivity|]. split; [reflexivity|].
  pose proof (unknown_extension_description_fails (fun _ => EmptyString)
                (Array "extensions") 14 x01 [x02; x61; x62; x00; x3b] [] [] _
                eq_refl) as (_ & Hc & Hd & _).
  split; [|exact Hc].
  apply Hd; vm_compute; discriminate.
Defined.

(** ** Validation *)

Lemma yields_getitem P path : yields P (getitem path).
Proof.
  intros st. unfold getitem. exists []. rewrite app_nil_r.
  destruct (getPath (out st) path); split; try reflexivity; constructor.
Qed.

Lemma yields_block_any self_size :
  yields (fun _ => True) (GifFile_block self_size).
Proof.
  unfold GifFile_block.
  apply yields_bind; [apply yields_any|intros code].
  destruct (Byte.eqb code x21).
  { apply yields_bind; [apply yields_any|intros; apply yields_ret]. }
  destruct (Byte.eqb code x2c).
  { apply yields_bind; [apply yields_any|intros _].
    apply yields_bind; [|intros; apply yields_ret].
    intros st. destruct self_size as [size|].
    - destruct (addr st <? size); [apply yields_any|].
      apply (yields_ret _ tt st).
    - apply (yields_ret _ tt st). }
  destruct (Byte.eqb code x3b); [apply yields_ret|].
  apply yields_bind; [apply yields_error|intros; apply yields_ret].
Qed.

Lemma parse_head_fields self_size s0 s1 s2 s3 s4 s5 b0 b1 b2 b3 b4 b5 b6 rest :
  exists more,
    out (final (parse self_size
                  (s0 :: s1 :: s2 :: s3 :: s4 :: s5 ::
                   b0 :: b1 :: b2 :: b3 :: b4 :: b5 :: b6 :: rest)))
    = header_field [s0; s1; s2; s3; s4; s5]
      :: screen_field b0 b1 b2 b3 b4 b5 b6 :: more.
Proof.
  unfold parse, start, GifFile_createFields.
  rewrite bind_eq.
  rewrite (yield_Built _ _ _ _ (String_run _ _ 0 [] [] s0 s1 s2 s3 s4 s5 _)).
  add_field. cbn [app setUniqueFieldName f_name leaf].
  rewrite bind_eq.
  rewrite (yield_Built _ _ _ _
             (ScreenDescriptor_run _ _ _ b0 b1 b2 b3 b4 b5 b6 rest _ _)).
  add_field. cbn [app setUniqueFieldName f_name].
  match goal with
  | |- context [final (?m ?st)] =>
      assert (Hy : yields (fun _ => True) m)
  end.
  { apply yields_bind; [apply yields_getitem|intros gm].
    apply yields_bind; [|intros _; apply yields_while_true, yields_block_any].
    destruct (value_true gm); [|apply yields_ret].
    apply yields_bind; [apply yields_getitem|intros; apply yields_any]. }
  match goal with
  | |- context [final (?m ?st)] => destruct (Hy st) as (more & E & _)
  end.
  exists more. rewrite E. reflexivity.
Qed.

Lemma root_getitem_found self_size stream path f :
  getPath (out (final (parse self_size stream))) path = Some f ->
  root_getitem self_size stream path = inr f.
Proof.
  unfold root_getitem.
  destruct (parse self_size stream) as [a st|e st]; cbn [final];
    intros ->; reflexivity.
Qed.

Lemma screen_width self_size s0 s1 s2 s3 s4 s5 b0 b1 b2 b3 b4 b5 b6 rest :
  exists f,
    root_getitem self_size
      (s0 :: s1 :: s2 :: s3 :: s4 :: s5 ::
       b0 :: b1 :: b2 :: b3 :: b4 :: b5 :: b6 :: rest)
      [Name "screen"; Name "width"] = inr f
    /\ value_int f = byte_val b0 + 256 * byte_val b1.
Proof.
  destruct (parse_head_fields self_size s0 s1 s2 s3 s4 s5
              b0 b1 b2 b3 b4 b5 b6 rest) as (more & E).
  eexists. split.
  - apply root_getitem_found. rewrite E. reflexivity.
  - reflexivity.
Qed.

Lemma screen_height self_size s0 s1 s2 s3 s4 s5 b0 b1 b2 b3 b4 b5 b6 rest :
  exists f,
    root_getitem self_size
      (s0 :: s1 :: s2 :: s3 :: s4 :: s5 ::
       b0 :: b1 :: b2 :: b3 :: b4 :: b5 :: b6 :: rest)
      [Name "screen"; Name "height"] = inr f
    /\ value_int f = byte_val b2 + 256 * byte_val b3.
Proof.
  destruct (parse_head_fields self_size s0 s1 s2 s3 s4 s5
              b0 b1 b2 b3 b4 b5 b6 rest) as (more & E).
  eexists. split.
  - apply root_getitem_found. rewrite E. reflexivity.
  - reflexivity.
Qed.

Lemma bytes_eqb_refl a : bytes_eqb a a = true.
Proof. unfold bytes_eqb. destruct (list_eq_dec _ a a); congruence. Qed.

Lemma bytes_eqb_neq a b : a <> b -> bytes_eqb a b = false.
Proof. unfold bytes_eqb. destruct (list_eq_dec _ a b); congruence. Qed.

(** C1 (amended).  The signature is checked first.  When the first six
    bytes are "GIF87a" or "GIF89a" and the width or the height of the
    screen descriptor is 0, validation fails with "Invalid image size";
    when they are neither, validation fails with "Wrong header" whatever
    the width and the height are. *)
Theorem validate_zero_dimension (self_size : option Z)
    (s0 s1 s2 s3 s4 s5 b0 b1 b2 b3 b4 b5 b6 : byte) (rest : list byte) :
  let sig := [s0; s1; s2; s3; s4; s5] in
  let stream := sig ++ b0 :: b1 :: b2 :: b3 :: b4 :: b5 :: b6 :: rest in
  let width := byte_val b0 + 256 * byte_val b1 in
  let height := byte_val b2 + 256 * byte_val b3 in
  (sig = bytes "GIF87a" \/ sig = bytes "GIF89a" ->
   width = 0 \/ height = 0 ->
   validate self_size stream = inr (Invalid "Invalid image size"))
  /\ (sig <> bytes "GIF87a" -> sig <> bytes "GIF89a" ->
      validate self_size stream = inr (Invalid "Wrong header")).
Proof.
  intros sig stream width height.
  assert (Hread : readBytes (start stream) 6 = inr sig) by reflexivity.
  assert (Hstream : stream
                    = s0 :: s1 :: s2 :: s3 :: s4 :: s5 ::
                      b0 :: b1 :: b2 :: b3 :: b4 :: b5 :: b6 :: rest)
    by reflexivity.
  split.
  - intros Hsig Hdim. unfold validate. rewrite Hread.
    replace (bytes_eqb sig (bytes "GIF87a") || bytes_eqb sig (bytes "GIF89a"))
      with true
      by (destruct Hsig as [-> | ->];
          rewrite bytes_eqb_refl, ?orb_true_r; reflexivity).
    cbn [negb]. rewrite Hstream.
    destruct (screen_width self_size s0 s1 s2 s3 s4 s5
                b0 b1 b2 b3 b4 b5 b6 rest) as (fw & -> & Hw).
    destruct (screen_height self_size s0 s1 s2 s3 s4 s5
                b0 b1 b2 b3 b4 b5 b6 rest) as (fh & -> & Hh).
    rewrite Hw, Hh. fold width height.
    replace ((width =? 0) || (height =? 0)) with true; [reflexivity|].
    destruct Hdim as [-> | ->]; rewrite ?orb_true_r; reflexivity.
  - intros H87 H89. unfold validate. rewrite Hread.
    rewrite (bytes_eqb_neq _ _ H87), (bytes_eqb_neq _ _ H89). reflexivity.
Qed.

Lemma validate_zero_dimension_witness :
  validate None (bytes "GIF89a" ++ [x00; x00; x05; x00; x00; x00; x00; x3b])
  = inr (Invalid "Invalid image size")
  /\ validate None (bytes "GIF88a" ++ [x00; x00; x05; x00; x00; x00; x00; x3b])
     = inr (Invalid "Wrong header").
Proof.
  split.
  - apply (proj1 (validate_zero_dimension None
                    "G"%byte "I"%byte "F"%byte "8"%byte "9"%byte "a"%byte
                    x00 x00 x05 x00 x00 x00 x00 [x3b])).
    + right. reflexivity.
    + left. reflexivity.
  - apply (proj2 (validate_zero_dimension None
                    "G"%byte "I"%byte "F"%byte "8"%byte "8"%byte "a"%byte
                    x00 x00 x05 x00 x00 x00 x00 [x3b]));
      vm_compute; discriminate.
Defined.

(** C1 as stated fails: with the signature "GIF88a" and width 0, validation
    reports the header, not the size. *)
Lemma zero_width_wrong_signature :
  let stream := bytes "GIF88a" ++ [x00; x00; x05; x00; x00; x00; x00; x3b] in
  (exists f,
     root_getitem None stream [Name "screen"; Name "width"] = inr f
     /\ value_int f = 0)
  /\ validate None stream = inr (Invalid "Wrong header")
  /\ validate None stream <> inr (Invalid "Invalid image size").
Proof.
  split; [|split].
  - eexists. split; vm_compute; reflexivity.
  - vm_compute. reflexivity.
  - vm_compute. discriminate.
Qed.

(** ** The cursor only moves forward *)

Lemma addr_addField st f : addr (addField st f) = addr st + f_size f.
Proof.
  unfold addr, addField. cbn [byte_pos bit].
  pose proof (Z.div_mod (bit st + f_size f) 8). lia.
Qed.

Lemma mono_ret {A} (a : A) : mono (ret a).
Proof. intros st. cbn. lia. Qed.

Lemma mono_raise {A} e : mono (@raise A e).
Proof. intros st. cbn. lia. Qed.

Lemma mono_error msg : mono (error msg).
Proof. intros st. cbn. unfold addr. cbn. lia. Qed.

Lemma mono_getitem path : mono (getitem path).
Proof.
  intros st. unfold getitem. destruct (getPath (out st) path); cbn; lia.
Qed.

Lemma mono_bind {A B} (m : M A) (k : A -> M B) :
  mono m -> (forall a, mono (k a)) -> mono (bind m k).
Proof.
  intros Hm Hk st. unfold bind. specialize (Hm st).
  destruct (m st) as [a st1|e st1]; cbn [final] in *; [|exact Hm].
  specialize (Hk a st1). lia.
Qed.

Lemma mono_loop body : mono body -> forall n, mono (loop n body).
Proof.
  intros Hb n. induction n as [|n IH]; intros st; cbn [loop].
  - cbn. lia.
  - specialize (Hb st).
    destruct (body st) as [[|] st1|e st1]; cbn [final] in *; try exact Hb.
    specialize (IH st1). lia.
Qed.

Lemma mono_while_true body : mono body -> mono (while_true body).
Proof. intros Hb st. unfold while_true. apply mono_loop. exact Hb. Qed.

Lemma mono_yield {A} (c : fieldc A) : nonneg c -> mono (yield c).
Proof.
  intros Hc st. unfold yield.
  destruct (c st) as [f a|e] eqn:E; cbn [final]; [|lia].
  rewrite addr_addField. specialize (Hc st f a E). lia.
Qed.

Ltac built_size E :=
  apply (f_equal (fun b => match b with
                           | Built f _ => f_size f
                           | Failed _ => 0
                           end)) in E;
  cbn [f_size] in E.

Lemma nonneg_bits_field {A} c n nbits d (mk : Z -> fvalue * A) :
  0 <= nbits -> nonneg (bits_field c n nbits d mk).
Proof.
  intros Hn st f a. unfold bits_field.
  destruct (readBits st nbits); intros E; inversion E. exact Hn.
Qed.

Lemma nonneg_bytes_field c n len d : nonneg (bytes_field c n len d).
Proof.
  intros st f a. unfold bytes_field, readBytes.
  destruct (negb _); [discriminate|].
  destruct (Z.ltb_spec len 0); [discriminate|].
  destruct (_ <? _)%nat; intros E; [discriminate|].
  built_size E. lia.
Qed.

Lemma nonneg_NullBytes n len d : nonneg (NullBytes n len d).
Proof.
  intros st f a. unfold NullBytes, readBytes.
  destruct (negb _); [discriminate|].
  destruct (Z.ltb_spec len 0); [discriminate|].
  destruct (_ <? _)%nat; [discriminate|].
  destruct (forallb _ _); intros E; [|discriminate].
  built_size E. lia.
Qed.

Lemma nonneg_PascalString8 n d sc : nonneg (PascalString8 n d sc).
Proof.
  intros st f a. unfold PascalString8.
  destruct (negb _); [discriminate|].
  destruct (input st) as [|b r]; [discriminate|].
  destruct (_ <? _)%nat; intros E; [discriminate|].
  built_size E.
  pose proof (byte_val_range b). lia.
Qed.

Lemma nonneg_Character n d : nonneg (Character n d).
Proof.
  intros st f a. unfold Character.
  destruct (readBytes st 1) as [e|[|ch [|]]]; intros E; inversion E.
  cbn [f_size]. lia.
Qed.

Lemma nonneg_with_handler {A} h (c : fieldc A) :
  nonneg c -> nonneg (with_handler h c).
Proof.
  intros Hc st f a. unfold with_handler.
  destruct (c st) as [f0 a0|e] eqn:E0; intros E; inversion E.
  cbn [f_size]. eapply Hc. exact E0.
Qed.

Lemma nonneg_FieldSet c n d body : mono body -> nonneg (FieldSet c n d body).
Proof.
  intros Hb st f a. unfold FieldSet. specialize (Hb (children_state st)).
  destruct (body (children_state st)) as [u st'|e st']; intros E; inversion E.
  cbn [f_size final] in *. change (addr (children_state st)) with (addr st) in Hb.
  lia.
Qed.

Ltac unfold_fields :=
  unfold Extension_code, Enum, UInt8, UInt16, Bits, Bit, NullBits, int_field,
    RawBytes, String_, RGB, ScreenDescriptor.

Ltac forward :=
  repeat match goal with
    | |- mono (ret _) => apply mono_ret
    | |- mono (raise _) => apply mono_raise
    | |- mono (error _) => apply mono_error
    | |- mono (getitem _) => apply mono_getitem
    | |- mono (while_true _) => apply mono_while_true
    | |- mono (bind _ _) => apply mono_bind; [|intros ?]
    | |- mono (yield _) => apply mono_yield
    | |- mono (if ?b then _ else _) => destruct b
    | |- mono (let _ := _ in _) => cbv zeta
    | |- nonneg (with_handler _ _) => apply nonneg_with_handler
    | |- nonneg (bits_field _ _ _ _ _) => apply nonneg_bits_field; lia
    | |- nonneg (bytes_field _ _ _ _) => apply nonneg_bytes_field
    | |- nonneg (NullBytes _ _ _) => apply nonneg_NullBytes
    | |- nonneg (PascalString8 _ _ _) => apply nonneg_PascalString8
    | |- nonneg (Character _ _) => apply nonneg_Character
    | |- nonneg (FieldSet _ _ _ _) => apply nonneg_FieldSet
    | |- nonneg _ => progress unfold_fields
    end.

Lemma mono_PaletteRGB_createFields k : mono (PaletteRGB_createFields k).
Proof.
  induction k as [|k IH]; cbn [PaletteRGB_createFields].
  - apply mono_ret.
  - apply mono_bind; [|intros _; exact IH]. unfold_fields. forward.
Qed.

Lemma nonneg_PaletteRGB n nb d : nonneg (PaletteRGB n nb d).
Proof. apply nonneg_FieldSet, mono_PaletteRGB_createFields. Qed.

Lemma nonneg_ScreenDescriptor n d : nonneg (ScreenDescriptor n d).
Proof.
  apply nonneg_FieldSet. unfold ScreenDescriptor_createFields.
  unfold_fields. forward.
Qed.

Lemma mono_Image_createFields : mono Image_createFields.
Proof.
  unfold Image_createFields. unfold_fields. forward.
  apply nonneg_PaletteRGB.
Qed.

Lemma nonneg_Image n : nonneg (Image n).
Proof. apply nonneg_FieldSet, mono_Image_createFields. Qed.

Lemma mono_Extension_init n code : mono (snd (fst (Extension_init n code))).
Proof.
  unfold Extension_init, ext_code.
  destruct (code =? 249); [|destruct (code =? 254); [|destruct (code =? 255)]];
    cbn [fst snd];
    unfold parseGraphicControl, parseComments, parseApplicationExtension,
      defaultExtensionParser; unfold_fields; forward.
Qed.

Lemma nonneg_Extension n : nonneg (Extension n).
Proof.
  intros st f a. unfold Extension.
  destruct (Extension_code (children_state st)) as [f0 code|e]; [|discriminate].
  pose proof (mono_Extension_init n code) as Hp.
  destruct (Extension_init n code) as [[nm parser] d]. cbn [fst snd] in Hp.
  apply nonneg_FieldSet. unfold Extension_createFields.
  unfold_fields. forward. exact Hp.
Qed.

(** ** Size of an image field *)

Lemma Built_inj {A} (f f' : field) (a a' : A) :
  Built f a = Built f' a' -> f = f'.
Proof. congruence. Qed.

Lemma bits_field_u16_one {A} c nm d (mk : Z -> fvalue * A) p x o l :
  bits_field c nm 16 d mk (mkState p 0 [x] o l) = Failed TruncatedInput.
Proof. reflexivity. Qed.

Ltac fail_step :=
  rewrite bind_eq;
  rewrite yield_Failed with (e := TruncatedInput)
    by (field_norm;
        first [ apply bits_field_nil; reflexivity
              | apply bits_field_u16_one ]).

Lemma RGB_run n p r g b rest o l :
  RGB n (mkState p 0 (r :: g :: b :: rest) o l)
  = Built (mkField n cRGB (8 * p) 24 NoV None None
             [ leaf (Name "red") cUInt8 (8 * p) 8 (IntV (byte_val r))
                 (Some "Red"%string);
               leaf (Name "green") cUInt8 (8 * p + 8) 8 (IntV (byte_val g))
                 (Some "Green"%string);
               leaf (Name "blue") cUInt8 (8 * p + 16) 8 (IntV (byte_val b))
                 (Some "Blue"%string) ]) tt.
Proof.
  unfold RGB, FieldSet, children_state. cbn [byte_pos bit input].
  do 3 step. unfold ret, addr, leaf. cbn [final byte_pos bit out app].
  tree_eq.
Qed.

Lemma RGB_short n p inp o l :
  (List.length inp < 3)%nat ->
  RGB n (mkState p 0 inp o l) = Failed TruncatedInput.
Proof.
  intros Hlen. unfold RGB, FieldSet, children_state. cbn [byte_pos bit input].
  destruct inp as [|r [|g [|b rest]]]; [| | |cbn in Hlen; lia].
  - fail_step. reflexivity.
  - step. fail_step. reflexivity.
  - do 2 step. fail_step. reflexivity.
Qed.

Lemma PaletteRGB_createFields_done k :
  forall p inp o l st',
    PaletteRGB_createFields k (mkState p 0 inp o l) = Done tt st' ->
    bit st' = 0 /\ byte_pos st' = p + 3 * Z.of_nat k.
Proof.
  induction k as [|k IH]; intros p inp o l st'; cbn [PaletteRGB_createFields].
  - unfold ret. intros [= <-]. cbn. split; lia.
  - rewrite bind_eq.
    destruct inp as [|r [|g [|b rest]]];
      try (rewrite yield_Failed with (e := TruncatedInput)
             by (apply RGB_short; cbn; lia); discriminate).
    rewrite (yield_Built _ _ _ _ (RGB_run _ p r g b rest o l)).
    add_field. intros H. apply IH in H. destruct H as [H1 H2].
    split; [exact H1|lia].
Qed.

Lemma PaletteRGB_built n nb d p inp o l f :
  PaletteRGB n nb d (mkState p 0 inp o l) = Built f tt ->
  f_name f = n /\ 0 <= f_size f /\ f_size f mod 8 = 0.
Proof.
  unfold PaletteRGB, FieldSet, children_state. cbn [byte_pos bit input].
  destruct (PaletteRGB_createFields (Z.to_nat nb) _) as [[] st'|e st'] eqn:E;
    [|discriminate].
  apply PaletteRGB_createFields_done in E. destruct E as [Hb Hp].
  intros H. apply Built_inj in H. subst f. cbn [f_name f_size].
  unfold addr. cbn [byte_pos bit]. rewrite Hb, Hp.
  split; [reflexivity|].
  replace (8 * (p + 3 * Z.of_nat (Z.to_nat nb)) + 0 - (8 * p + 0))
    with (8 * (3 * Z.of_nat (Z.to_nat nb))) by lia.
  split; [lia|]. rewrite Z.mul_comm. apply Z.mod_mul. lia.
Qed.


Lemma find_app_l {A} (p : A -> bool) (xs ys : list A) :
  find p (xs ++ ys)
  = match find p xs with
    | Some x => Some x
    | None => find p ys
    end.
Proof.
  induction xs as [|x xs IH]; cbn [app find]; [reflexivity|].
  destruct (p x); [reflexivity|exact IH].
Qed.

Ltac short_input :=
  first [ fail_step; cbv beta iota; intros; discriminate
        | step; short_input ].

Lemma Image_built n p inp o l f :
  Image n (mkState p 0 inp o l) = Built f tt ->
  f_name f = n /\ f_address f = 8 * p
  /\ f_size f = 72 + local_map_size f
  /\ 0 <= local_map_size f /\ local_map_size f mod 8 = 0.
Proof.
  unfold Image, FieldSet, children_state, Image_createFields.
  cbn [byte_pos bit input].
  destruct inp as [|b0 [|b1 [|b2 [|b3 [|b4 [|b5 [|b6 [|b7 [|b8 rest]]]]]]]]];
    try short_input.
  do 8 step.
  destruct (Z.land (Z.shiftr (byte_val b8) 7) (Z.ones 1) =? 1).
  - match goal with
    | |- context [yield ?c ?st] =>
        destruct (c st) as [fp []|e] eqn:E;
          [rewrite (yield_Built _ _ _ _ E)
          |rewrite (yield_Failed _ _ _ E); discriminate]
    end.
    apply PaletteRGB_built in E. destruct E as (En & E0 & E8).
    intros H. apply Built_inj in H. subst f.
    cbn [f_name f_address f_size f_fields final].
    rewrite addr_addField. unfold addField. cbn [out].
    assert (Hl : forall fs a s v d h c,
               local_map_size
                 (mkField n cImage a s v d h
                    (fs ++ [setUniqueFieldName c fp]))
               = match getField fs (Name "local_map") with
                 | Some m => f_size m
                 | None => f_size fp
                 end).
    { intros. unfold local_map_size, getField. cbn [f_fields].
      rewrite find_app_l. destruct (find _ fs); [reflexivity|].
      unfold setUniqueFieldName. rewrite En. cbn [find]. rewrite En.
      reflexivity. }
    rewrite Hl. cbn [app getField find f_name fname_eqb String.eqb Ascii.eqb
                     Bool.eqb].
    unfold addr. cbn [byte_pos bit].
    repeat split; try lia; assumption.
  - unfold ret. intros H. apply Built_inj in H. subst f.
    cbn [f_name f_address f_size f_fields final].
    unfold local_map_size, addr.
    cbn [byte_pos bit out app f_fields getField find f_name fname_eqb
         String.eqb Ascii.eqb Bool.eqb].
    repeat split; first [lia | reflexivity].
Qed.

(** ** Image fields of a parse *)

Lemma keeps_of {A} (m : M A) : mono m -> yields images_ok m -> keeps m.
Proof.
  intros Hm Hy st H0. split; [specialize (Hm st); lia|apply Hy].
Qed.

Lemma keeps_bind {A B} (m : M A) (k : A -> M B) :
  keeps m -> (forall a, keeps (k a)) -> keeps (bind m k).
Proof.
  intros Hm Hk st H0. unfold bind.
  destruct (Hm st H0) as (H1 & m1 & E1 & F1).
  destruct (m st) as [a st1|e st1]; cbn [final] in *.
  - destruct (Hk a st1 H1) as (H2 & m2 & E2 & F2).
    split; [exact H2|]. exists (m1 ++ m2). rewrite E2, E1, app_assoc.
    split; [reflexivity|apply Forall_app; split; assumption].
  - split; [exact H1|]. exists m1. split; assumption.
Qed.

Lemma keeps_loop body : keeps body -> forall n, keeps (loop n body).
Proof.
  intros Hb n. induction n as [|n IH]; intros st H0; cbn [loop].
  - cbn [raise final]. split; [exact H0|]. exists []. rewrite app_nil_r.
    split; [reflexivity|constructor].
  - destruct (Hb st H0) as (H1 & m1 & E1 & F1).
    destruct (body st) as [[|] st1|e st1]; cbn [final] in *.
    + destruct (IH st1 H1) as (H2 & m2 & E2 & F2).
      split; [exact H2|]. exists (m1 ++ m2). rewrite E2, E1, app_assoc.
      split; [reflexivity|apply Forall_app; split; assumption].
    + split; [exact H1|]. exists m1. split; assumption.
    + split; [exact H1|]. exists m1. split; assumption.
Qed.

Lemma keeps_while_true body : keeps body -> keeps (while_true body).
Proof. intros Hb st. unfold while_true. apply keeps_loop. exact Hb. Qed.

Lemma images_ok_unique fs f :
  is_image (f_name f) = false -> f_name f <> Array "image" ->
  images_ok (setUniqueFieldName fs f).
Proof.
  unfold images_ok, setUniqueFieldName. intros Hi Ha.
  destruct (f_name f) as [s|b|b i] eqn:E; cbn [f_name]; rewrite ?E;
    cbn [is_image] in *; try discriminate.
  - intros Hb. apply String.eqb_eq in Hb. congruence.
  - congruence.
Qed.

Lemma yields_no_image {A} n (c : fieldc A) :
  declares n c -> is_image n = false -> n <> Array "image" ->
  yields images_ok (yield c).
Proof.
  intros Hd Hi Ha. apply yields_yield. intros st f a E.
  apply images_ok_unique; rewrite (Hd st f a E); assumption.
Qed.

Lemma declares_FieldSet c n d body : declares n (FieldSet c n d body).
Proof.
  intros st f a. unfold FieldSet.
  destruct (body (children_state st)); intros E; [|discriminate].
  apply Built_inj in E. subst f. reflexivity.
Qed.

Lemma declares_Character n d : declares n (Character n d).
Proof.
  intros st f a. unfold Character.
  destruct (readBytes st 1) as [e|[|ch [|]]]; intros E; try discriminate.
  apply Built_inj in E. subst f. reflexivity.
Qed.

Lemma Extension_name n st f a :
  Extension n st = Built f a ->
  f_name f = n \/ f_name f = Name "graphic_ctl" \/ f_name f = Name "comments"
  \/ f_name f = Array "app_ext".
Proof.
  unfold Extension.
  destruct (Extension_code (children_state st)) as [f0 code|e]; [|discriminate].
  unfold Extension_init, ext_code.
  destruct (code =? 249); [|destruct (code =? 254); [|destruct (code =? 255)]];
    intros E; apply declares_FieldSet in E; rewrite E; auto.
Qed.

Lemma keeps_Extension :
  keeps (yield (Extension (Array "extensions"))).
Proof.
  apply keeps_of; [apply mono_yield, nonneg_Extension|].
  apply yields_yield. intros st f a E.
  apply Extension_name in E.
  apply images_ok_unique;
    destruct E as [-> | [-> | [-> | ->]]]; first [reflexivity | discriminate].
Qed.

Lemma keeps_plain {A} n (c : fieldc A) :
  declares n c -> nonneg c -> is_image n = false -> n <> Array "image" ->
  keeps (yield c).
Proof.
  intros Hd Hn Hi Ha. apply keeps_of; [apply mono_yield, Hn|].
  eapply yields_no_image; eassumption.
Qed.

Lemma keeps_ret {A} (a : A) : keeps (ret a).
Proof. apply keeps_of; [apply mono_ret|apply yields_ret]. Qed.

Lemma keeps_error msg : keeps (error msg).
Proof. apply keeps_of; [apply mono_error|apply yields_error]. Qed.

Lemma keeps_getitem path : keeps (getitem path).
Proof. apply keeps_of; [apply mono_getitem|apply yields_getitem]. Qed.

Lemma keeps_end_padding self_size :
  keeps (fun st =>
           match self_size with
           | Some size =>
               if addr st <? size
               then yield (seekBit size (Name "end")) st
               else Done tt st
           | None => Done tt st
           end).
Proof.
  intros st H0. destruct self_size as [size|]; [|apply (keeps_ret tt st H0)].
  destruct (Z.ltb_spec (addr st) size) as [Hlt|Hge];
    [|apply (keeps_ret tt st H0)].
  unfold yield, seekBit. cbn [final]. rewrite addr_addField. cbn [f_size].
  split; [lia|]. eexists. split; [reflexivity|].
  constructor; [|constructor]. intros H. discriminate H.
Qed.

Lemma images_ok_image fs f p :
  0 <= p ->
  f_name f = Array "image" -> f_address f = 8 * (p + 1) ->
  f_size f = 72 + local_map_size f ->
  0 <= local_map_size f -> local_map_size f mod 8 = 0 ->
  images_ok (setUniqueFieldName fs f).
Proof.
  intros Hp Hn Ha Hs H0 H8 _. unfold setUniqueFieldName. rewrite Hn.
  unfold image_ok, local_map_size in *. cbn [f_address f_size f_fields].
  rewrite Ha. repeat split; try assumption; try lia.
  rewrite Z.mul_comm. apply Z.mod_mul. lia.
Qed.

Lemma keeps_block self_size : keeps (GifFile_block self_size).
Proof.
  intros [p b inp o l] H0.
  assert (Hstop : forall e,
             0 <= addr (final (@Raise bool e (mkState p b inp o l)))
             /\ exists more,
                  out (final (@Raise bool e (mkState p b inp o l)))
                  = out (mkState p b inp o l) ++ more
                  /\ Forall images_ok more).
  { intros e. cbn [final out]. split; [exact H0|].
    exists []. rewrite app_nil_r. split; [reflexivity|constructor]. }
  destruct (Z.eq_dec b 0) as [->|Hb].
  2:{ unfold GifFile_block. rewrite bind_eq.
      rewrite yield_Failed with (e := UnalignedRead); [apply Hstop|].
      unfold Enum, with_handler, Character, readBytes. cbn [bit].
      rewrite (proj2 (Z.eqb_neq b 0) Hb). reflexivity. }
  destruct inp as [|ch rest].
  { unfold GifFile_block. rewrite bind_eq.
    rewrite yield_Failed with (e := TruncatedInput); [apply Hstop|].
    reflexivity. }
  destruct (GifFile_block_separator self_size p ch rest o l) as (k & -> & ->).
  clear Hstop. unfold addr in H0. cbn [byte_pos bit] in H0.
  set (sep := separator_field _ _ ch).
  set (st1 := mkState (p + 1) 0 rest (o ++ [sep]) l).
  assert (H1 : 0 <= addr st1)
    by (unfold addr, st1; cbn [byte_pos bit]; lia).
  assert (Hlift : forall r : res bool,
             (0 <= addr (final r)
              /\ exists more, out (final r) = out st1 ++ more
                              /\ Forall images_ok more) ->
             0 <= addr (final r)
             /\ exists more, out (final r) = out (mkState p 0 (ch :: rest) o l)
                                             ++ more
                             /\ Forall images_ok more).
  { intros r (Ha & more & E & F). split; [exact Ha|].
    exists (sep :: more). rewrite E. cbn [out st1]. rewrite <- app_assoc.
    split; [reflexivity|]. constructor; [|exact F].
    intros H. discriminate H. }
  apply Hlift. cbv beta.
  destruct (Byte.eqb ch x21).
  { apply (keeps_bind _ _ keeps_Extension (fun _ => keeps_ret true) st1 H1). }
  destruct (Byte.eqb ch x2c).
  2:{ destruct (Byte.eqb ch x3b); [apply (keeps_ret false st1 H1)|].
      apply (keeps_bind _ _ (keeps_error _) (fun _ => keeps_ret false) st1 H1). }
  rewrite bind_eq.
  destruct (Image (Array "image") st1) as [f []|e] eqn:E.
  2:{ rewrite (yield_Failed _ _ _ E). cbn [final]. split; [exact H1|].
      exists []. rewrite app_nil_r. split; [reflexivity|constructor]. }
  rewrite (yield_Built _ _ _ _ E).
  apply Image_built in E. destruct E as (En & Ea & Es & El0 & El8).
  assert (H2 : 0 <= addr (addField st1 f))
    by (rewrite addr_addField; lia).
  destruct (keeps_bind _ _ (keeps_end_padding self_size)
              (fun _ => keeps_ret false) (addField st1 f) H2)
    as (H3 & more & E3 & F3).
  split; [exact H3|].
  exists (setUniqueFieldName (out st1) f :: more).
  rewrite E3. unfold addField at 1. cbn [out]. rewrite <- app_assoc.
  split; [reflexivity|]. constructor; [|exact F3].
  apply images_ok_image with (p := p); try assumption. lia.
Qed.

Lemma keeps_createFields self_size : keeps (GifFile_createFields self_size).
Proof.
  unfold GifFile_createFields.
  apply keeps_bind;
    [eapply keeps_plain;
       [apply declares_bytes_field|apply nonneg_bytes_field
       |reflexivity|discriminate]|intros _].
  apply keeps_bind;
    [eapply keeps_plain;
       [apply declares_FieldSet|apply nonneg_ScreenDescriptor
       |reflexivity|discriminate]|intros _].
  apply keeps_bind; [apply keeps_getitem|intros gm].
  apply keeps_bind; [|intros _; apply keeps_while_true, keeps_block].
  destruct (value_true gm); [|apply keeps_ret].
  apply keeps_bind; [apply keeps_getitem|intros bpp].
  eapply keeps_plain;
    [apply declares_FieldSet|apply nonneg_PaletteRGB|reflexivity|discriminate].
Qed.

Lemma parse_images_ok self_size stream :
  Forall images_ok (out (final (parse self_size stream))).
Proof.
  destruct (keeps_createFields self_size (start stream))
    as (_ & more & E & F); [unfold addr; cbn; lia|].
  unfold parse. rewrite E. exact F.
Qed.

Lemma root_image_ok self_size stream f :
  root_getitem self_size stream [Item "image" 0] = inr f ->
  f_name f = Item "image" 0 /\ image_ok f.
Proof.
  unfold root_getitem. pose proof (parse_images_ok self_size stream) as Hall.
  assert (Hfind : forall fs,
             Forall images_ok fs ->
             getPath fs [Item "image" 0] = Some f ->
             f_name f = Item "image" 0 /\ image_ok f).
  { intros fs Hfs Hg. cbn [getPath] in Hg. unfold getField in Hg.
    apply find_some in Hg. destruct Hg as [Hin Heq].
    apply fname_eqb_eq in Heq. split; [exact Heq|].
    rewrite Forall_forall in Hfs. apply (Hfs f Hin). rewrite Heq. reflexivity. }
  destruct (parse self_size stream) as [a st|e st]; cbn [final] in Hall;
    destruct (getPath (out st) [Item "image" 0]) eqn:G;
    intros H; try discriminate; injection H as <-; eapply Hfind; eassumption.
Qed.

(** ** Search of the terminator *)

Lemma isPrefix_spec needle : forall l,
  isPrefix needle l = true <-> firstn (List.length needle) l = needle.
Proof.
  induction needle as [|a needle IH]; intros l; cbn [isPrefix List.length firstn].
  - split; reflexivity.
  - destruct l as [|b l].
    + split; discriminate.
    + rewrite andb_true_iff, IH. split.
      * intros [Hab Hl]. apply Byte.byte_dec_bl in Hab. congruence.
      * intros H. injection H as -> Hl. split; [|exact Hl].
        apply Byte.byte_dec_lb. reflexivity.
Qed.

Lemma search_found needle : forall j hay pos todo,
  (j < todo)%nat ->
  isPrefix needle (skipn j hay) = true ->
  (forall i, (i < j)%nat -> isPrefix needle (skipn i hay) = false) ->
  search needle hay pos todo = Some (pos + 8 * Z.of_nat j).
Proof.
  induction j as [|j IH]; intros hay pos todo Hlt Hj Hmin;
    (destruct todo as [|t]; [lia|]); cbn [search].
  - cbn [skipn] in Hj. rewrite Hj. f_equal. lia.
  - pose proof (Hmin 0%nat ltac:(lia)) as H0. cbn [skipn] in H0. rewrite H0.
    destruct hay as [|x tl].
    + cbn [skipn] in Hj. rewrite H0 in Hj. discriminate.
    + rewrite (IH tl (pos + 8) t); [f_equal; lia|lia|exact Hj|].
      intros i Hi. apply (Hmin (S i)). lia.
Qed.

Lemma search_none needle : forall todo hay pos,
  (forall j, (j < todo)%nat -> isPrefix needle (skipn j hay) = false) ->
  search needle hay pos todo = None.
Proof.
  induction todo as [|t IH]; intros hay pos H; cbn [search]; [reflexivity|].
  pose proof (H 0%nat ltac:(lia)) as H0. cbn [skipn] in H0. rewrite H0.
  destruct hay as [|x tl]; [reflexivity|].
  apply IH. intros j Hj. apply (H (S j)). lia.
Qed.

Section Window.
Variables (stream needle : list byte) (start_address end_address : Z).
Hypothesis Haligned : start_address mod 8 = 0.
Hypothesis Hstart : 0 <= start_address.

Let s := Z.to_nat (start_address / 8).
Let todo :=
  Z.to_nat ((Z.min end_address (8 * Z.of_nat (List.length stream))
             - start_address) / 8
            - Z.of_nat (List.length needle) + 1).

Lemma start_bytes : start_address = 8 * Z.of_nat s.
Proof.
  unfold s. pose proof (Z.div_mod start_address 8).
  assert (0 <= start_address / 8) by (apply Z.div_pos; lia). lia.
Qed.

Lemma in_window_iff k :
  in_window stream needle start_address end_address k
  <-> (s <= k)%nat /\ (k - s < todo)%nat.
Proof.
  unfold in_window, todo. rewrite start_bytes.
  set (e := Z.min end_address (8 * Z.of_nat (List.length stream))).
  pose proof (Z.div_mod (e - 8 * Z.of_nat s) 8) as Hd.
  pose proof (Z.mod_pos_bound (e - 8 * Z.of_nat s) 8) as Hm.
  set (q := (e - 8 * Z.of_nat s) / 8) in *.
  set (r := (e - 8 * Z.of_nat s) mod 8) in *.
  split; intros H; lia.
Qed.

Lemma searchBytes_first k :
  first_match stream needle start_address end_address k ->
  searchBytes stream needle start_address end_address
  = inr (Some (8 * Z.of_nat k)).
Proof.
  intros (Hw & Hm & Hmin). unfold searchBytes.
  rewrite Haligned. cbn [Z.eqb negb]. fold s todo.
  apply in_window_iff in Hw as Hk. destruct Hk as [Hsk Hkt].
  rewrite (search_found needle (k - s)); try assumption.
  - do 2 f_equal. rewrite start_bytes at 1. lia.
  - rewrite skipn_skipn. replace (k - s + s)%nat with k by lia.
    apply isPrefix_spec. exact Hm.
  - intros i Hi. rewrite skipn_skipn.
    destruct (isPrefix needle (skipn (i + s) stream)) eqn:E; [|reflexivity].
    apply isPrefix_spec in E. exfalso.
    assert (Hwi : in_window stream needle start_address end_address (i + s))
      by (apply in_window_iff; lia).
    specialize (Hmin (i + s)%nat Hwi E). lia.
Qed.

Lemma searchBytes_none :
  (forall k, in_window stream needle start_address end_address k ->
             ~ matches_at stream needle k) ->
  searchBytes stream needle start_address end_address = inr None.
Proof.
  intros Hno. unfold searchBytes.
  rewrite Haligned. cbn [Z.eqb negb]. fold s todo.
  rewrite search_none; [reflexivity|].
  intros j Hj. rewrite skipn_skipn.
  destruct (isPrefix needle (skipn (j + s) stream)) eqn:E; [|reflexivity].
  apply isPrefix_spec in E. exfalso.
  apply (Hno (j + s)%nat); [apply in_window_iff; lia|exact E].
Qed.
End Window.

Lemma image_end_aligned f :
  image_ok f ->
  0 < f_address f + f_size f /\ (f_address f + f_size f) mod 8 = 0.
Proof.
  intros (Ha & Ha8 & Hs & Hl & Hl8).
  pose proof (Z.div_mod (f_address f) 8) as D1.
  pose proof (Z.div_mod (local_map_size f) 8) as D2.
  split; [lia|].
  replace (f_address f + f_size f)
    with ((f_address f / 8 + 9 + local_map_size f / 8) * 8) by lia.
  apply Z.mod_mul. lia.
Qed.

(** C3.  When the parse has an image block image[0], the content size is
    found by searching the two bytes NUL, ";" (0x00 0x3B) from the end of
    the image descriptor, local colour table included, in a window of
    MAX_FILE_SIZE = 100 MiB: when [k] is the byte offset of the first match
    lying in the window, the size is that offset plus 2 bytes, in bits;
    when there is no match in the window, no size is returned. *)
Theorem content_size_from_terminator_search (self_size : option Z)
    (stream : list byte) (f : field) :
  root_getitem self_size stream [Item "image" 0] = inr f ->
  let start := f_address f + f_size f in
  let end_ := start + MAX_FILE_SIZE * 8 in
  f_size f = 72 + local_map_size f
  /\ MAX_FILE_SIZE = 100 * 1024 * 1024
  /\ (forall k,
        first_match stream [x00; x3b] start end_ k ->
        createContentSize self_size stream
        = inr (Some (8 * (Z.of_nat k + 2))))
  /\ ((forall k, in_window stream [x00; x3b] start end_ k ->
                 ~ matches_at stream [x00; x3b] k) ->
      createContentSize self_size stream = inr None).
Proof.
  intros Hf start end_.
  destruct (root_image_ok _ _ _ Hf) as [_ Hok].
  destruct (image_end_aligned f Hok) as [Hpos H8]. fold start in Hpos, H8.
  split; [apply Hok|]. split; [reflexivity|]. split.
  - intros k Hk. unfold createContentSize. rewrite Hf. cbv zeta.
    fold start. fold end_.
    rewrite (searchBytes_first stream [x00; x3b] start end_ H8
               ltac:(lia) k Hk).
    destruct Hk as ((Hk & _) & _).
    destruct (Z.eqb_spec (8 * Z.of_nat k) 0) as [E|_]; [lia|].
    do 2 f_equal. lia.
  - intros Hno. unfold createContentSize. rewrite Hf. cbv zeta.
    fold start. fold end_.
    rewrite (searchBytes_none stream [x00; x3b] start end_ H8
               ltac:(lia) Hno).
    reflexivity.
Qed.

Lemma content_size_from_terminator_search_witness :
  createContentSize None
    (bytes "GIF89a" ++ [x01; x00; x01; x00; x00; x00; x00; x2c;
                        x00; x00; x00; x00; x01; x00; x01; x00; x00;
                        x02; x02; x00; x3b; x00; x3b])
  = inr (Some 216).
Proof.
  set (stream := bytes "GIF89a" ++ _).
  assert (Hf : exists f,
             root_getitem None stream [Item "image" 0] = inr f
             /\ f_address f + f_size f = 184).
  { eexists. split; vm_compute; reflexivity. }
  destruct Hf as (f & Hf & Hstart).
  destruct (content_size_from_terminator_search None stream f Hf)
    as (_ & _ & Hfound & _).
  rewrite Hstart in Hfound.
  apply (Hfound 25%nat).
  split; [|split].
  - unfold in_window. vm_compute. split; discriminate.
  - reflexivity.
  - intros j [Hj _] Hm.
    assert (Hcase : (j = 23 \/ j = 24 \/ 25 <= j)%nat) by lia.
    destruct Hcase as [-> | [-> | Hge]]; [discriminate Hm|discriminate Hm|exact Hge].
Defined.

(** ** The loops have fuel enough *)

Lemma loop_enough_fuel (I : pstate -> Prop) body :
  (forall st r, I st -> body st = Done true r ->
     I r /\ (List.length (input r) < List.length (input st))%nat) ->
  (forall st r, I st -> body st <> Raise OutOfFuel r) ->
  forall n st r,
    I st -> (List.length (input st) < n)%nat ->
    loop n body st <> Raise OutOfFuel r.
Proof.
  intros Hstep Hbody n. induction n as [|n IH]; intros st r HI Hlen; [lia|].
  cbn [loop]. destruct (body st) as [[|] st1|e st1] eqn:E.
  - destruct (Hstep st st1 HI E) as [HI1 Hlt]. apply IH; [exact HI1|lia].
  - discriminate.
  - intros H. injection H as He Hs. subst e st1. exact (Hbody st r HI E).
Qed.

Lemma while_true_terminates (I : pstate -> Prop) body :
  (forall st r, I st -> body st = Done true r ->
     I r /\ (List.length (input r) < List.length (input st))%nat) ->
  (forall st r, I st -> body st <> Raise OutOfFuel r) ->
  forall st r, I st -> while_true body st <> Raise OutOfFuel r.
Proof.
  intros Hstep Hbody st r HI. unfold while_true.
  apply (loop_enough_fuel I body Hstep Hbody); [exact HI|lia].
Qed.

Lemma Done_inj {A} (a a' : A) (s s' : pstate) :
  Done a s = Done a' s' -> s = s'.
Proof. congruence. Qed.

Lemma terminates_ret {A} (a : A) : terminates (ret a).
Proof. intros st st'. discriminate. Qed.

Lemma terminates_raise {A} e : e <> OutOfFuel -> terminates (@raise A e).
Proof. intros He st st' H. injection H as H _. contradiction. Qed.

Lemma terminates_error msg : terminates (error msg).
Proof. intros st st'. discriminate. Qed.

Lemma terminates_getitem path : terminates (getitem path).
Proof.
  intros st st'. unfold getitem. destruct (getPath (out st) path); discriminate.
Qed.

Lemma terminates_bind {A B} (m : M A) (k : A -> M B) :
  terminates m -> (forall a, terminates (k a)) -> terminates (bind m k).
Proof.
  intros Hm Hk st st'. unfold bind.
  destruct (m st) as [a st1|e st1] eqn:E; [apply Hk|].
  intros H. injection H as He Hs. subst e st1. exact (Hm st st' E).
Qed.

Lemma terminates_yield {A} (c : fieldc A) : builds c -> terminates (yield c).
Proof.
  intros Hc st st'. unfold yield. specialize (Hc st).
  destruct (c st) as [f a|e]; [discriminate|].
  intros H. injection H as He _. subst e. contradiction.
Qed.

Lemma builds_bits_field {A} c n nbits d (mk : Z -> fvalue * A) :
  builds (bits_field c n nbits d mk).
Proof. intros st. unfold bits_field. destruct (readBits st nbits); discriminate. Qed.

Lemma readBytes_fuel st len : readBytes st len <> inl OutOfFuel.
Proof.
  unfold readBytes. destruct (negb _); [discriminate|].
  destruct (len <? 0); [discriminate|].
  destruct (_ <? _)%nat; discriminate.
Qed.

Lemma builds_bytes_field c n len d : builds (bytes_field c n len d).
Proof.
  intros st. unfold bytes_field. pose proof (readBytes_fuel st len) as H.
  destruct (readBytes st len) as [e|data]; [|discriminate]. congruence.
Qed.

Lemma builds_NullBytes n len d : builds (NullBytes n len d).
Proof.
  intros st. unfold NullBytes. pose proof (readBytes_fuel st len) as H.
  destruct (readBytes st len) as [e|data]; [congruence|].
  destruct (forallb _ data); discriminate.
Qed.

Lemma builds_PascalString8 n d sc : builds (PascalString8 n d sc).
Proof.
  intros st. unfold PascalString8. destruct (negb _); [discriminate|].
  destruct (input st); [discriminate|]. destruct (_ <? _)%nat; discriminate.
Qed.

Lemma builds_Character n d : builds (Character n d).
Proof.
  intros st. unfold Character. pose proof (readBytes_fuel st 1) as H.
  destruct (readBytes st 1) as [e|[|ch [|]]]; try discriminate. congruence.
Qed.

Lemma builds_with_handler {A} h (c : fieldc A) :
  builds c -> builds (with_handler h c).
Proof.
  intros Hc st. unfold with_handler. specialize (Hc st).
  destruct (c st); [discriminate|exact Hc].
Qed.

Lemma builds_FieldSet c n d body : terminates body -> builds (FieldSet c n d body).
Proof.
  intros Hb st. unfold FieldSet.
  destruct (body (children_state st)) as [u st'|e st'] eqn:E; [discriminate|].
  intros H. injection H as He. subst e. exact (Hb _ _ E).
Qed.

Ltac enough_fuel :=
  repeat match goal with
    | |- terminates (ret _) => apply terminates_ret
    | |- terminates (raise _) => apply terminates_raise; discriminate
    | |- terminates (error _) => apply terminates_error
    | |- terminates (getitem _) => apply terminates_getitem
    | |- terminates (bind _ _) => apply terminates_bind; [|intros ?]
    | |- terminates (yield _) => apply terminates_yield
    | |- terminates (if ?b then _ else _) => destruct b
    | |- terminates (let _ := _ in _) => cbv zeta
    | |- terminates ScreenDescriptor_createFields =>
        unfold ScreenDescriptor_createFields
    | |- builds (with_handler _ _) => apply builds_with_handler
    | |- builds (bits_field _ _ _ _ _) => apply builds_bits_field
    | |- builds (bytes_field _ _ _ _) => apply builds_bytes_field
    | |- builds (NullBytes _ _ _) => apply builds_NullBytes
    | |- builds (PascalString8 _ _ _) => apply builds_PascalString8
    | |- builds (Character _ _) => apply builds_Character
    | |- builds (FieldSet _ _ _ _) => apply builds_FieldSet
    | |- builds _ => progress unfold_fields
    end.

Lemma terminates_PaletteRGB_createFields k :
  terminates (PaletteRGB_createFields k).
Proof.
  induction k as [|k IH]; cbn [PaletteRGB_createFields]; [apply terminates_ret|].
  apply terminates_bind; [|intros _; exact IH]. enough_fuel.
Qed.

Lemma builds_PaletteRGB n nb d : builds (PaletteRGB n nb d).
Proof. apply builds_FieldSet, terminates_PaletteRGB_createFields. Qed.

Lemma builds_Image n : builds (Image n).
Proof.
  apply builds_FieldSet. unfold Image_createFields. enough_fuel.
  apply builds_PaletteRGB.
Qed.

Lemma terminates_parseGraphicControl : terminates parseGraphicControl.
Proof. unfold parseGraphicControl. enough_fuel. Qed.

Lemma terminates_parseApplicationExtension :
  terminates parseApplicationExtension.
Proof. unfold parseApplicationExtension. enough_fuel. Qed.

Lemma length_skipn_le {A} n (l : list A) :
  (List.length (skipn n l) <= List.length l)%nat.
Proof. rewrite length_skipn. lia. Qed.

Lemma terminates_parseComments : terminates parseComments.
Proof.
  intros st r. unfold parseComments.
  apply (while_true_terminates (fun _ => True)); [| |exact I].
  - clear. intros st r _. rewrite bind_eq. unfold yield, PascalString8.
    destruct (Z.eqb_spec (bit st) 0) as [Hb|Hb]; cbn [negb]; [|discriminate].
    destruct (input st) as [|b rest] eqn:Ein; [discriminate|].
    destruct (_ <? _)%nat; [discriminate|]. cbn [fst].
    destruct (_ =? 0); [discriminate|]. unfold ret. intros H.
    apply Done_inj in H. subst r. split; [exact I|].
    unfold addField. cbn [input f_size]. rewrite Hb, Ein, Z.add_0_l.
    rewrite (Z.mul_comm 8), Z.div_mul by lia.
    pose proof (byte_val_range b).
    replace (Z.to_nat (1 + byte_val b)) with (S (Z.to_nat (byte_val b))) by lia.
    cbn [skipn List.length]. pose proof (length_skipn_le (Z.to_nat (byte_val b)) rest).
    lia.
  - clear. intros st r _.
    assert (H : terminates
              (field <- yield (PascalString8 (Array "comment") None
                                 (Some comment_strip)) ;;
               if fst field =? 0 then ret false else ret true))
      by enough_fuel.
    apply H.
Qed.

Lemma terminates_defaultExtensionParser st r :
  bit st = 0 -> defaultExtensionParser st <> Raise OutOfFuel r.
Proof.
  unfold defaultExtensionParser.
  apply (while_true_terminates (fun st => bit st = 0)).
  - clear. intros [p b inp o l] r Hb. cbn [bit] in Hb. subst b.
    destruct inp as [|x rest].
    + rewrite bind_eq, yield_Failed with (e := TruncatedInput)
        by (field_norm; apply bits_field_nil; reflexivity).
      discriminate.
    + step. destruct (0 <? byte_val x); [|discriminate].
      rewrite bind_eq. unfold yield at 1.
      destruct (RawBytes (Array "content") (byte_val x) _) as [f a|e] eqn:E;
        [|discriminate].
      unfold ret. intros H. apply Done_inj in H. subst r.
      unfold RawBytes, bytes_field in E.
      destruct (readBytes _ _); [discriminate|].
      apply Built_inj in E. subst f.
      pose proof (byte_val_range x).
      rewrite (addField_bytes _ _ _ _ _ (byte_val x))
        by first [reflexivity | lia].
      cbn [bit input List.length]. split; [reflexivity|].
      pose proof (length_skipn_le (Z.to_nat (byte_val x)) rest). lia.
  - clear. intros st r _.
    assert (H : terminates
              (size <- yield (UInt8 (Array "size")
                                (Some "Size (in bytes)"%string)) ;;
               if 0 <? size then
                 yield (RawBytes (Array "content") size) ;; ret true
               else ret false))
      by enough_fuel.
    apply H.
Qed.

Lemma builds_Extension n st : bit st = 0 -> Extension n st <> Failed OutOfFuel.
Proof.
  destruct st as [p b inp o l]. cbn [bit]. intros ->.
  destruct inp as [|code rest].
  { unfold Extension, children_state. cbn [byte_pos bit input].
    unfold Extension_code. field_norm. rewrite bits_field_nil by reflexivity.
    discriminate. }
  rewrite Extension_run. unfold FieldSet, children_state.
  cbn [byte_pos bit input]. rewrite Extension_createFields_run.
  match goal with
  | |- context [?parser (mkState ?p1 0 ?r ?o1 ?l1)] =>
      assert (H : forall r', parser (mkState p1 0 r o1 l1) <> Raise OutOfFuel r')
  end.
  { unfold Extension_init, ext_code.
    destruct (_ =? 249); [intros r'; apply terminates_parseGraphicControl|].
    destruct (_ =? 254); [intros r'; apply terminates_parseComments|].
    destruct (_ =? 255);
      [intros r'; apply terminates_parseApplicationExtension|].
    intros r'. apply terminates_defaultExtensionParser. reflexivity. }
  match goal with
  | |- context [match ?x with _ => _ end] => destruct x as [u st'|e st'] eqn:E
  end; [discriminate|].
  intros Hf. injection Hf as He. subst e. exact (H st' eq_refl).
Qed.

Lemma terminates_block self_size : terminates (GifFile_block self_size).
Proof.
  intros [p b inp o l] r.
  destruct (Z.eq_dec b 0) as [->|Hb].
  2:{ unfold GifFile_block. rewrite bind_eq.
      rewrite yield_Failed with (e := UnalignedRead); [discriminate|].
      unfold Enum, with_handler, Character, readBytes. cbn [bit].
      rewrite (proj2 (Z.eqb_neq b 0) Hb). reflexivity. }
  destruct inp as [|ch rest].
  { unfold GifFile_block. rewrite bind_eq.
    rewrite yield_Failed with (e := TruncatedInput); [discriminate|].
    reflexivity. }
  destruct (GifFile_block_separator self_size p ch rest o l) as (k & -> & ->).
  cbv beta. destruct (Byte.eqb ch x21).
  { rewrite bind_eq. unfold yield.
    match goal with
    | |- context [Extension ?n ?st] =>
        pose proof (builds_Extension n st eq_refl) as HE;
        destruct (Extension n st) as [f a|e]
    end; [discriminate|].
    intros H. injection H as He _. subst e. contradiction. }
  destruct (Byte.eqb ch x2c).
  2:{ destruct (Byte.eqb ch x3b); [discriminate|].
      apply (terminates_bind _ _ (terminates_error _)
               (fun _ => terminates_ret false)). }
  apply terminates_bind; [apply terminates_yield, builds_Image|intros _].
  apply terminates_bind; [|intros _; apply terminates_ret].
  intros st st'. destruct self_size as [size|]; [|discriminate].
  destruct (addr st <? size); [|discriminate]. discriminate.
Qed.

Lemma shrinks_block self_size st r :
  GifFile_block self_size st = Done true r ->
  (List.length (input r) < List.length (input st))%nat.
Proof.
  destruct st as [p b inp o l].
  destruct (Z.eq_dec b 0) as [->|Hb].
  2:{ unfold GifFile_block. rewrite bind_eq.
      rewrite yield_Failed with (e := UnalignedRead); [discriminate|].
      unfold Enum, with_handler, Character, readBytes. cbn [bit].
      rewrite (proj2 (Z.eqb_neq b 0) Hb). reflexivity. }
  destruct inp as [|ch rest].
  { unfold GifFile_block. rewrite bind_eq.
    rewrite yield_Failed with (e := TruncatedInput); [discriminate|].
    reflexivity. }
  destruct (GifFile_block_separator self_size p ch rest o l) as (k & -> & ->).
  cbv beta. destruct (Byte.eqb ch x21).
  { rewrite bind_eq. unfold yield at 1.
    match goal with
    | |- context [Extension ?n ?st] => destruct (Extension n st) as [f a|e]
    end; [|discriminate].
    unfold ret. intros H. apply Done_inj in H. subst r.
    unfold addField. cbn [input List.length].
    match goal with
    | |- context [skipn ?n rest] => pose proof (length_skipn_le n rest)
    end. lia. }
  destruct (Byte.eqb ch x2c).
  2:{ destruct (Byte.eqb ch x3b); [discriminate|].
      rewrite bind_eq. discriminate. }
  rewrite bind_eq.
  match goal with
  | |- context [yield ?c ?st] => destruct (yield c st); [|discriminate]
  end.
  rewrite bind_eq.
  match goal with
  | |- context [match ?x with _ => _ end] => destruct x; discriminate
  end.
Qed.

(** X18.  The parse of a stream ends: every turn of the block loop, of the
    comment loop and of the sub-block loop that goes on has consumed at
    least one byte, so the turns that the length of the stream allows are
    never used up.  The parse never stops for lack of fuel: [while_true] is
    the unbounded loop of the generators. *)
Theorem parse_terminates (self_size : option Z) (stream : list byte)
    (r : pstate) :
  parse self_size stream <> Raise OutOfFuel r.
Proof.
  unfold parse.
  assert (H : terminates (GifFile_createFields self_size)); [|apply H].
  unfold GifFile_createFields. enough_fuel.
  all: try apply builds_PaletteRGB.
  all: intros st st';
    apply (while_true_terminates (fun _ => True)); [| |exact I];
    [ intros s1 s2 _ E; split; [exact I|apply (shrinks_block _ _ _ E)]
    | intros s1 s2 _; apply terminates_block ].
Qed.

(** * Further properties of the parser *)

(** ** Verdicts of validate *)

Lemma validate_signed self_size s0 s1 s2 s3 s4 s5 b0 b1 b2 b3 b4 b5 b6 rest :
  [s0; s1; s2; s3; s4; s5] = bytes "GIF87a"
  \/ [s0; s1; s2; s3; s4; s5] = bytes "GIF89a" ->
  validate self_size
    (s0 :: s1 :: s2 :: s3 :: s4 :: s5 ::
     b0 :: b1 :: b2 :: b3 :: b4 :: b5 :: b6 :: rest)
  = inr (let width := byte_val b0 + 256 * byte_val b1 in
         let height := byte_val b2 + 256 * byte_val b3 in
         if (width =? 0) || (height =? 0)
         then Invalid "Invalid image size"
         else if MAX_WIDTH <? width
         then Invalid ("Image width too big (" ++ format_u width ++ ")")
         else if MAX_HEIGHT <? height
         then Invalid ("Image height too big (" ++ format_u height ++ ")")
         else Valid).
Proof.
  intros Hsig. unfold validate.
  assert (Hread : readBytes
                    (start (s0 :: s1 :: s2 :: s3 :: s4 :: s5 ::
                            b0 :: b1 :: b2 :: b3 :: b4 :: b5 :: b6 :: rest)) 6
                  = inr [s0; s1; s2; s3; s4; s5]) by reflexivity.
  rewrite Hread.
  replace (bytes_eqb [s0; s1; s2; s3; s4; s5] (bytes "GIF87a")
           || bytes_eqb [s0; s1; s2; s3; s4; s5] (bytes "GIF89a")) with true
    by (destruct Hsig as [-> | ->];
        rewrite bytes_eqb_refl, ?orb_true_r; reflexivity).
  cbn [negb].
  destruct (screen_width self_size s0 s1 s2 s3 s4 s5
              b0 b1 b2 b3 b4 b5 b6 rest) as (fw & -> & ->).
  destruct (screen_height self_size s0 s1 s2 s3 s4 s5
              b0 b1 b2 b3 b4 b5 b6 rest) as (fh & -> & ->).
  cbv zeta.
  destruct ((_ =? 0) || (_ =? 0)); [reflexivity|].
  destruct (MAX_WIDTH <? _); [reflexivity|].
  destruct (MAX_HEIGHT <? _); reflexivity.
Qed.

(** X1.  A stream that starts with "GIF87a" or "GIF89a" and whose screen
    descriptor has a width and a height between 1 and 6000 passes
    validation, whatever follows the screen descriptor. *)
Theorem validate_accepts (self_size : option Z)
    (s0 s1 s2 s3 s4 s5 b0 b1 b2 b3 b4 b5 b6 : byte) (rest : list byte) :
  [s0; s1; s2; s3; s4; s5] = bytes "GIF87a"
  \/ [s0; s1; s2; s3; s4; s5] = bytes "GIF89a" ->
  0 < byte_val b0 + 256 * byte_val b1 <= 6000 ->
  0 < byte_val b2 + 256 * byte_val b3 <= 6000 ->
  validate self_size
    (s0 :: s1 :: s2 :: s3 :: s4 :: s5 ::
     b0 :: b1 :: b2 :: b3 :: b4 :: b5 :: b6 :: rest)
  = inr Valid.
Proof.
  intros Hsig Hw Hh. rewrite validate_signed by exact Hsig. cbv zeta.
  unfold MAX_HEIGHT, MAX_WIDTH.
  destruct (Z.eqb_spec (byte_val b0 + 256 * byte_val b1) 0); [lia|].
  destruct (Z.eqb_spec (byte_val b2 + 256 * byte_val b3) 0); [lia|].
  cbn [orb].
  destruct (Z.ltb_spec 6000 (byte_val b0 + 256 * byte_val b1)); [lia|].
  destruct (Z.ltb_spec 6000 (byte_val b2 + 256 * byte_val b3)); [lia|].
  reflexivity.
Qed.

Lemma validate_accepts_witness :
  validate None
    (bytes "GIF87a" ++ [x70; x17; x01; x00; xff; xff; xff; x41])
  = inr Valid.
Proof.
  apply (validate_accepts None
           "G"%byte "I"%byte "F"%byte "8"%byte "7"%byte "a"%byte
           x70 x17 x01 x00 xff xff xff [x41]).
  - left. reflexivity.
  - vm_compute. split; [reflexivity|discriminate].
  - vm_compute. split; [reflexivity|discriminate].
Defined.

(** X2.  With a recognised signature, a width above 6000 and a height
    that is not 0, validation fails with "Image width too big (W)", W being
    the width in decimal; the height is not looked at, however large. *)
Theorem validate_width_too_big (self_size : option Z)
    (s0 s1 s2 s3 s4 s5 b0 b1 b2 b3 b4 b5 b6 : byte) (rest : list byte) :
  [s0; s1; s2; s3; s4; s5] = bytes "GIF87a"
  \/ [s0; s1; s2; s3; s4; s5] = bytes "GIF89a" ->
  6000 < byte_val b0 + 256 * byte_val b1 ->
  byte_val b2 + 256 * byte_val b3 <> 0 ->
  validate self_size
    (s0 :: s1 :: s2 :: s3 :: s4 :: s5 ::
     b0 :: b1 :: b2 :: b3 :: b4 :: b5 :: b6 :: rest)
  = inr (Invalid ("Image width too big ("
                  ++ format_u (byte_val b0 + 256 * byte_val b1) ++ ")")).
Proof.
  intros Hsig Hw Hh. rewrite validate_signed by exact Hsig. cbv zeta.
  unfold MAX_WIDTH.
  destruct (Z.eqb_spec (byte_val b0 + 256 * byte_val b1) 0); [lia|].
  destruct (Z.eqb_spec (byte_val b2 + 256 * byte_val b3) 0); [lia|].
  cbn [orb].
  destruct (Z.ltb_spec 6000 (byte_val b0 + 256 * byte_val b1)); [|lia].
  reflexivity.
Qed.

Lemma validate_width_too_big_witness :
  validate None
    (bytes "GIF89a" ++ [x71; x17; xff; xff; x00; x00; x00])
  = inr (Invalid "Image width too big (6001)").
Proof.
  apply (validate_width_too_big None
           "G"%byte "I"%byte "F"%byte "8"%byte "9"%byte "a"%byte
           x71 x17 xff xff x00 x00 x00 []).
  - right. reflexivity.
  - vm_compute. reflexivity.
  - vm_compute. discriminate.
Defined.

(** X3.  With a recognised signature and a width between 1 and 6000, a
    height above 6000 makes validation fail with "Image height too big
    (H)", H being the height in decimal. *)
Theorem validate_height_too_big (self_size : option Z)
    (s0 s1 s2 s3 s4 s5 b0 b1 b2 b3 b4 b5 b6 : byte) (rest : list byte) :
  [s0; s1; s2; s3; s4; s5] = bytes "GIF87a"
  \/ [s0; s1; s2; s3; s4; s5] = bytes "GIF89a" ->
  0 < byte_val b0 + 256 * byte_val b1 <= 6000 ->
  6000 < byte_val b2 + 256 * byte_val b3 ->
  validate self_size
    (s0 :: s1 :: s2 :: s3 :: s4 :: s5 ::
     b0 :: b1 :: b2 :: b3 :: b4 :: b5 :: b6 :: rest)
  = inr (Invalid ("Image height too big ("
                  ++ format_u (byte_val b2 + 256 * byte_val b3) ++ ")")).
Proof.
  intros Hsig Hw Hh. rewrite validate_signed by exact Hsig. cbv zeta.
  unfold MAX_HEIGHT, MAX_WIDTH.
  destruct (Z.eqb_spec (byte_val b0 + 256 * byte_val b1) 0); [lia|].
  destruct (Z.eqb_spec (byte_val b2 + 256 * byte_val b3) 0); [lia|].
  cbn [orb].
  destruct (Z.ltb_spec 6000 (byte_val b0 + 256 * byte_val b1)); [lia|].
  destruct (Z.ltb_spec 6000 (byte_val b2 + 256 * byte_val b3)); [|lia].
  reflexivity.
Qed.

Lemma validate_height_too_big_witness :
  validate None
    (bytes "GIF89a" ++ [x70; x17; x10; x27; x00; x00; x00])
  = inr (Invalid "Image height too big (10000)").
Proof.
  apply (validate_height_too_big None
           "G"%byte "I"%byte "F"%byte "8"%byte "9"%byte "a"%byte
           x70 x17 x10 x27 x00 x00 x00 []).
  - right. reflexivity.
  - vm_compute. split; [reflexivity|discriminate].
  - vm_compute. reflexivity.
Defined.

(** ** Colour tables *)

Lemma count_array_snoc base o f i :
  f_name f = Item base i ->
  List.length (filter (same_array base) (o ++ [f]))
  = S (List.length (filter (same_array base) o)).
Proof.
  intros Hf. rewrite filter_app, length_app. cbn [filter].
  unfold same_array at 2. rewrite Hf, String.eqb_refl. cbn. lia.
Qed.

Lemma PaletteRGB_createFields_run k :
  forall data p rest o l,
    List.length data = (3 * k)%nat ->
    PaletteRGB_createFields k (mkState p 0 (data ++ rest) o l)
    = Done tt
        (mkState (p + 3 * Z.of_nat k) 0 rest
           (o ++ palette_colors
                   (List.length (filter (same_array "color") o)) (8 * p) data)
           l).
Proof.
  induction k as [|k IH]; intros data p rest o l Hlen;
    cbn [PaletteRGB_createFields].
  - destruct data; [|discriminate Hlen].
    cbn [app palette_colors]. unfold ret. rewrite app_nil_r. tree_eq.
  - destruct data as [|r [|g [|b data]]]; try (cbn in Hlen; lia).
    cbn [app]. rewrite bind_eq.
    rewrite (yield_Built _ _ _ _ (RGB_run _ p r g b (data ++ rest) o l)).
    add_field. cbn [setUniqueFieldName f_name].
    rewrite IH by (cbn [List.length] in Hlen; lia).
    rewrite count_array_snoc
      with (i := List.length (filter (same_array "color") o))
      by reflexivity.
    cbn [palette_colors]. rewrite <- app_assoc. cbn [app].
    unfold RGB_field. tree_eq.
Qed.

Lemma PaletteRGB_run n d k data p rest o l :
  List.length data = (3 * k)%nat ->
  PaletteRGB n (Z.of_nat k) d (mkState p 0 (data ++ rest) o l)
  = Built (palette_field n (8 * p) d data) tt.
Proof.
  intros Hlen. unfold PaletteRGB, FieldSet, children_state.
  cbn [byte_pos bit input]. rewrite Nat2Z.id.
  rewrite PaletteRGB_createFields_run by exact Hlen.
  unfold palette_field, addr. cbn [byte_pos bit out app filter List.length].
  rewrite Hlen. tree_eq.
Qed.

(** ** Image descriptor *)

Lemma Image_createFields_head p b0 b1 b2 b3 b4 b5 b6 b7 b8 rest o l :
  Image_createFields
    (mkState p 0 (b0 :: b1 :: b2 :: b3 :: b4 :: b5 :: b6 :: b7 :: b8 :: rest)
       o l)
  = (if byte_bits b8 7 1 =? 1 then
       yield (PaletteRGB (Name "local_map")
                (Z.shiftl 1 (1 + byte_bits b8 0 3))
                (Some "Local color map"%string))
     else ret tt)
      (mkState (p + 9) 0 rest
         (o ++ Image_fields (8 * p) b0 b1 b2 b3 b4 b5 b6 b7 b8) l).
Proof.
  unfold Image_createFields. do 8 step.
  unfold Image_fields, leaf, byte_bits.
  rewrite <- !app_assoc. cbn [app].
  match goal with
  | |- ?f ?s1 = ?g ?s2 => replace s1 with s2 by tree_eq
  end.
  reflexivity.
Qed.

Lemma Image_plain_run n p b0 b1 b2 b3 b4 b5 b6 b7 b8 rest o l :
  (byte_bits b8 7 1 =? 1) = false ->
  Image n
    (mkState p 0 (b0 :: b1 :: b2 :: b3 :: b4 :: b5 :: b6 :: b7 :: b8 :: rest)
       o l)
  = Built (mkField n cImage (8 * p) 72 NoV None None
             (Image_fields (8 * p) b0 b1 b2 b3 b4 b5 b6 b7 b8)) tt.
Proof.
  intros Hflag.
  unfold Image, FieldSet, children_state. cbn [byte_pos bit input].
  rewrite Image_createFields_head, Hflag. unfold ret, addr.
  cbn [byte_pos bit out app]. tree_eq.
Qed.

(** X4.  An image descriptor whose local-map flag (bit 7 of its ninth byte)
    is clear is exactly nine bytes: left, top, width and height as 16-bit
    little-endian integers, then bpp (bits 0-2), three padding bits,
    interlaced (bit 6) and has_local_map (bit 7).  No colour table is read
    and the bytes after the descriptor are left to the caller. *)
Theorem Image_without_local_map (n : fname) (p : Z)
    (b0 b1 b2 b3 b4 b5 b6 b7 b8 : byte) (rest : list byte) (o : list field)
    (l : list string) :
  (byte_bits b8 7 1 =? 1) = false ->
  Image n
    (mkState p 0 (b0 :: b1 :: b2 :: b3 :: b4 :: b5 :: b6 :: b7 :: b8 :: rest)
       o l)
  = Built (mkField n cImage (8 * p) 72 NoV None None
             (Image_fields (8 * p) b0 b1 b2 b3 b4 b5 b6 b7 b8)) tt
  /\ local_map_size
       (mkField n cImage (8 * p) 72 NoV None None
          (Image_fields (8 * p) b0 b1 b2 b3 b4 b5 b6 b7 b8)) = 0.
Proof.
  intros Hflag. split; [|reflexivity].
  apply Image_plain_run. exact Hflag.
Qed.

Lemma Image_without_local_map_witness :
  Image (Array "image")
    (mkState 14 0 [x00; x00; x00; x00; x0a; x00; x14; x00; x47; x02; x4c]
       [] [])
  = Built (mkField (Array "image") cImage 112 72 NoV None None
             (Image_fields 112 x00 x00 x00 x00 x0a x00 x14 x00 x47)) tt.
Proof.
  apply (proj1 (Image_without_local_map (Array "image") 14
                  x00 x00 x00 x00 x0a x00 x14 x00 x47 [x02; x4c] [] []
                  eq_refl)).
Defined.

(** X5.  An image descriptor whose local-map flag is set is followed by a
    local colour table of 2^(1+bpp) colours, three bytes each: when that
    many bytes follow the descriptor, the image field covers the nine
    bytes and the table, the table being its ninth child "local_map" with
    one colour field per triple, and the bytes after the table are left to
    the caller. *)
Theorem Image_with_local_map (n : fname) (p : Z)
    (b0 b1 b2 b3 b4 b5 b6 b7 b8 : byte) (data rest : list byte)
    (o : list field) (l : list string) :
  (byte_bits b8 7 1 =? 1) = true ->
  Z.of_nat (List.length data) = 3 * 2 ^ (1 + byte_bits b8 0 3) ->
  let local_map :=
    palette_field (Name "local_map") (8 * p + 72)
      (Some "Local color map"%string) data in
  let image :=
    mkField n cImage (8 * p) (72 + 8 * Z.of_nat (List.length data)) NoV
      None None
      (Image_fields (8 * p) b0 b1 b2 b3 b4 b5 b6 b7 b8 ++ [local_map]) in
  Image n
    (mkState p 0
       (b0 :: b1 :: b2 :: b3 :: b4 :: b5 :: b6 :: b7 :: b8 :: data ++ rest)
       o l)
  = Built image tt
  /\ local_map_size image = 24 * 2 ^ (1 + byte_bits b8 0 3)
  /\ Z.of_nat (List.length (f_fields local_map)) = 2 ^ (1 + byte_bits b8 0 3).
Proof.
  intros Hflag Hlen local_map image.
  assert (Hbpp : 0 <= byte_bits b8 0 3)
    by (unfold byte_bits; apply Z.land_nonneg; right; vm_compute; discriminate).
  assert (Hpow : 0 < 2 ^ (1 + byte_bits b8 0 3))
    by (apply Z.pow_pos_nonneg; lia).
  set (k := Z.to_nat (2 ^ (1 + byte_bits b8 0 3))).
  assert (Hk : List.length data = (3 * k)%nat) by (unfold k; lia).
  split; [|split].
  - unfold Image, FieldSet, children_state. cbn [byte_pos bit input].
    rewrite Image_createFields_head, Hflag.
    rewrite Z.shiftl_1_l.
    replace (2 ^ (1 + byte_bits b8 0 3)) with (Z.of_nat k) by (unfold k; lia).
    rewrite (yield_Built _ _ _ _
               (PaletteRGB_run _ _ k data (p + 9) rest _ _ Hk)).
    rewrite addr_addField. unfold addField. cbn [out].
    unfold image, local_map, palette_field, addr.
    cbn [byte_pos bit f_size setUniqueFieldName f_name app].
    replace (8 * (p + 9)) with (8 * p + 72) by lia.
    tree_eq.
  - unfold image, local_map_size. cbn [f_fields].
    unfold getField. rewrite find_app_l.
    cbn [Image_fields find leaf f_name fname_eqb String.eqb Ascii.eqb Bool.eqb].
    unfold local_map, palette_field. cbn [find f_name fname_eqb f_size].
    rewrite String.eqb_refl. cbn [f_size]. lia.
  - unfold local_map, palette_field. cbn [f_fields].
    assert (Hcount : forall d i a j,
               List.length d = (3 * j)%nat ->
               List.length (palette_colors i a d) = j).
    { clear. intros d i a j. revert d i a.
      induction j as [|j IH]; intros d i a Hd.
      - destruct d; [reflexivity|discriminate Hd].
      - destruct d as [|r [|g [|b d]]]; try (cbn in Hd; lia).
        cbn [palette_colors List.length]. f_equal. apply IH.
        cbn [List.length] in Hd. lia. }
    rewrite (Hcount data 0%nat (8 * p + 72) k Hk). unfold k. lia.
Qed.

Lemma Image_with_local_map_witness :
  exists image,
    Image (Array "image")
      (mkState 14 0 [x00; x00; x00; x00; x0a; x00; x14; x00; x80;
                     xff; x00; x00; x00; x00; xff; x02] [] [])
    = Built image tt
    /\ f_size image = 120 /\ local_map_size image = 48.
Proof.
  destruct (Image_with_local_map (Array "image") 14
              x00 x00 x00 x00 x0a x00 x14 x00 x80
              [xff; x00; x00; x00; x00; xff] [x02] [] [] eq_refl eq_refl)
    as (H1 & H2 & _).
  eexists. split; [exact H1|]. split; [reflexivity|exact H2].
Defined.

(** ** Global colour table, terminator and image in the container *)

Lemma createFields_global_map self_size s0 s1 s2 s3 s4 s5 b0 b1 b2 b3 b4 b5 b6
    data rest :
  (byte_bits b4 7 1 =? 1) = true ->
  Z.of_nat (List.length data) = 3 * 2 ^ (byte_bits b4 0 3 + 1) ->
  parse self_size
    (s0 :: s1 :: s2 :: s3 :: s4 :: s5 ::
     b0 :: b1 :: b2 :: b3 :: b4 :: b5 :: b6 :: data ++ rest)
  = while_true (GifFile_block self_size)
      (mkState (13 + Z.of_nat (List.length data)) 0 rest
         [header_field [s0; s1; s2; s3; s4; s5];
          screen_field b0 b1 b2 b3 b4 b5 b6;
          palette_field (Name "color_map") 104 (Some "Color map"%string) data]
         []).
Proof.
  intros Hmap Hlen.
  assert (Hbpp : 0 <= byte_bits b4 0 3)
    by (unfold byte_bits; apply Z.land_nonneg; right; vm_compute; discriminate).
  set (k := Z.to_nat (2 ^ (byte_bits b4 0 3 + 1))).
  assert (Hpow : 0 < 2 ^ (byte_bits b4 0 3 + 1))
    by (apply Z.pow_pos_nonneg; lia).
  assert (Hk : List.length data = (3 * k)%nat) by (unfold k; lia).
  unfold parse, start, GifFile_createFields.
  rewrite bind_eq.
  rewrite (yield_Built _ _ _ _ (String_run _ _ 0 [] [] s0 s1 s2 s3 s4 s5 _)).
  add_field. cbn [app setUniqueFieldName f_name leaf].
  rewrite bind_eq.
  rewrite (yield_Built _ _ _ _
             (ScreenDescriptor_run _ _ _ b0 b1 b2 b3 b4 b5 b6 (data ++ rest)
                _ _)).
  add_field. cbn [app setUniqueFieldName f_name].
  rewrite bind_eq. unfold getitem at 1. cbn [out].
  change (getPath _ [Name "screen"; Name "global_map"])
    with (Some (leaf (Name "global_map") cBit (8 * (0 + 6) + 39) 1
                  (BoolV (byte_bits b4 7 1 =? 1))
                  (Some "Has global map?"%string))).
  cbv beta iota. rewrite bind_eq.
  unfold value_true, leaf. cbn [f_value]. rewrite Hmap.
  rewrite bind_eq. unfold getitem at 1. cbn [out].
  change (getPath _ [Name "screen"; Name "bpp"])
    with (Some (leaf (Name "bpp") cBits (8 * (0 + 6) + 32) 3
                  (IntV (byte_bits b4 0 3))
                  (Some "Bits per pixel minus one"%string))).
  cbv beta iota zeta. unfold value_int, leaf. cbn [f_value].
  rewrite Z.shiftl_1_l.
  replace (2 ^ (byte_bits b4 0 3 + 1)) with (Z.of_nat k) by (unfold k; lia).
  rewrite (yield_Built _ _ _ _
             (PaletteRGB_run _ _ k data (0 + 6 + 7) rest _ _ Hk)).
  rewrite (addField_bytes _ _ _ _ _ (Z.of_nat (List.length data)))
    by first [reflexivity | lia].
  unfold palette_field. cbn [setUniqueFieldName f_name app].
  rewrite Nat2Z.id, skipn_app, skipn_all, Nat.sub_diag.
  cbn [skipn app].
  match goal with
  | |- while_true _ ?s1 = while_true _ ?s2 => replace s1 with s2; [reflexivity|]
  end.
  unfold header_field, screen_field, leaf. tree_eq.
Qed.

Lemma block_loop_terminator self_size p rest o l :
  while_true (GifFile_block self_size) (mkState p 0 (x3b :: rest) o l)
  = Done tt
      (mkState (p + 1) 0 rest
         (o ++ [separator_field
                  (List.length (filter (same_array "separator") o))
                  (8 * p) x3b]) l).
Proof.
  rewrite while_true_cons.
  destruct (GifFile_block_separator self_size p x3b rest o l) as (k & -> & ->).
  reflexivity.
Qed.

(** X6.  When the global-map flag of the screen descriptor (bit 7 of its
    fifth byte) is set and the 3 * 2^(bpp+1) bytes of the table follow,
    createFields reads them as the colour table "color_map" at bit 104,
    right after the screen descriptor, and the block loop starts right
    after the table; when the flag is clear, no byte is read for a table
    and the block loop starts at bit 104.  The blocks that follow are
    whatever the stream holds. *)
Theorem createFields_global_color_map (self_size : option Z)
    (s0 s1 s2 s3 s4 s5 b0 b1 b2 b3 b4 b5 b6 : byte) (data rest : list byte) :
  ((byte_bits b4 7 1 =? 1) = true ->
   Z.of_nat (List.length data) = 3 * 2 ^ (byte_bits b4 0 3 + 1) ->
   parse self_size
     (s0 :: s1 :: s2 :: s3 :: s4 :: s5 ::
      b0 :: b1 :: b2 :: b3 :: b4 :: b5 :: b6 :: data ++ rest)
   = while_true (GifFile_block self_size)
       (mkState (13 + Z.of_nat (List.length data)) 0 rest
          [header_field [s0; s1; s2; s3; s4; s5];
           screen_field b0 b1 b2 b3 b4 b5 b6;
           palette_field (Name "color_map") 104 (Some "Color map"%string) data]
          []))
  /\ ((byte_bits b4 7 1 =? 1) = false ->
      parse self_size
        (s0 :: s1 :: s2 :: s3 :: s4 :: s5 ::
         b0 :: b1 :: b2 :: b3 :: b4 :: b5 :: b6 :: rest)
      = while_true (GifFile_block self_size)
          (mkState 13 0 rest
             [header_field [s0; s1; s2; s3; s4; s5];
              screen_field b0 b1 b2 b3 b4 b5 b6] [])).
Proof.
  split.
  - intros Hmap Hlen. apply createFields_global_map; assumption.
  - intros Hmap. apply createFields_head. exact Hmap.
Qed.

Lemma createFields_global_color_map_witness :
  parse None
    (bytes "GIF89a" ++ [x02; x00; x02; x00; x80; x00; x00;
                        x00; x00; x00; xff; xff; xff; x2c; x41])
  = while_true (GifFile_block None)
      (mkState 19 0 [x2c; x41]
         [header_field (bytes "GIF89a");
          screen_field x02 x00 x02 x00 x80 x00 x00;
          palette_field (Name "color_map") 104 (Some "Color map"%string)
            [x00; x00; x00; xff; xff; xff]] []).
Proof.
  apply (proj1 (createFields_global_color_map None
                  "G"%byte "I"%byte "F"%byte "8"%byte "9"%byte "a"%byte
                  x02 x00 x02 x00 x80 x00 x00
                  [x00; x00; x00; xff; xff; xff] [x2c; x41]));
    reflexivity.
Defined.

Lemma no_image_lookup fs :
  List.length (filter (same_array "image") fs) = 0%nat ->
  getPath fs [Item "image" 0] = None.
Proof.
  intros H. cbn [getPath]. unfold getField.
  destruct (find _ fs) as [f|] eqn:E; [|reflexivity].
  apply find_some in E. destruct E as [Hin Heq].
  apply fname_eqb_eq in Heq.
  assert (Hf : In f (filter (same_array "image") fs)).
  { apply filter_In. split; [exact Hin|].
    unfold same_array. rewrite Heq. reflexivity. }
  destruct (filter (same_array "image") fs); [contradiction|discriminate H].
Qed.

(** X7.  The separator ";" ends the block loop at once and without an
    error report, from any position: only the separator is added, so no
    image field, and what follows it is not read.  For every stream whose
    parse ends without an image field, as it does when the terminator
    comes before any image, createContentSize fails on the lookup of
    image[0]. *)
Theorem terminator_ends_parse (self_size : option Z) (p : Z)
    (rest : list byte) (o : list field) (l : list string) :
  while_true (GifFile_block self_size) (mkState p 0 (x3b :: rest) o l)
  = Done tt
      (mkState (p + 1) 0 rest
         (o ++ [separator_field
                  (List.length (filter (same_array "separator") o))
                  (8 * p) x3b]) l)
  /\ count_images
       (o ++ [separator_field
                (List.length (filter (same_array "separator") o))
                (8 * p) x3b])
     = count_images o
  /\ (forall stream st',
        parse self_size stream = Done tt st' ->
        count_images (out st') = 0%nat ->
        createContentSize self_size stream
        = inl (MissingField (Item "image" 0))).
Proof.
  split; [apply block_loop_terminator|]. split.
  - unfold count_images. rewrite filter_app, length_app. cbn. lia.
  - intros stream st' Hp Hc. unfold createContentSize, root_getitem.
    rewrite Hp. rewrite (no_image_lookup _ Hc). reflexivity.
Qed.

Lemma terminator_ends_parse_witness :
  createContentSize None
    (bytes "GIF89a" ++ [x02; x00; x02; x00; x00; x00; x00;
                        x21; x01; x02; x61; x62; x00; x3b; x2c])
  = inl (MissingField (Item "image" 0)).
Proof.
  refine (proj2 (proj2 (terminator_ends_parse None 0 [] [] []))
            (bytes "GIF89a" ++ [x02; x00; x02; x00; x00; x00; x00;
                                x21; x01; x02; x61; x62; x00; x3b; x2c])
            _ _ _).
  - vm_compute. reflexivity.
  - vm_compute. reflexivity.
Defined.

Lemma count_other_snoc base o f :
  same_array base f = false ->
  List.length (filter (same_array base) (o ++ [f]))
  = List.length (filter (same_array base) o).
Proof.
  intros Hf. rewrite filter_app, length_app. cbn [filter]. rewrite Hf.
  cbn. lia.
Qed.

Lemma block_image_any self_size p rest o l f :
  Image (Array "image") (mkState (p + 1) 0 rest [] []) = Built f tt ->
  while_true (GifFile_block self_size) (mkState p 0 (x2c :: rest) o l)
  = match
      match self_size with
      | Some size =>
          if addr (addField
                     (mkState (p + 1) 0 rest
                        (o ++ [separator_field
                                 (List.length
                                    (filter (same_array "separator") o))
                                 (8 * p) x2c]) l) f) <? size
          then yield (seekBit size (Name "end"))
                 (addField
                    (mkState (p + 1) 0 rest
                       (o ++ [separator_field
                                (List.length
                                   (filter (same_array "separator") o))
                                (8 * p) x2c]) l) f)
          else Done tt
                 (addField
                    (mkState (p + 1) 0 rest
                       (o ++ [separator_field
                                (List.length
                                   (filter (same_array "separator") o))
                                (8 * p) x2c]) l) f)
      | None =>
          Done tt
            (addField
               (mkState (p + 1) 0 rest
                  (o ++ [separator_field
                           (List.length (filter (same_array "separator") o))
                           (8 * p) x2c]) l) f)
      end
    with
    | Done _ st' => Done tt st'
    | Raise e st' => Raise e st'
    end.
Proof.
  intros HI. rewrite while_true_cons.
  destruct (GifFile_block_separator self_size p x2c rest o l)
    as (k & -> & ->).
  change (Byte.eqb x2c x21) with false. change (Byte.eqb x2c x2c) with true.
  cbv beta iota. rewrite bind_eq.
  set (st0 := mkState (p + 1) 0 rest
                (o ++ [separator_field
                         (List.length (filter (same_array "separator") o))
                         (8 * p) x2c]) l).
  assert (HI' : Image (Array "image") st0 = Built f tt) by exact HI.
  rewrite (yield_Built _ _ _ _ HI'). rewrite bind_eq.
  destruct self_size as [size|]; [|reflexivity].
  destruct (addr (addField st0 f) <? size); [|reflexivity].
  destruct (yield _ _); reflexivity.
Qed.

(** X8.  An image block ends the parse.  After the separator "," and an
    image descriptor that is built, with or without a local colour table,
    createFields returns: the image field is the next image[i] of the
    field set and the bytes after it, whatever they are, are not parsed as
    blocks.  When the size of the root is unknown, or not larger than the
    position reached, nothing is added; otherwise a single padding field
    named "end" is added that runs from the end of the image field up to
    the size of the root. *)
Theorem image_block_is_terminal (p : Z) (rest : list byte) (o : list field)
    (l : list string) (f : field) :
  Image (Array "image") (mkState (p + 1) 0 rest [] []) = Built f tt ->
  let st := mkState p 0 (x2c :: rest) o l in
  let separator :=
    separator_field (List.length (filter (same_array "separator") o))
      (8 * p) x2c in
  let image := setUniqueFieldName (o ++ [separator]) f in
  let stop := 8 * (p + 1) + f_size f in
  let st1 := addField (mkState (p + 1) 0 rest (o ++ [separator]) l) f in
  f_name image = Item "image" (count_images o)
  /\ f_address image = 8 * (p + 1)
  /\ out st1 = o ++ [separator; image]
  /\ addr st1 = stop
  /\ input st1 = skipn (Z.to_nat (f_size f / 8)) rest
  /\ while_true (GifFile_block None) st = Done tt st1
  /\ (forall size,
        size <= stop ->
        while_true (GifFile_block (Some size)) st = Done tt st1)
  /\ (forall size,
        stop < size ->
        exists st' e,
          while_true (GifFile_block (Some size)) st = Done tt st'
          /\ out st' = o ++ [separator; image; e]
          /\ f_name e = Name "end"
          /\ f_address e = stop
          /\ f_size e = size - stop
          /\ addr st' = size
          /\ log st' = l).
Proof.
  intros HI st separator image stop st1.
  assert (Hn : f_name f = Array "image")
    by (eapply declares_FieldSet; exact HI).
  assert (Ha : f_address f = 8 * (p + 1)).
  { revert HI. unfold Image, FieldSet.
    destruct (Image_createFields _); intros E; [|discriminate].
    apply Built_inj in E. subst f. unfold addr. cbn [f_address byte_pos bit].
    lia. }
  assert (Hstop : addr st1 = stop).
  { unfold st1. rewrite addr_addField. unfold addr, stop.
    cbn [byte_pos bit]. lia. }
  assert (Hout : out st1 = o ++ [separator; image]).
  { unfold st1, addField. cbn [out]. rewrite <- app_assoc. reflexivity. }
  split.
  { unfold image, setUniqueFieldName. rewrite Hn. cbn [f_name].
    unfold count_images. rewrite count_other_snoc by reflexivity.
    reflexivity. }
  split.
  { unfold image, setUniqueFieldName. rewrite Hn. cbn [f_address].
    exact Ha. }
  split; [exact Hout|]. split; [exact Hstop|]. split; [reflexivity|].
  split; [|split].
  - unfold st. rewrite (block_image_any None p rest o l f HI). reflexivity.
  - intros size Hsize. unfold st.
    rewrite (block_image_any (Some size) p rest o l f HI).
    fold separator. fold st1. rewrite Hstop.
    destruct (Z.ltb_spec stop size); [lia|]. reflexivity.
  - intros size Hsize. unfold st.
    rewrite (block_image_any (Some size) p rest o l f HI).
    fold separator. fold st1. rewrite Hstop.
    destruct (Z.ltb_spec stop size); [|lia].
    unfold yield, seekBit. eexists. eexists. split; [reflexivity|].
    rewrite addr_addField. unfold addField.
    cbn [out log f_size setUniqueFieldName f_name f_address].
    rewrite Hout, Hstop, <- app_assoc. cbn [app].
    repeat split; first [lia | reflexivity].
Qed.

Lemma image_block_is_terminal_witness :
  exists f,
    Image (Array "image")
      (mkState 14 0
         [x00; x00; x00; x00; x01; x00; x01; x00; x80;
          x00; x00; x00; xff; xff; xff; x2c; x21; x3b] [] [])
    = Built f tt
    /\ f_size f = 120
    /\ while_true (GifFile_block None)
         (mkState 13 0
            [x2c; x00; x00; x00; x00; x01; x00; x01; x00; x80;
             x00; x00; x00; xff; xff; xff; x2c; x21; x3b] [] [])
       = Done tt
           (addField
              (mkState 14 0
                 [x00; x00; x00; x00; x01; x00; x01; x00; x80;
                  x00; x00; x00; xff; xff; xff; x2c; x21; x3b]
                 ([] ++ [separator_field 0 104 x2c]) []) f).
Proof.
  eexists. split; [vm_compute; reflexivity|]. split; [reflexivity|].
  refine (proj1 (proj2 (proj2 (proj2 (proj2 (proj2
            (image_block_is_terminal 13
               [x00; x00; x00; x00; x01; x00; x01; x00; x80;
                x00; x00; x00; xff; xff; xff; x2c; x21; x3b] [] [] _ _))))))).
  vm_compute. reflexivity.
Defined.

(** ** Unknown extensions *)

Lemma counts_after_block o i j a v a' s :
  List.length (filter (same_array "size")
                 (o ++ [size_field i a v; content_field j a' s]))
  = S (List.length (filter (same_array "size") o))
  /\ List.length (filter (same_array "content")
                    (o ++ [size_field i a v; content_field j a' s]))
     = S (List.length (filter (same_array "content") o)).
Proof.
  rewrite !filter_app, !length_app. split; cbn; lia.
Qed.

Lemma defaultExtensionParser_run blocks :
  Forall (fun s => (0 < List.length s <= 255)%nat) blocks ->
  forall p rest o l,
    defaultExtensionParser
      (mkState p 0 (pascal_strings blocks ++ x00 :: rest) o l)
    = Done tt
        (mkState (p + Z.of_nat (List.length (pascal_strings blocks)) + 1)
           0 rest
           (o ++ sub_block_fields
                   (List.length (filter (same_array "size") o))
                   (List.length (filter (same_array "content") o))
                   (8 * p) blocks
              ++ [size_field
                    (List.length (filter (same_array "size") o)
                     + List.length blocks)
                    (8 * p
                     + 8 * Z.of_nat (List.length (pascal_strings blocks)))
                    0]) l).
Proof.
  unfold defaultExtensionParser.
  induction 1 as [|s blocks Hs Hall IH]; intros p rest o l.
  - cbn [app pascal_strings sub_block_fields List.length].
    apply while_true_break. step.
    change (0 <? byte_val x00) with false. unfold ret, size_field.
    change (byte_val x00) with 0. rewrite Nat.add_0_r. tree_eq.
  - cbn [app pascal_strings sub_block_fields]. rewrite <- app_assoc.
    match goal with
    | |- while_true ?body ?st = _ =>
        assert (Hb : body st
                     = Done true
                         (mkState (p + (1 + Z.of_nat (List.length s))) 0
                            (pascal_strings blocks ++ x00 :: rest)
                            (o ++ [size_field
                                     (List.length
                                        (filter (same_array "size") o))
                                     (8 * p) (Z.of_nat (List.length s));
                                   content_field
                                     (List.length
                                        (filter (same_array "content") o))
                                     (8 * p + 8) s]) l))
    end.
    { step. rewrite byte_val_of_Z by lia.
      destruct (Z.ltb_spec 0 (Z.of_nat (List.length s))) as [_|Hn]; [|lia].
      rewrite bind_eq. unfold RawBytes.
      rewrite (yield_Built _ _ _ _ (bytes_field_app _ _ _ _ _ _ _ _)).
      rewrite (addField_bytes _ _ _ _ _ (Z.of_nat (List.length s)))
        by first [reflexivity | lia].
      rewrite Nat2Z.id, skipn_app, skipn_all, Nat.sub_diag.
      cbn [skipn app setUniqueFieldName f_name f_class f_address f_size
           f_value f_description f_text_handler f_fields]. unfold ret.
      rewrite count_other_snoc by reflexivity.
      rewrite <- app_assoc. cbn [app].
      unfold size_field, content_field. tree_eq. }
    rewrite (while_true_continue _ _ _ _ Hb
               ltac:(cbn [input List.length]; rewrite !length_app; lia)
               (IH _ rest _ l) ltac:(discriminate)).
    destruct (counts_after_block o
                (List.length (filter (same_array "size") o))
                (List.length (filter (same_array "content") o))
                (8 * p) (Z.of_nat (List.length s)) (8 * p + 8) s)
      as [Hc1 Hc2].
    rewrite Hc1, Hc2. rewrite <- !app_assoc. cbn [app List.length].
    rewrite length_app. tree_eq.
Qed.

(** X9.  An extension whose code is none of 0xF9, 0xFE and 0xFF is read as
    sub-blocks: for every non-empty sub-block a field size[i] and a field
    content[i] with that many bytes, then a last size field of value 0 that
    ends the extension; the bytes after it are left to the block loop.  The
    extension keeps its declared name and has no description. *)
Theorem unknown_extension_sub_blocks (n : fname) (p : Z) (code : byte)
    (blocks : list (list byte)) (rest : list byte) (o : list field)
    (l : list string) :
  byte_val code <> 0xf9 -> byte_val code <> 0xfe -> byte_val code <> 0xff ->
  Forall (fun s => (0 < List.length s <= 255)%nat) blocks ->
  let len := Z.of_nat (List.length (pascal_strings blocks)) in
  Extension n (mkState p 0 (code :: pascal_strings blocks ++ x00 :: rest) o l)
  = Built (mkField n cExtension (8 * p) (8 * (len + 2)) NoV None None
             (Extension_code_field (8 * p) code
              :: sub_block_fields 0 0 (8 * p + 8) blocks
              ++ [size_field (List.length blocks) (8 * p + 8 + 8 * len) 0]))
          tt.
Proof.
  intros H1 H2 H3 Hall len. rewrite Extension_run.
  unfold Extension_init, ext_code.
  rewrite (proj2 (Z.eqb_neq _ _) H1), (proj2 (Z.eqb_neq _ _) H2),
    (proj2 (Z.eqb_neq _ _) H3).
  cbn [fst snd]. unfold FieldSet, children_state. cbn [byte_pos bit input].
  rewrite Extension_createFields_run.
  rewrite defaultExtensionParser_run by exact Hall.
  unfold addr. cbn [byte_pos bit out app filter same_array f_name
                    Extension_code_field List.length Nat.add].
  fold len. tree_eq.
Qed.

Lemma unknown_extension_sub_blocks_witness :
  Extension (Array "extensions")
    (mkState 14 0 [x01; x02; x61; x62; x01; x63; x00; x3b] [] [])
  = Built (mkField (Array "extensions") cExtension 112 56 NoV None None
             [ Extension_code_field 112 x01;
               size_field 0 120 2; content_field 0 128 [x61; x62];
               size_field 1 144 1; content_field 1 152 [x63];
               size_field 2 160 0 ]) tt.
Proof.
  apply (unknown_extension_sub_blocks (Array "extensions") 14 x01
           [[x61; x62]; [x63]] [x3b] [] []);
    try (vm_compute; discriminate).
  repeat constructor.
Defined.

(** ** Application extensions with an opaque payload *)

(** X10.  In an application extension whose name is not "NETSCAPE2.0", or
    whose size byte is not 3, the size byte is followed by that many raw
    bytes (here at least one) and by the terminator: the fields are
    app_name, size, raw and terminator, and no loop count is read. *)
Theorem application_extension_raw (p : Z) (name data rest : list byte)
    (o : list field) (l : list string) :
  (List.length name <= 255)%nat ->
  (0 < List.length data <= 255)%nat ->
  name <> bytes "NETSCAPE2.0" \/ List.length data <> 3%nat ->
  parseApplicationExtension
    (mkState p 0
       (byte_of_Z (Z.of_nat (List.length name)) :: name
        ++ byte_of_Z (Z.of_nat (List.length data)) :: data ++ x00 :: rest)
       o l)
  = Done tt
      (mkState
         (p + Z.of_nat (List.length name) + Z.of_nat (List.length data) + 3)
         0 rest (o ++ application_fields (8 * p) name data) l).
Proof.
  intros Hname Hdata Hother. unfold parseApplicationExtension.
  rewrite bind_eq, yield_PascalString8 by exact Hname.
  cbn [snd setUniqueFieldName f_name].
  step. rewrite byte_val_of_Z by lia.
  replace (bytes_eqb name (bytes "NETSCAPE2.0")
           && (Z.of_nat (List.length data) =? 3)) with false.
  2:{ symmetry. apply andb_false_iff. destruct Hother as [Hn|Hd].
      - left. apply bytes_eqb_neq. exact Hn.
      - right. apply Z.eqb_neq. lia. }
  rewrite !bind_eq. unfold RawBytes.
  rewrite (yield_Built _ _ _ _ (bytes_field_app _ _ _ _ _ _ _ _)).
  rewrite (addField_bytes _ _ _ _ _ (Z.of_nat (List.length data)))
    by first [reflexivity | lia].
  rewrite Nat2Z.id, skipn_app, skipn_all, Nat.sub_diag.
  cbn [skipn app setUniqueFieldName f_name f_class f_address f_size
       f_value f_description f_text_handler f_fields].
  unfold ret at 1. cbv beta iota.
  yield_step.
  unfold application_fields, leaf. cbv zeta.
  rewrite <- !app_assoc. cbn [app]. tree_eq.
Qed.

Lemma application_extension_raw_witness :
  parseApplicationExtension
    (mkState 15 0 [x03; x58; x4d; x50; x02; x01; x02; x00; x3b] [] [])
  = Done tt
      (mkState 23 0 [x3b]
         (application_fields 120 [x58; x4d; x50] [x01; x02]) []).
Proof.
  apply (application_extension_raw 15 [x58; x4d; x50] [x01; x02] [x3b] [] []).
  - cbn. lia.
  - cbn. lia.
  - left. discriminate.
Defined.

(** X11.  In a "NETSCAPE2.0" application extension with size 3 whose
    sub-code is not 1, the two bytes after the sub-code are kept as a raw
    field instead of a loop count; the terminator follows. *)
Theorem netscape_other_code (p : Z) (code d0 d1 : byte) (rest : list byte)
    (o : list field) (l : list string) :
  byte_val code <> 1 ->
  parseApplicationExtension
    (mkState p 0
       (x0b :: bytes "NETSCAPE2.0" ++ x03 :: code :: d0 :: d1 :: x00 :: rest)
       o l)
  = Done tt
      (mkState (p + 17) 0 rest
         (o ++ NETSCAPE_raw_fields (8 * p) code d0 d1) l).
Proof.
  intros Hcode. unfold parseApplicationExtension.
  rewrite bind_eq.
  rewrite (yield_Built _ _ _ _ (PascalString8_netscape _ _ _ _ _ _)).
  rewrite (addField_bytes _ _ _ _ _ 12) by first [reflexivity | lia].
  change (skipn (Z.to_nat 12) (x0b :: bytes "NETSCAPE2.0" ++
            x03 :: code :: d0 :: d1 :: x00 :: rest))
    with (x03 :: code :: d0 :: d1 :: x00 :: rest).
  step.
  change (bytes_eqb (bytes "NETSCAPE2.0") (bytes "NETSCAPE2.0")
          && (byte_val x03 =? 3)) with true.
  cbv iota. rewrite !bind_eq. yield_step.
  rewrite (proj2 (Z.eqb_neq _ _) Hcode).
  rewrite !bind_eq. unfold RawBytes.
  change (d0 :: d1 :: x00 :: rest) with ([d0; d1] ++ x00 :: rest).
  change 2 with (Z.of_nat (List.length [d0; d1])).
  rewrite (yield_Built _ _ _ _ (bytes_field_app _ _ _ _ _ _ _ _)).
  rewrite (addField_bytes _ _ _ _ _ 2) by first [reflexivity | lia].
  change (skipn (Z.to_nat 2) ([d0; d1] ++ x00 :: rest)) with (x00 :: rest).
  cbn [setUniqueFieldName f_name f_class f_address f_size
       f_value f_description f_text_handler f_fields].
  unfold ret at 1. cbv beta iota.
  yield_step.
  unfold NETSCAPE_raw_fields, leaf.
  rewrite <- !app_assoc. cbn [app List.length].
  change (byte_val x03) with 3.
  tree_eq.
Qed.

Lemma netscape_other_code_witness :
  parseApplicationExtension
    (mkState 15 0
       (x0b :: bytes "NETSCAPE2.0" ++ [x03; x02; xaa; xbb; x00; x3b]) [] [])
  = Done tt
      (mkState 32 0 [x3b] (NETSCAPE_raw_fields 120 x02 xaa xbb) []).
Proof.
  apply (netscape_other_code 15 x02 xaa xbb [x3b] [] []).
  vm_compute. discriminate.
Defined.

(** ** Descriptions *)

Lemma byte_bits_range b s n :
  0 <= s -> 0 <= n -> 0 <= byte_bits b s n < 2 ^ n.
Proof.
  intros Hs Hn. unfold byte_bits. rewrite Z.land_ones by exact Hn.
  apply Z.mod_pos_bound. apply Z.pow_pos_nonneg; lia.
Qed.

(** X12.  createDescription of a screen descriptor parsed from seven
    bytes never fails: it returns "Screen descriptor: WxH, N colors" with
    the width and the height read from the first four bytes and
    N = 2^(bpp+1), bpp being bits 0-2 of the fifth byte; N lies between 2
    and 256.  The field keeps the description it was created with:
    createFields of the file creates the screen descriptor with the
    description "Screen descriptor", so there createDescription is not what
    sets the description. *)
Theorem ScreenDescriptor_createDescription_ok (n : fname) (d : option string)
    (p : Z) (b0 b1 b2 b3 b4 b5 b6 : byte) (rest : list byte)
    (o : list field) (l : list string) :
  exists f,
    ScreenDescriptor n d
      (mkState p 0 (b0 :: b1 :: b2 :: b3 :: b4 :: b5 :: b6 :: rest) o l)
    = Built f tt
    /\ ScreenDescriptor_createDescription f
       = inr ("Screen descriptor: "
              ++ format_u (byte_val b0 + 256 * byte_val b1) ++ "x"
              ++ format_u (byte_val b2 + 256 * byte_val b3) ++ ", "
              ++ format_u (2 ^ (byte_bits b4 0 3 + 1)) ++ " colors")%string
    /\ 2 <= 2 ^ (byte_bits b4 0 3 + 1) <= 256
    /\ f_description f = d.
Proof.
  eexists. split; [apply ScreenDescriptor_run|]. split; [|split].
  - unfold ScreenDescriptor_createDescription, getValue, getField.
    cbn [f_fields ScreenDescriptor_fields find leaf f_name fname_eqb
         String.eqb Ascii.eqb Bool.eqb value_int f_value].
    cbv zeta. rewrite Z.shiftl_1_l. reflexivity.
  - pose proof (byte_bits_range b4 0 3 ltac:(lia) ltac:(lia)) as H.
    change (2 ^ 3) with 8 in H.
    split.
    + change 2 with (2 ^ 1) at 1. apply Z.pow_le_mono_r; lia.
    + change 256 with (2 ^ 8). apply Z.pow_le_mono_r; lia.
  - reflexivity.
Qed.

(** X13.  The description of a parsed image never fails, with or without
    a local colour table: it is "Image: WxH pixels at (L,T)" with left,
    top, width and height read from the first eight bytes of the
    descriptor. *)
Theorem Image_description (n : fname) (p : Z)
    (b0 b1 b2 b3 b4 b5 b6 b7 b8 : byte) (rest : list byte) (o : list field)
    (l : list string) (f : field) :
  Image n
    (mkState p 0 (b0 :: b1 :: b2 :: b3 :: b4 :: b5 :: b6 :: b7 :: b8 :: rest)
       o l)
  = Built f tt ->
  Image_createDescription f
  = inr ("Image: " ++ format_u (byte_val b4 + 256 * byte_val b5) ++ "x"
         ++ format_u (byte_val b6 + 256 * byte_val b7) ++ " pixels at ("
         ++ format_u (byte_val b0 + 256 * byte_val b1) ++ ","
         ++ format_u (byte_val b2 + 256 * byte_val b3) ++ ")")%string.
Proof.
  unfold Image, FieldSet, children_state. cbn [byte_pos bit input].
  rewrite Image_createFields_head.
  assert (Hd : forall tail a s,
             Image_createDescription
               (mkField n cImage a s NoV None None
                  (Image_fields (8 * p) b0 b1 b2 b3 b4 b5 b6 b7 b8 ++ tail))
             = inr ("Image: " ++ format_u (byte_val b4 + 256 * byte_val b5)
                    ++ "x" ++ format_u (byte_val b6 + 256 * byte_val b7)
                    ++ " pixels at ("
                    ++ format_u (byte_val b0 + 256 * byte_val b1) ++ ","
                    ++ format_u (byte_val b2 + 256 * byte_val b3) ++ ")")%string).
  { intros tail a s. unfold Image_createDescription, getValue, getField.
    cbn [f_fields Image_fields app find leaf f_name fname_eqb
         String.eqb Ascii.eqb Bool.eqb value_int f_value].
    reflexivity. }
  destruct (byte_bits b8 7 1 =? 1).
  - unfold yield.
    destruct (PaletteRGB _ _ _ _) as [fp []|e]; [|discriminate].
    unfold addField. cbn [out app]. intros H. apply Built_inj in H. subst f.
    apply Hd.
  - unfold ret. cbn [out app]. intros H. apply Built_inj in H. subst f.
    rewrite <- (app_nil_r (Image_fields _ _ _ _ _ _ _ _ _ _)). apply Hd.
Qed.

Lemma Image_description_witness :
  exists f,
    Image (Array "image")
      (mkState 14 0 [x01; x00; x02; x00; x0a; x00; x14; x00; x00; x3b] [] [])
    = Built f tt
    /\ Image_createDescription f = inr "Image: 10x20 pixels at (1,2)"%string.
Proof.
  eexists. split; [vm_compute; reflexivity|].
  refine (Image_description (Array "image") 14
            x01 x00 x02 x00 x0a x00 x14 x00 x00 [x3b] [] [] _ _).
  vm_compute. reflexivity.
Defined.

(** ** Names of the extensions *)

(** X14.  An extension takes its name from its code: "graphic_ctl" for
    0xF9, "comments" for 0xFE, the array name "app_ext[]" for 0xFF, and the
    name it was declared with for any other code.  Its first child is
    always the code field, shown in hexadecimal, at the address of the
    extension. *)
Theorem Extension_name_by_code (n : fname) (p : Z) (code : byte)
    (rest : list byte) (o : list field) (l : list string) (f : field) :
  Extension n (mkState p 0 (code :: rest) o l) = Built f tt ->
  f_name f
  = (if byte_val code =? 0xf9 then Name "graphic_ctl"
     else if byte_val code =? 0xfe then Name "comments"
     else if byte_val code =? 0xff then Array "app_ext"
     else n)
  /\ f_address f = 8 * p
  /\ nth_error (f_fields f) 0 = Some (Extension_code_field (8 * p) code)
  /\ f_text_handler (Extension_code_field (8 * p) code) = Some hexadecimal.
Proof.
  intros H. pose proof H as H0. apply Extension_built in H0.
  destruct H0 as (_ & Hn & _).
  split.
  { rewrite Hn. unfold Extension_init, ext_code.
    destruct (_ =? 249); [reflexivity|].
    destruct (_ =? 254); [reflexivity|].
    destruct (_ =? 255); reflexivity. }
  rewrite Extension_run in H. unfold FieldSet, children_state in H.
  cbn [byte_pos bit input] in H. rewrite Extension_createFields_run in H.
  pose proof (Extension_init_not_func n (byte_val code)) as Hy.
  destruct (Extension_init n (byte_val code)) as [[nm parser] d].
  cbn [fst snd] in *.
  specialize (Hy (mkState (p + 1) 0 rest
                    ([] ++ [Extension_code_field (8 * p) code]) [])).
  destruct Hy as (more & E & _).
  destruct (parser _) as [[] st'|e st']; [|discriminate].
  apply Built_inj in H. subst f. cbn [f_address f_fields final out] in *.
  rewrite E. unfold addr. cbn [byte_pos bit app nth_error].
  repeat split; first [lia | reflexivity].
Qed.

Lemma Extension_name_by_code_witness :
  exists f,
    Extension (Array "extensions")
      (mkState 14 0
         (xff :: x0b :: bytes "NETSCAPE2.0" ++ [x03; x01; x00; x00; x00])
         [] [])
    = Built f tt
    /\ f_name f = Array "app_ext".
Proof.
  eexists. split; [vm_compute; reflexivity|].
  refine (proj1 (Extension_name_by_code (Array "extensions") 14 xff
                   (x0b :: bytes "NETSCAPE2.0" ++ [x03; x01; x00; x00; x00])
                   [] [] _ _)).
  vm_compute. reflexivity.
Defined.

(** ** At most one image *)

Lemma no_image_unique fs f :
  f_name f <> Array "image" -> is_image (f_name f) = false ->
  no_image (setUniqueFieldName fs f).
Proof.
  unfold no_image, same_array, setUniqueFieldName. intros Ha Hi.
  destruct (f_name f) as [s|b|b i] eqn:E; cbn [f_name]; rewrite ?E;
    try reflexivity.
  - destruct (String.eqb_spec b "image"); [congruence|reflexivity].
  - exact Hi.
Qed.

Lemma count_images_none fs : Forall no_image fs -> count_images fs = 0%nat.
Proof.
  unfold count_images. induction 1 as [|f fs Hf Hfs IH]; cbn [filter].
  - reflexivity.
  - rewrite Hf. exact IH.
Qed.

Lemma only_image0_none fs : Forall no_image fs -> Forall only_image0 fs.
Proof.
  intros H. eapply Forall_impl; [|exact H].
  intros f Hf Hi. unfold no_image in Hf. congruence.
Qed.

Lemma image_from_none lo fs :
  Forall no_image fs -> Forall (image_from lo) fs.
Proof.
  intros H. eapply Forall_impl; [|exact H].
  intros f Hf Hi. unfold no_image in Hf. congruence.
Qed.

Ltac no_images Hall :=
  split; [rewrite <- ?app_assoc; reflexivity|];
  split; [rewrite (count_images_none _ Hall); lia|];
  split; [apply only_image0_none; exact Hall|];
  split; [apply image_from_none; exact Hall|];
  intros; first [discriminate | apply (count_images_none _ Hall)].

Lemma block_images self_size st :
  count_images (out st) = 0%nat ->
  exists more,
    out (final (GifFile_block self_size st)) = out st ++ more
    /\ (count_images more <= 1)%nat
    /\ Forall only_image0 more
    /\ Forall (image_from (addr st + 8)) more
    /\ (forall r, GifFile_block self_size st = Done true r ->
                  count_images more = 0%nat).
Proof.
  destruct st as [p b inp o l]. cbn [out]. intros Hcount.
  set (lo := addr (mkState p b inp o l) + 8).
  assert (Hstop : forall e,
             exists more,
               out (final (@Raise bool e (mkState p b inp o l))) = o ++ more
               /\ (count_images more <= 1)%nat
               /\ Forall only_image0 more
               /\ Forall (image_from lo) more
               /\ (forall r, @Raise bool e (mkState p b inp o l) = Done true r
                             -> count_images more = 0%nat)).
  { intros e. exists []. rewrite app_nil_r. cbn [final out].
    split; [reflexivity|]. split; [cbn; lia|]. split; [constructor|].
    split; [constructor|]. intros r H. discriminate H. }
  destruct (Z.eq_dec b 0) as [Eb|Hb]; [subst b|].
  2:{ unfold GifFile_block. rewrite bind_eq.
      rewrite yield_Failed with (e := UnalignedRead); [apply Hstop|].
      unfold Enum, with_handler, Character, readBytes. cbn [bit].
      rewrite (proj2 (Z.eqb_neq b 0) Hb). reflexivity. }
  destruct inp as [|ch rest].
  { unfold GifFile_block. rewrite bind_eq.
    rewrite yield_Failed with (e := TruncatedInput); [apply Hstop|].
    reflexivity. }
  destruct (GifFile_block_separator self_size p ch rest o l) as (k & -> & ->).
  clear Hstop. cbv beta.
  set (sep := separator_field _ _ ch).
  assert (Hsep : no_image sep) by reflexivity.
  destruct (Byte.eqb ch x21).
  { rewrite bind_eq. unfold yield at 1.
    destruct (Extension (Array "extensions") _) as [f a|e] eqn:E.
    - unfold ret, addField. cbn [final out].
      exists [sep; setUniqueFieldName (o ++ [sep]) f].
      assert (Hf : no_image (setUniqueFieldName (o ++ [sep]) f)).
      { apply Extension_name in E.
        apply no_image_unique;
          destruct E as [-> | [-> | [-> | ->]]];
          first [reflexivity | discriminate]. }
      assert (Hall : Forall no_image [sep; setUniqueFieldName (o ++ [sep]) f])
        by (repeat constructor; assumption).
      no_images Hall.
    - cbn [final out]. exists [sep].
      assert (Hall : Forall no_image [sep]) by (repeat constructor).
      no_images Hall. }
  destruct (Byte.eqb ch x2c).
  2:{ assert (Hall : Forall no_image [sep]) by (repeat constructor).
      destruct (Byte.eqb ch x3b).
      - unfold ret. cbn [final out]. exists [sep]. no_images Hall.
      - rewrite bind_eq. unfold error, ret. cbn [final out]. exists [sep].
        no_images Hall. }
  rewrite bind_eq. unfold yield at 1.
  destruct (Image (Array "image") _) as [f a|e] eqn:E.
  2:{ cbn [final out]. exists [sep].
      assert (Hall : Forall no_image [sep]) by (repeat constructor).
      no_images Hall. }
  assert (Ha : f_address f = 8 * (p + 1)).
  { revert E. unfold Image, FieldSet.
    destruct (Image_createFields _); intros E; [|discriminate].
    apply Built_inj in E. subst f. unfold addr. cbn [f_address byte_pos bit].
    lia. }
  apply declares_FieldSet in E.
  set (img := setUniqueFieldName (o ++ [sep]) f).
  assert (Hlate : image_from lo img).
  { intros _. unfold img, setUniqueFieldName. rewrite E. cbn [f_address].
    rewrite Ha. unfold lo, addr. cbn [byte_pos bit]. lia. }
  assert (Hslate : image_from lo sep) by (intros H; discriminate H).
  assert (Himg : f_name img = Item "image" 0).
  { unfold img, setUniqueFieldName. rewrite E. cbn [f_name].
    rewrite count_other_snoc by reflexivity.
    unfold count_images in Hcount. rewrite Hcount. reflexivity. }
  assert (Hi0 : only_image0 img) by (intros _; exact Himg).
  assert (Hs0 : only_image0 sep) by (intros H; discriminate H).
  assert (Hci : same_array "image" img = true)
    by (unfold same_array; rewrite Himg; reflexivity).
  rewrite bind_eq.
  assert (Hend : forall st1 : pstate,
             out st1 = (o ++ [sep]) ++ [img] ->
             exists more,
               out (final
                      (match
                         match self_size with
                         | Some size =>
                             if addr st1 <? size
                             then yield (seekBit size (Name "end")) st1
                             else Done tt st1
                         | None => Done tt st1
                         end
                       with
                       | Done _ st' => ret false st'
                       | Raise e st' => Raise e st'
                       end)) = o ++ more
               /\ (count_images more <= 1)%nat
               /\ Forall only_image0 more
               /\ Forall (image_from lo) more).
  { intros st1 Hout.
    assert (H2 : exists more,
               out st1 = o ++ more /\ (count_images more <= 1)%nat
               /\ Forall only_image0 more
               /\ Forall (image_from lo) more).
    { exists [sep; img]. rewrite Hout, <- app_assoc.
      split; [reflexivity|].
      split; [|split; repeat constructor; assumption].
      unfold count_images. cbn [filter]. rewrite Hci. cbn. lia. }
    destruct self_size as [size|]; [|exact H2].
    destruct (addr st1 <? size); [|exact H2].
    unfold yield, seekBit, ret, addField. cbn [final out].
    exists [sep; img; setUniqueFieldName (out st1)
                        (mkField (Name "end") cRawBytes (addr st1)
                           (size - addr st1) NoV None None [])].
    rewrite Hout, <- !app_assoc. split; [reflexivity|].
    split;
      [|split; repeat constructor; try assumption; intros H; discriminate H].
    unfold count_images. cbn [filter]. rewrite Hci. cbn. lia. }
  destruct (Hend (addField (mkState (p + 1) 0 rest (o ++ [sep]) l) f) eq_refl)
    as (more & E1 & E2 & E3 & E4).
  exists more. repeat split; try assumption.
  intros r Hr. exfalso. revert Hr. clear.
  match goal with |- context [yield ?c ?s] => destruct (yield c s) end;
    [|discriminate].
  rewrite bind_eq.
  destruct self_size as [size|].
  - match goal with |- context [?a <? size] => destruct (a <? size) end;
      [|discriminate].
    match goal with |- context [yield ?c ?s] => destruct (yield c s) end;
      discriminate.
  - discriminate.
Qed.

Lemma count_images_app a b :
  count_images (a ++ b) = (count_images a + count_images b)%nat.
Proof. unfold count_images. rewrite filter_app, length_app. reflexivity. Qed.

Lemma one_image_after {A B} (m : M A) (k : A -> M B) :
  yields no_image m -> (forall a, one_image (k a)) -> one_image (bind m k).
Proof.
  intros Hm Hk st H0. unfold bind.
  destruct (Hm st) as (m1 & E1 & F1).
  destruct (m st) as [a st1|e st1]; cbn [final] in *.
  - destruct (Hk a st1) as (m2 & E2 & C2 & F2).
    { rewrite E1, count_images_app, H0, (count_images_none _ F1).
      reflexivity. }
    exists (m1 ++ m2). rewrite E2, E1, app_assoc.
    split; [reflexivity|]. split.
    + rewrite count_images_app, (count_images_none _ F1). exact C2.
    + apply Forall_app. split; [apply only_image0_none; exact F1|exact F2].
  - exists m1. split; [exact E1|]. split.
    + rewrite (count_images_none _ F1). lia.
    + apply only_image0_none; exact F1.
Qed.

Lemma one_image_loop self_size n :
  one_image (loop n (GifFile_block self_size)).
Proof.
  induction n as [|n IH]; intros st H0; cbn [loop].
  - exists []. rewrite app_nil_r. cbn [raise final].
    split; [reflexivity|]. split; [cbn; lia|constructor].
  - destruct (block_images self_size st H0) as (m1 & E1 & C1 & F1 & _ & T1).
    destruct (GifFile_block self_size st) as [[|] st1|e st1];
      cbn [final] in *.
    + specialize (T1 st1 eq_refl).
      destruct (IH st1) as (m2 & E2 & C2 & F2).
      { rewrite E1, count_images_app, H0, T1. reflexivity. }
      exists (m1 ++ m2). rewrite E2, E1, app_assoc.
      split; [reflexivity|]. split.
      * rewrite count_images_app, T1. exact C2.
      * apply Forall_app. split; assumption.
    + exists m1. repeat split; assumption.
    + exists m1. repeat split; assumption.
Qed.

Lemma yields_plain_no_image {A} n (c : fieldc A) :
  declares n c -> is_image n = false -> n <> Array "image" ->
  yields no_image (yield c).
Proof.
  intros Hd Hi Ha. apply yields_yield. intros st f a E.
  apply no_image_unique; rewrite (Hd st f a E); assumption.
Qed.

Lemma one_image_createFields self_size :
  one_image (GifFile_createFields self_size).
Proof.
  unfold GifFile_createFields.
  apply one_image_after;
    [eapply yields_plain_no_image;
       [apply declares_bytes_field|reflexivity|discriminate]|intros _].
  apply one_image_after;
    [eapply yields_plain_no_image;
       [apply declares_FieldSet|reflexivity|discriminate]|intros _].
  apply one_image_after; [apply yields_getitem|intros gm].
  apply one_image_after.
  - destruct (value_true gm); [|apply yields_ret].
    apply yields_bind; [apply yields_getitem|intros bpp].
    eapply yields_plain_no_image;
      [apply declares_FieldSet|reflexivity|discriminate].
  - intros _ st. unfold while_true. apply one_image_loop.
Qed.

(** X15.  A parse yields at most one image field, and it is image[0]: the
    loop of the blocks stops after the first image descriptor, whatever
    follows in the stream. *)
Theorem parse_at_most_one_image (self_size : option Z) (stream : list byte) :
  (count_images (out (final (parse self_size stream))) <= 1)%nat
  /\ Forall only_image0 (out (final (parse self_size stream))).
Proof.
  destruct (one_image_createFields self_size (start stream) eq_refl)
    as (more & E & C & F).
  unfold parse. rewrite E. cbn [start out app]. split; assumption.
Qed.

(** ** The fields lie inside the stream *)

Lemma cursor_ok_addField total st f :
  cursor_ok total st -> 0 <= f_size f <= left_bits st ->
  cursor_ok total (addField st f).
Proof.
  unfold cursor_ok, left_bits, addr, addField. cbn [byte_pos bit input].
  intros (Hp & Hb & Hl & Ht) Hs.
  pose proof (Z.div_mod (bit st + f_size f) 8 ltac:(lia)) as Hd.
  pose proof (Z.mod_pos_bound (bit st + f_size f) 8 ltac:(lia)) as Hm.
  assert (Hq : 0 <= (bit st + f_size f) / 8) by (apply Z.div_pos; lia).
  rewrite length_skipn.
  set (q := (bit st + f_size f) / 8) in *.
  set (r := (bit st + f_size f) mod 8) in *.
  assert (Hle : (Z.to_nat q <= List.length (input st))%nat) by lia.
  rewrite Nat2Z.inj_sub by exact Hle. rewrite Z2Nat.id by exact Hq.
  lia.
Qed.

Lemma between_unique lo hi fs f :
  between lo hi f -> between lo hi (setUniqueFieldName fs f).
Proof.
  unfold between, setUniqueFieldName.
  destruct (f_name f); cbn [f_address f_size]; intros H; exact H.
Qed.

Lemma between_weaken lo lo' hi fs :
  lo' <= lo -> Forall (between lo hi) fs -> Forall (between lo' hi) fs.
Proof.
  intros Hl H. eapply Forall_impl; [|exact H].
  unfold between. intros f Hf. lia.
Qed.

Lemma bounded_same {A} total (m : M A) :
  (forall st, out (final (m st)) = out st
              /\ byte_pos (final (m st)) = byte_pos st
              /\ bit (final (m st)) = bit st
              /\ input (final (m st)) = input st) ->
  bounded total m.
Proof.
  intros H st H0. destruct (H st) as (Ho & Hp & Hb & Hi).
  unfold cursor_ok, left_bits, addr in *. rewrite Ho, Hp, Hb, Hi.
  split; [exact H0|]. split; [lia|].
  exists []. rewrite app_nil_r. split; [reflexivity|constructor].
Qed.

Lemma bounded_ret {A} total (a : A) : bounded total (ret a).
Proof. apply bounded_same. intros st. repeat split. Qed.

Lemma bounded_raise {A} total e : bounded total (@raise A e).
Proof. apply bounded_same. intros st. repeat split. Qed.

Lemma bounded_error total msg : bounded total (error msg).
Proof. apply bounded_same. intros st. repeat split. Qed.

Lemma bounded_getitem total path : bounded total (getitem path).
Proof.
  apply bounded_same. intros st. unfold getitem.
  destruct (getPath (out st) path); repeat split.
Qed.

Lemma bounded_bind {A B} total (m : M A) (k : A -> M B) :
  bounded total m -> (forall a, bounded total (k a)) ->
  bounded total (bind m k).
Proof.
  intros Hm Hk st H0. unfold bind.
  destruct (Hm st H0) as (H1 & L1 & m1 & E1 & F1).
  destruct (m st) as [a st1|e st1]; cbn [final] in *.
  - destruct (Hk a st1 H1) as (H2 & L2 & m2 & E2 & F2).
    split; [exact H2|]. split; [lia|].
    exists (m1 ++ m2). rewrite E2, E1, app_assoc. split; [reflexivity|].
    apply Forall_app. split; [exact F1|].
    apply (between_weaken (addr st1)); assumption.
  - split; [exact H1|]. split; [exact L1|]. exists m1. split; assumption.
Qed.

Lemma bounded_loop total body :
  bounded total body -> forall n, bounded total (loop n body).
Proof.
  intros Hb n. induction n as [|n IH]; intros st H0; cbn [loop].
  - apply (bounded_raise total OutOfFuel st H0).
  - destruct (Hb st H0) as (H1 & L1 & m1 & E1 & F1).
    destruct (body st) as [[|] st1|e st1]; cbn [final] in *.
    + destruct (IH st1 H1) as (H2 & L2 & m2 & E2 & F2).
      split; [exact H2|]. split; [lia|].
      exists (m1 ++ m2). rewrite E2, E1, app_assoc. split; [reflexivity|].
      apply Forall_app. split; [exact F1|].
      apply (between_weaken (addr st1)); assumption.
    + split; [exact H1|]. split; [exact L1|]. exists m1. split; assumption.
    + split; [exact H1|]. split; [exact L1|]. exists m1. split; assumption.
Qed.

Lemma bounded_while_true total body :
  bounded total body -> bounded total (while_true body).
Proof. intros Hb st. unfold while_true. apply bounded_loop. exact Hb. Qed.

Lemma bounded_yield {A} total (c : fieldc A) :
  fits total c -> bounded total (yield c).
Proof.
  intros Hc st H0. unfold yield.
  destruct (c st) as [f a|e] eqn:E; cbn [final].
  - destruct (Hc st f a H0 E) as (Ha & Hs).
    split; [apply cursor_ok_addField; assumption|].
    rewrite addr_addField. split; [lia|].
    exists [setUniqueFieldName (out st) f]. split; [reflexivity|].
    constructor; [|constructor]. apply between_unique.
    destruct H0 as (_ & _ & _ & Ht). unfold between. lia.
  - apply (@bounded_raise A total e st H0).
Qed.

Lemma fits_bits_field {A} total c n nbits d (mk : Z -> fvalue * A) :
  0 <= nbits -> fits total (bits_field c n nbits d mk).
Proof.
  intros Hn st f a (Hp & Hb & Hl & Ht). unfold bits_field, readBits.
  destruct (_ <? _)%nat eqn:El; intros E; [discriminate|].
  apply Built_inj in E. subst f. cbn [f_address f_size].
  split; [reflexivity|]. split; [exact Hn|].
  apply Nat.ltb_ge in El. rewrite length_firstn in El.
  pose proof (Z.div_mod (bit st + nbits + 7) 8 ltac:(lia)) as Hd.
  pose proof (Z.mod_pos_bound (bit st + nbits + 7) 8 ltac:(lia)) as Hm.
  assert (Hq : 0 <= (bit st + nbits + 7) / 8) by (apply Z.div_pos; lia).
  unfold left_bits. lia.
Qed.

Lemma readBytes_fits total st len data :
  cursor_ok total st -> readBytes st len = inr data ->
  0 <= 8 * len <= left_bits st.
Proof.
  intros (Hp & Hb & Hl & Ht). unfold readBytes.
  destruct (Z.eqb_spec (bit st) 0) as [E0|]; [|discriminate]. cbn [negb].
  destruct (Z.ltb_spec len 0); [discriminate|].
  destruct (_ <? _)%nat eqn:El; [discriminate|]. intros _.
  apply Nat.ltb_ge in El. rewrite length_firstn in El.
  unfold left_bits. lia.
Qed.

Lemma fits_bytes_field total c n len d : fits total (bytes_field c n len d).
Proof.
  intros st f a H0. unfold bytes_field.
  destruct (readBytes st len) as [e|data] eqn:E; [discriminate|].
  intros E1. apply Built_inj in E1. subst f. cbn [f_address f_size].
  split; [reflexivity|]. eapply readBytes_fits; eassumption.
Qed.

Lemma fits_NullBytes total n len d : fits total (NullBytes n len d).
Proof.
  intros st f a H0. unfold NullBytes.
  destruct (readBytes st len) as [e|data] eqn:E; [discriminate|].
  destruct (forallb _ _); [|discriminate].
  intros E1. apply Built_inj in E1. subst f. cbn [f_address f_size].
  split; [reflexivity|]. eapply readBytes_fits; eassumption.
Qed.

Lemma fits_Character total n d : fits total (Character n d).
Proof.
  intros st f a H0. unfold Character.
  destruct (readBytes st 1) as [e|data] eqn:E; [discriminate|].
  pose proof (readBytes_fits total st 1 data H0 E) as Hs.
  destruct data as [|ch [|]]; try discriminate.
  intros E1. apply Built_inj in E1. subst f. cbn [f_address f_size].
  split; [reflexivity|lia].
Qed.

Lemma fits_PascalString8 total n d sc : fits total (PascalString8 n d sc).
Proof.
  intros st f a (Hp & Hb & Hl & Ht). unfold PascalString8, left_bits.
  destruct (Z.eqb_spec (bit st) 0) as [E0|]; [|discriminate]. cbn [negb].
  destruct (input st) as [|b r]; [discriminate|].
  destruct (_ <? _)%nat eqn:El; [discriminate|].
  intros E1. apply Built_inj in E1. subst f. cbn [f_address f_size].
  apply Nat.ltb_ge in El. rewrite length_firstn in El.
  pose proof (byte_val_range b). cbn [List.length].
  split; [reflexivity|lia].
Qed.

Lemma fits_with_handler {A} total h (c : fieldc A) :
  fits total c -> fits total (with_handler h c).
Proof.
  intros Hc st f a H0. unfold with_handler.
  destruct (c st) as [f0 a0|e] eqn:E0; [|discriminate].
  intros E. apply Built_inj in E. subst f. cbn [f_address f_size].
  eapply Hc; eassumption.
Qed.

Lemma cursor_ok_children total st :
  cursor_ok total st -> cursor_ok total (children_state st).
Proof. intros H. exact H. Qed.

Lemma fits_FieldSet total c n d body :
  bounded total body -> fits total (FieldSet c n d body).
Proof.
  intros Hb st f a H0. unfold FieldSet.
  destruct (Hb (children_state st) (cursor_ok_children _ _ H0))
    as (H1 & L1 & _).
  destruct (body (children_state st)) as [u st'|e st']; [|discriminate].
  intros E. apply Built_inj in E. subst f. cbn [f_address f_size final] in *.
  change (addr (children_state st)) with (addr st) in L1.
  destruct H0 as (_ & _ & _ & Ht). destruct H1 as (_ & _ & Hl' & Ht').
  split; [reflexivity|lia].
Qed.

Ltac inbounds :=
  repeat match goal with
    | |- bounded _ (ret _) => apply bounded_ret
    | |- bounded _ (raise _) => apply bounded_raise
    | |- bounded _ (error _) => apply bounded_error
    | |- bounded _ (getitem _) => apply bounded_getitem
    | |- bounded _ (while_true _) => apply bounded_while_true
    | |- bounded _ (bind _ _) => apply bounded_bind; [|intros ?]
    | |- bounded _ (yield _) => apply bounded_yield
    | |- bounded _ (if ?b then _ else _) => destruct b
    | |- bounded _ (let _ := _ in _) => cbv zeta
    | |- fits _ (with_handler _ _) => apply fits_with_handler
    | |- fits _ (bits_field _ _ _ _ _) => apply fits_bits_field; lia
    | |- fits _ (bytes_field _ _ _ _) => apply fits_bytes_field
    | |- fits _ (NullBytes _ _ _) => apply fits_NullBytes
    | |- fits _ (PascalString8 _ _ _) => apply fits_PascalString8
    | |- fits _ (Character _ _) => apply fits_Character
    | |- fits _ (FieldSet _ _ _ _) => apply fits_FieldSet
    | |- fits _ _ => progress unfold_fields
    end.

Lemma bounded_PaletteRGB_createFields total k :
  bounded total (PaletteRGB_createFields k).
Proof.
  induction k as [|k IH]; cbn [PaletteRGB_createFields].
  - apply bounded_ret.
  - apply bounded_bind; [|intros _; exact IH]. unfold_fields. inbounds.
Qed.

Lemma fits_PaletteRGB total n nb d : fits total (PaletteRGB n nb d).
Proof. apply fits_FieldSet, bounded_PaletteRGB_createFields. Qed.

Lemma fits_ScreenDescriptor total n d : fits total (ScreenDescriptor n d).
Proof.
  apply fits_FieldSet. unfold ScreenDescriptor_createFields.
  unfold_fields. inbounds.
Qed.

Lemma fits_Image total n : fits total (Image n).
Proof.
  apply fits_FieldSet. unfold Image_createFields. unfold_fields. inbounds.
  apply fits_PaletteRGB.
Qed.

Lemma bounded_Extension_init total n code :
  bounded total (snd (fst (Extension_init n code))).
Proof.
  unfold Extension_init, ext_code.
  destruct (code =? 249); [|destruct (code =? 254); [|destruct (code =? 255)]];
    cbn [fst snd];
    unfold parseGraphicControl, parseComments, parseApplicationExtension,
      defaultExtensionParser; unfold_fields; inbounds.
Qed.

Lemma fits_Extension total n : fits total (Extension n).
Proof.
  intros st f a. unfold Extension.
  destruct (Extension_code (children_state st)) as [f0 code|e];
    [|intros _; discriminate].
  pose proof (bounded_Extension_init total n code) as Hp.
  destruct (Extension_init n code) as [[nm parser] d]. cbn [fst snd] in Hp.
  apply fits_FieldSet. unfold Extension_createFields.
  unfold_fields. inbounds. exact Hp.
Qed.

Lemma bounded_end_padding total self_size :
  size_in_stream self_size total ->
  bounded total (fun st =>
                   match self_size with
                   | Some size =>
                       if addr st <? size
                       then yield (seekBit size (Name "end")) st
                       else Done tt st
                   | None => Done tt st
                   end).
Proof.
  intros Hs st H0.
  destruct self_size as [size|]; [|apply (bounded_ret total tt st H0)].
  destruct (Z.ltb_spec (addr st) size) as [Hlt|Hge];
    [|apply (bounded_ret total tt st H0)].
  unfold yield, seekBit. cbn [final].
  set (f := mkField (Name "end") cRawBytes (addr st) (size - addr st) NoV
              None None []).
  assert (Hf : 0 <= f_size f <= left_bits st).
  { cbn [f f_size]. cbn [size_in_stream] in Hs.
    destruct H0 as (_ & _ & _ & Ht). lia. }
  split; [apply cursor_ok_addField; assumption|].
  rewrite addr_addField. split; [lia|].
  exists [setUniqueFieldName (out st) f]. split; [reflexivity|].
  constructor; [|constructor]. apply between_unique.
  destruct H0 as (_ & _ & _ & Ht). unfold between. cbn [f f_address f_size].
  cbn [size_in_stream] in Hs. lia.
Qed.

Lemma bounded_block_rest total self_size code :
  size_in_stream self_size total ->
  bounded total
    (if Byte.eqb code x21 then
       yield (Extension (Array "extensions")) ;; ret true
     else if Byte.eqb code x2c then
       yield (Image (Array "image")) ;;
       (fun st =>
          match self_size with
          | Some size =>
              if addr st <? size
              then yield (seekBit size (Name "end")) st
              else Done tt st
          | None => Done tt st
          end) ;;
       ret false
     else if Byte.eqb code x3b then ret false
     else
       error ("Wrong GIF image separator: ASCII " ++ format_02X (ord code)
              ++ ".") ;;
       ret false).
Proof.
  intros Hs.
  destruct (Byte.eqb code x21).
  { apply bounded_bind; [apply bounded_yield, fits_Extension|].
    intros _. apply bounded_ret. }
  destruct (Byte.eqb code x2c).
  { apply bounded_bind; [apply bounded_yield, fits_Image|intros _].
    apply bounded_bind; [apply bounded_end_padding; exact Hs|intros _].
    apply bounded_ret. }
  destruct (Byte.eqb code x3b); [apply bounded_ret|].
  apply bounded_bind; [apply bounded_error|intros _; apply bounded_ret].
Qed.

Lemma bounded_block total self_size :
  size_in_stream self_size total -> bounded total (GifFile_block self_size).
Proof.
  intros Hs. unfold GifFile_block.
  apply bounded_bind.
  - apply bounded_yield. unfold Enum. apply fits_with_handler, fits_Character.
  - intros code. apply bounded_block_rest. exact Hs.
Qed.

Lemma bounded_createFields total self_size :
  size_in_stream self_size total ->
  bounded total (GifFile_createFields self_size).
Proof.
  intros Hs. unfold GifFile_createFields.
  apply bounded_bind;
    [apply bounded_yield; unfold String_; apply fits_bytes_field|intros _].
  apply bounded_bind;
    [apply bounded_yield, fits_ScreenDescriptor|intros _].
  apply bounded_bind; [apply bounded_getitem|intros gm].
  apply bounded_bind;
    [|intros _; apply bounded_while_true, bounded_block; exact Hs].
  destruct (value_true gm); [|apply bounded_ret].
  apply bounded_bind; [apply bounded_getitem|intros bpp].
  apply bounded_yield, fits_PaletteRGB.
Qed.

Lemma cursor_ok_start stream :
  cursor_ok (8 * Z.of_nat (List.length stream)) (start stream).
Proof.
  unfold cursor_ok, left_bits, addr, start. cbn [byte_pos bit input]. lia.
Qed.

Lemma parse_fields_in self_size stream :
  size_in_stream self_size (8 * Z.of_nat (List.length stream)) ->
  Forall (between 0 (8 * Z.of_nat (List.length stream)))
    (out (final (parse self_size stream)))
  /\ 0 <= addr (final (parse self_size stream))
     <= 8 * Z.of_nat (List.length stream).
Proof.
  intros Hs.
  destruct (bounded_createFields _ _ Hs (start stream)
              (cursor_ok_start stream))
    as (H1 & L1 & more & E & F).
  unfold parse. rewrite E. cbn [start out app]. split; [exact F|].
  change (addr (start stream)) with 0 in L1.
  destruct H1 as (_ & _ & Hl & Ht). lia.
Qed.


(** ** The smallest stream with an image *)

Lemma advances_ret {A} n (a : A) : n = 0 -> advances n (ret a).
Proof.
  intros -> st a' st' E. apply Done_inj in E. subst st'. lia.
Qed.

Lemma advances_bind {A B} a n (m : M A) (k : A -> M B) :
  advances a m -> (forall x, advances (n - a) (k x)) ->
  advances n (bind m k).
Proof.
  intros Hm Hk st b st'. unfold bind.
  destruct (m st) as [x st1|e st1] eqn:E; [|discriminate].
  intros E1. specialize (Hm st x st1 E). specialize (Hk x st1 b st' E1). lia.
Qed.

Lemma advances_yield {A} n (c : fieldc A) : sized n c -> advances n (yield c).
Proof.
  intros Hc st a st'. unfold yield.
  destruct (c st) as [f x|e] eqn:E; [|discriminate].
  intros E1. apply Done_inj in E1. subst st'.
  rewrite addr_addField, (Hc st f x E). reflexivity.
Qed.

Lemma sized_bits_field {A} c n nbits d (mk : Z -> fvalue * A) :
  sized nbits (bits_field c n nbits d mk).
Proof.
  intros st f a. unfold bits_field.
  destruct (readBits st nbits); intros E; [|discriminate].
  apply Built_inj in E. subst f. reflexivity.
Qed.

Lemma sized_bytes_field c n len d : sized (8 * len) (bytes_field c n len d).
Proof.
  intros st f a. unfold bytes_field.
  destruct (readBytes st len); intros E; [discriminate|].
  apply Built_inj in E. subst f. reflexivity.
Qed.

Lemma sized_FieldSet c n d sz body :
  advances sz body -> sized sz (FieldSet c n d body).
Proof.
  intros Hb st f a. unfold FieldSet.
  destruct (body (children_state st)) as [u st'|e st'] eqn:E; [|discriminate].
  intros E1. apply Built_inj in E1. subst f. cbn [f_size].
  rewrite (Hb _ _ _ E). change (addr (children_state st)) with (addr st). lia.
Qed.

Lemma sized_ScreenDescriptor n d : sized 56 (ScreenDescriptor n d).
Proof.
  apply sized_FieldSet. unfold ScreenDescriptor_createFields.
  unfold_fields.
  repeat (eapply advances_bind;
          [apply advances_yield, sized_bits_field|intros ?]).
  apply advances_ret. reflexivity.
Qed.

Lemma head_step {A} total (c : fieldc A) n sz st :
  fits total c -> declares n c -> is_image n = false -> n <> Array "image" ->
  sized sz c -> cursor_ok total st -> Forall no_image (out st) ->
  match yield c st with
  | Done a st1 =>
      cursor_ok total st1 /\ addr st1 = addr st + sz
      /\ Forall no_image (out st1)
  | Raise e st1 => st1 = st
  end.
Proof.
  intros Hf Hd Hi Ha Hs H0 Ho. unfold yield.
  destruct (c st) as [f a|e] eqn:E; [|reflexivity].
  destruct (Hf st f a H0 E) as (_ & Hsz).
  split; [apply cursor_ok_addField; assumption|].
  rewrite addr_addField, (Hs st f a E). split; [reflexivity|].
  unfold addField. cbn [out]. apply Forall_app. split; [exact Ho|].
  constructor; [|constructor].
  apply no_image_unique; rewrite (Hd st f a E); assumption.
Qed.

Lemma image_from_weaken lo lo' fs :
  lo' <= lo -> Forall (image_from lo) fs -> Forall (image_from lo') fs.
Proof.
  intros Hl H. eapply Forall_impl; [|exact H].
  unfold image_from. intros f Hf Hi. specialize (Hf Hi). lia.
Qed.

Lemma loop_images_late total self_size n :
  size_in_stream self_size total ->
  forall st, cursor_ok total st -> count_images (out st) = 0%nat ->
    exists more,
      out (final (loop n (GifFile_block self_size) st)) = out st ++ more
      /\ Forall (image_from (addr st + 8)) more.
Proof.
  intros Hs. induction n as [|n IH]; intros st H0 Hc; cbn [loop].
  - exists []. rewrite app_nil_r. split; [reflexivity|constructor].
  - destruct (block_images self_size st Hc) as (m1 & E1 & _ & _ & L1 & T1).
    destruct (bounded_block total self_size Hs st H0) as (H1 & A1 & _).
    destruct (GifFile_block self_size st) as [[|] st1|e st1];
      cbn [final] in *.
    + specialize (T1 st1 eq_refl).
      destruct (IH st1 H1) as (m2 & E2 & L2).
      { rewrite E1, count_images_app, Hc, T1. reflexivity. }
      exists (m1 ++ m2). rewrite E2, E1, app_assoc.
      split; [reflexivity|]. apply Forall_app. split; [exact L1|].
      apply (image_from_weaken (addr st1 + 8)); [lia|exact L2].
    + exists m1. split; assumption.
    + exists m1. split; assumption.
Qed.

Lemma parse_images_late self_size stream :
  size_in_stream self_size (8 * Z.of_nat (List.length stream)) ->
  Forall (image_from 112) (out (final (parse self_size stream))).
Proof.
  intros Hs. set (total := 8 * Z.of_nat (List.length stream)) in *.
  unfold parse, GifFile_createFields.
  rewrite bind_eq.
  pose proof (head_step total
                (String_ (Name "header") 6 (Some "File header"%string))
                (Name "header") 48 (start stream)
                (fits_bytes_field _ _ _ _ _) (declares_bytes_field _ _ _ _)
                eq_refl ltac:(discriminate) (sized_bytes_field _ _ 6 _)
                (cursor_ok_start stream) (Forall_nil _)) as S1.
  destruct (yield (String_ _ _ _) (start stream)) as [a1 st1|e1 st1].
  2:{ subst st1. constructor. }
  destruct S1 as (H1 & A1 & O1). change (addr (start stream)) with 0 in A1.
  rewrite bind_eq.
  pose proof (head_step total
                (ScreenDescriptor (Name "screen")
                   (Some "Screen descriptor"%string))
                (Name "screen") 56 st1
                (fits_ScreenDescriptor _ _ _) (declares_FieldSet _ _ _ _)
                eq_refl ltac:(discriminate) (sized_ScreenDescriptor _ _)
                H1 O1) as S2.
  destruct (yield (ScreenDescriptor _ _) st1) as [a2 st2|e2 st2].
  2:{ subst st2. cbn [final]. apply image_from_none. exact O1. }
  destruct S2 as (H2 & A2 & O2).
  rewrite bind_eq. unfold getitem at 1.
  destruct (getPath (out st2) [Name "screen"; Name "global_map"]) as [gm|];
    [|cbn [final]; apply image_from_none; exact O2].
  rewrite bind_eq.
  match goal with
  | |- context [match ?m st2 with Done _ _ => _ | Raise _ _ => _ end] =>
      assert (Hb : bounded total m);
      [|assert (Hy : yields no_image m);
        [|destruct (Hb st2 H2) as (H3 & A3 & _);
          destruct (Hy st2) as (m3 & E3 & F3);
          destruct (m st2) as [a3 st3|e3 st3]; cbn [final] in *]]
  end.
  - destruct (value_true gm); [|apply bounded_ret].
    apply bounded_bind; [apply bounded_getitem|intros bpp].
    apply bounded_yield, fits_PaletteRGB.
  - destruct (value_true gm); [|apply yields_ret].
    apply yields_bind; [apply yields_getitem|intros bpp].
    eapply yields_plain_no_image;
      [apply declares_FieldSet|reflexivity|discriminate].
  - assert (O3 : Forall no_image (out st3)).
    { rewrite E3. apply Forall_app. split; assumption. }
    unfold while_true.
    destruct (loop_images_late total self_size
                (S (List.length (input st3))) Hs st3 H3
                (count_images_none _ O3)) as (more & E & L).
    rewrite E. apply Forall_app. split; [apply image_from_none; exact O3|].
    apply (image_from_weaken (addr st3 + 8)); [lia|exact L].
  - rewrite E3. apply image_from_none, Forall_app. split; assumption.
Qed.

Lemma root_getitem_In self_size stream n f :
  root_getitem self_size stream [n] = inr f ->
  In f (out (final (parse self_size stream))) /\ f_name f = n.
Proof.
  unfold root_getitem.
  assert (Hfind : forall fs, getPath fs [n] = Some f ->
                             In f fs /\ f_name f = n).
  { intros fs Hg. cbn [getPath] in Hg. unfold getField in Hg.
    apply find_some in Hg. destruct Hg as [Hin Heq].
    apply fname_eqb_eq in Heq. split; assumption. }
  destruct (parse self_size stream) as [a st|e st]; cbn [final];
    destruct (getPath (out st) [n]) eqn:G;
    intros H; try discriminate; injection H as <-; apply Hfind; exact G.
Qed.

(** X17.  tags["min_size"] is a lower bound that the parser keeps: when a
    parse has an image block image[0], the image descriptor starts at bit
    112 or later and ends at bit [min_size] = 184 or later, inside the
    stream; a stream with an image has 23 bytes or more. *)
Theorem image_needs_min_size (self_size : option Z) (stream : list byte)
    (f : field) :
  size_in_stream self_size (8 * Z.of_nat (List.length stream)) ->
  root_getitem self_size stream [Item "image" 0] = inr f ->
  112 <= f_address f
  /\ min_size <= f_address f + f_size f <= 8 * Z.of_nat (List.length stream)
  /\ (23 <= List.length stream)%nat.
Proof.
  intros Hs Hf.
  destruct (root_image_ok _ _ _ Hf) as (_ & _ & _ & Hsz & Hlm & _).
  destruct (root_getitem_In _ _ _ _ Hf) as (Hin & Hn).
  pose proof (parse_images_late self_size stream Hs) as Hl.
  destruct (parse_fields_in self_size stream Hs) as (Hb & _).
  rewrite Forall_forall in Hl, Hb.
  assert (Ha : 112 <= f_address f).
  { apply (Hl f Hin). unfold same_array. rewrite Hn. reflexivity. }
  destruct (Hb f Hin) as (_ & _ & He).
  unfold min_size. lia.
Qed.

Lemma image_needs_min_size_witness :
  exists f,
    root_getitem None
      (bytes "GIF89a" ++ [x01; x00; x01; x00; x00; x00; x00; x2c;
                          x00; x00; x00; x00; x01; x00; x01; x00; x00])
      [Item "image" 0] = inr f
    /\ 112 <= f_address f
    /\ min_size <= f_address f + f_size f <= 8 * 23
    /\ (23 <= 23)%nat.
Proof.
  eexists. split; [vm_compute; reflexivity|].
  refine (image_needs_min_size None
            (bytes "GIF89a" ++ [x01; x00; x01; x00; x00; x00; x00; x2c;
                                x00; x00; x00; x00; x01; x00; x01; x00; x00])
            _ _ _).
  - simpl. exact I.
  - vm_compute. reflexivity.
Defined.
